(* ===== verification/_CoqProject ===== *)
-Q . S2P
Prelude.v
HappensBefore.v
GoReflect.v
FieldInfo.v
FieldEnum.v
TypeInfo.v
GoSlice.v
ExtSlices.v
Registry.v
Concurrent.v
ConcSlices.v
SliceRaces.v
RWMutex.v
Locked.v
