(* ===== verification/Prelude.v ===== *)
(** * A verification development of kin-openapi's [jsoninfo] type registry

    The modelled program is [src/jsoninfo/type_info.go], the per-type
    metadata cache of kin-openapi's JSON layer.  It consists of

    - the global registry [typeInfos : map[reflect.Type]*TypeInfo] guarded by
      [typeInfosMutex], filled lazily by [GetTypeInfo] and reached from values
      through [GetTypeInfoForValue];
    - the [TypeInfo] record: [Type], [Fields] (computed once by the field
      enumerator [AppendFields] and sorted with [sort.Sort] over
      [sortableFieldInfos]), the flag [MultipleFields], the append-only
      [extensions] slice under [mutex], and the [Schema] slot under
      [SchemaMutex];
    - the derived views [FieldNames] and [Extensions].

    [AppendFields], [FieldInfo], [sortableFieldInfos] and [ExtensionInfo] live
    in other files of the package that are not part of the staged sources;
    they are modelled from the specification (their map entries say so).
    Go's [reflect] package is modelled only as far as the code uses it.

    ** Layout of the library (in dependency order)

    - [Prelude] (this file): the [go_scope] notation [let? x := m in k] for
      the [outcome] type of Go computations that return, panic or run out of
      fuel; the [jsoninfo] hint database; the [outcome_simpl] tactic; generic
      list lemmas (uniqueness of sorted permutations, pigeonhole on lists,
      folds that only append, membership in updated lists, [countb] and sums
      under updates); the stuttering simulation section ([rtc_simulation],
      after the simulation diagram of a small-step semantics), the forward
      simulation by a relation ([rtc_forward_sim]) and the bound of an
      execution by a decreasing measure ([nsteps_measure]).
    - [HappensBefore]: Go's happens-before order as vector clocks
      ([VClock], a joinable preorder after the views of weak-memory
      developments) and what a [sync.RWMutex] synchronises ([MClock],
      [lock_acq], [rlock_acq], [unlock_rel], [runlock_rel]), by the
      memory model's rules for [Lock], [Unlock], [RLock] and [RUnlock].
    - [GoReflect]: [reflect.Type] as identifiers into a type universe
      ([gmap type_id rtype]); [Reflect.Kind] with Go's constructors;
      [KindOf], [Elem], [StructFields], [TypeOf]; the loop of lines 31-33 as
      the fuelled [deref].  Theory: [deref_Some_iff]/[deref_None_iff]
      (the loop stops at the first non-pointer of the chain), fuel
      monotonicity, divergence on pointer cycles, [deref_fuel_bound]
      (fuel [size u + 1] decides the loop), and [ptr_steps], the number of
      iterations, which each iteration lowers.  An example program
      ([Inner], [Outer], [*Outer], [**Outer], [type P *P]).
    - [FieldInfo]: [FieldInfo], the [sortableFieldInfos.Less] order (wire
      name, then locator), Go's [sort.Sort] contract [sort_contract], the
      insertion sort [sort_fields] standing for line 55, the theorem that any
      output meeting the contract equals [sort_fields] when locators are
      distinct, and [FieldNames] as the index-filling loop of lines 80-84
      with [FieldNames_spec].
    - [FieldEnum]: the interface [FieldEnumerator] (a typeclass) for
      [AppendFields], whose laws are what the registry relies on (the
      accumulator is only extended; locators are distinct), the flattening
      instance [flatten_enumerator] that discharges them, and [field_at]
      ([reflect.Type.FieldByIndex]) with the lemma that every produced
      locator resolves to a field of the recorded type and wire name.
    - [TypeInfo]: the record, the heap of shared objects addressed by [loc],
      [AddExtension], [Extensions] and [TypeInfoFieldNames]; accumulation
      of completed appends.  [Schema] is a field of the record only: no code
      of type_info.go reads or writes it.
    - [GoSlice]: Go slices as headers (array, length, capacity) over a
      store of backing arrays; [append] in place with spare capacity, else
      into a fresh array of the runtime's [nextslicecap] capacity.  Theorems:
      [append_spec] (well-formedness, contents, frame) and
      [append_shared_cell] (two appends to one header with spare capacity
      write the same cell), lemmas of Go's built-in that the components
      below apply.
    - [ExtSlices]: the [extensions] field as a slice ([XState]) with
      [AddExtensionS] and [ExtensionsS] (lines 65-75); [xrel] relates it to
      the list model.  Theorems: [AddExtension] refines its list version,
      panics included ([ExtensionsS] returns the header that [xrel] says
      shows the list), and [Extensions_caller_append], the aliasing of the
      header [Extensions] returns; [snap_ok], the headers callers hold, and
      [AddExtensionS_Ok], which keeps them showing what they showed.
    - [Registry]: the process state [World] (registry, heap, allocator),
      the phases [lookup_typeInfo], [newTypeInfo], [alloc], [publish],
      [miss], and [GetTypeInfo], [GetTypeInfoForValue], [GetTypeInfos]
      (a caller's sequence of calls, a driver for the theorems, not code).
      Theorems: identity for later calls on any type of the same normal
      form, the invariant [registry_wf] over call sequences, the shape of
      the returned object, [fields_of_spec], termination dichotomy and
      divergence on [type P *P], the panic on a nil value, and
      [newTypeInfo_fields_typed] (every computed field is typed by its
      locator).
    - [Concurrent]: goroutines as program counters ([Thread]) whose steps
      ([tstep]) are the loop iterations and the critical sections of the
      source, [Extensions] callers included; [cstep] interleaves them, [run]
      replays a schedule, [rtc] gives reachability.  Theorems: the heap only
      grows and published [Fields] never change ([reachable_heap_le], with
      [heap_le] a [PreOrder] instance), the invariant [conc_inv] by rule
      induction, [GetDone_valid] (every caller gets a fully computed
      object, races included), [entry_stable] (a published entry with no
      pending miss is final), [GetTypeInfo_race], [AddExt_accumulate]
      (concurrent [AddExtension] calls lose nothing) and
      [Extensions_snapshot] (what [Extensions] returned stays a prefix);
      [GetDone_refines_sequential]: every completed call, races included,
      returns an object with the [Type], [Fields] and [MultipleFields] a
      sequential [GetTypeInfo] returns (the per-goroutine invariant
      [heads_to] follows the type each call normalises to).
    - [ConcSlices]: goroutines ([XThread], [xtstep]) calling [AddExtension]
      and [Extensions] on the slice model, each call one atomic step under
      the object's mutex, and callers appending, unsynchronised, to the
      slice they got.  Theorems: [ConcSlices_refines], a forward simulation
      ([xabs]) into [Concurrent] while no caller appends; [slice_snapshot]
      (a returned header keeps showing a prefix of the field, although it
      shares the field's array); [slice_no_lost_extension] (concurrent
      [AddExtension] calls lose nothing across reallocations);
      [caller_append_lost] (one caller append overwrites an extension a
      completed [AddExtension] stored).
    - [SliceRaces]: the [ConcSlices] goroutines with vector clocks, the
      mutexes' clocks and the log of every memory access (the field, the
      array cells [append] reads and writes: [mloc], [append_locs],
      [sync_step]).  Theorems: [methods_race_free] (no two conflicting
      accesses of the methods are unordered, by the invariant [drf_inv]:
      every access to an object's memory is below what its mutex has
      released) and [caller_append_races] (a caller's append and an
      in-place [AddExtension] write one cell, unordered both ways).
    - [RWMutex]: [sync.RWMutex] by its contract: writer flag and reader
      count, [RLock]/[Lock] blocking ([None]), [RUnlock]/[Unlock] faulting on
      a mutex not held; [held m nr nw] counts the holders.
    - [Locked]: the goroutines at the granularity of the lock calls: every
      [RLock], [RUnlock], [Lock], [Unlock] of [GetTypeInfo], [AddExtension]
      (its deferred [Unlock]) and [Extensions] (its deferred [RUnlock]) is a
      step on explicit mutex state ([LWorld], [LThread], [ltstep]).
      Theorems: the lock invariant [lock_inv] (each mutex's state counts its
      holders) is preserved, hence [mutual_exclusion]; [Locked_refines]:
      every lock-level execution maps to a [Concurrent] execution (a
      stuttering simulation through [abs_config]), so [LGetDone_valid]
      transfers; [deadlock_free] and [all_return] (some schedule brings
      every goroutine to its return).

    ** Findings

    - The miss path publishes without re-checking under the write lock
      (lines 58-61): two first callers of [GetTypeInfo] on one type return
      different objects, the later publication replaces the earlier, and
      an extension added through the first object is not seen by later
      callers ([Concurrent.GetTypeInfo_race]; with the mutexes explicit the
      same schedule exists, [Locked.GetTypeInfo_race_locked]: it is not a
      data race but a missing re-check).  The specification requires one
      instance per type for all callers.
    - [MultipleFields] is never set (no pass after line 55): every
      [TypeInfo] [GetTypeInfo] returns has it [false]
      ([Registry.GetTypeInfo_result]), also for [Outer], whose fields
      [Inner.X] and [X] share the wire name ["x"].  The comment of line 17
      and the specification want it set exactly when names collide.
    - The loop of lines 31-33 never exits on [type P *P]
      ([Registry.GetTypeInfo_cycle]), and [GetTypeInfoForValue(nil)]
      panics ([Registry.GetTypeInfoForValue_panic]); the specification
      calls the operation total.
    - [Extensions] returns the field's slice header, not a copy (line 74):
      a caller that appends to it shares the array cell the next
      [AddExtension] writes whenever the slice has spare capacity, and its
      element is overwritten ([ExtSlices.Extensions_caller_append]).  The
      write also lands in the object's own array: when it follows a
      concurrent [AddExtension(e)] that wrote in place, the object's
      extensions end with the caller's element and [e] is lost
      ([ConcSlices.caller_append_lost]).  The specification promises readers
      a snapshot and no lost entry under concurrent appends.  In Go's
      memory model the caller's write is moreover a data race with the
      [AddExtension] write ([SliceRaces.caller_append_races]), while the
      methods alone are race free ([SliceRaces.methods_race_free]).

    ** Fuel and bounds

    Only the pointer-stripping loop can fail to terminate; it is written
    with fuel, and [deref_fuel_bound] shows that fuel [size u + 1] (one more
    than the number of types of the universe) is enough: if the loop has not
    stopped then, it never stops.  The lock-level termination measure
    [lmeasure] counts, per goroutine, the loop iterations left within the
    fuel ([ptr_steps]) and the lock calls and accesses left; it decreases
    along the schedule [all_return] builds when no pointer chain in flight
    is cyclic.  The field
    enumerator instance takes an embedding depth bound, the cycle guard the
    specification leaves open; Go forbids embedding a struct in itself by
    value, so a bound at the nesting depth of the program enumerates every
    field.  Slice capacities follow the runtime's [nextslicecap]; the
    theorems on [append] hold for any policy that gives at least the needed
    length, so the allocator's size-class rounding does not affect them.
    Everything else is structural recursion.

    ** Not modelled, and the plan for later work

    Not modelled: the JSON encoder and decoder that consume [TypeInfo]; the
    contents of [ExtensionInfo] and of schemas (opaque references here);
    the implementation of [sync.RWMutex] (semaphores, writer priority,
    which only orders the blocked goroutines); Go's memory model is
    modelled for the [extensions] methods only ([SliceRaces]), with each
    method call one atomic step, and not for the [typeInfos] map, whose
    lock discipline [Locked] proves; struct-tag syntax, unexported fields and func/chan
    filtering inside [AppendFields], which the specification delegates to
    the enumerator.  [ConcSlices] runs each method as one atomic step, as
    [Concurrent] does; the caller's unsynchronised append is a step of its
    own there, and [SliceRaces] detects its races by happens-before, not
    by interleaving its individual writes.  Not done: the repaired publish
    (re-check under [Lock]), which is not the code; the slice model
    inside the lock-level semantics of [Locked], which [SliceRaces]
    replaces for the questions of ordering it would answer. *)

From stdpp Require Export base list sorting options strings.
From stdpp Require Import relations gmap.

(** ** Outcomes of Go computations

    A Go function of the registry either returns, panics (a nil interface
    dereference in [GetTypeInfo]), or, in the model, runs out of the fuel
    given to a loop. *)

Inductive outcome (A : Type) : Type :=
| Ok (a : A)
| Panic (msg : string)
| OutOfFuel.
Arguments Ok {A} a.
Arguments Panic {A} msg.
Arguments OutOfFuel {A}.

Definition outcome_bind {A B} (m : outcome A) (k : A -> outcome B) : outcome B :=
  match m with
  | Ok a => k a
  | Panic msg => Panic msg
  | OutOfFuel => OutOfFuel
  end.

Definition outcome_of_option {A} (o : option A) : outcome A :=
  match o with Some a => Ok a | None => OutOfFuel end.

Declare Scope go_scope.
Delimit Scope go_scope with go.
Notation "'let?' x ':=' m 'in' k" := (outcome_bind m (fun x => k))
  (at level 100, x name, m at level 99, k at level 100) : go_scope.

Create HintDb jsoninfo.

Lemma outcome_bind_Ok {A B} (m : outcome A) (k : A -> outcome B) b :
  outcome_bind m k = Ok b <-> exists a, m = Ok a /\ k a = Ok b.
Proof.
  destruct m; simpl; split; [eauto | intros (? & [= ->] & ?); done | done
    | intros (? & ? & ?); done | done | intros (? & ? & ?); done].
Qed.

Lemma outcome_of_option_Ok {A} (o : option A) a :
  outcome_of_option o = Ok a <-> o = Some a.
Proof. destruct o; simpl; split; congruence. Qed.


(** [outcome_simpl] turns equalities of outcomes in the hypotheses into
    their components. *)
Ltac outcome_simpl :=
  repeat match goal with
  | H : outcome_bind _ _ = Ok _ |- _ =>
      apply outcome_bind_Ok in H as (? & ? & ?)
  | H : outcome_of_option _ = Ok _ |- _ => apply outcome_of_option_Ok in H
  | H : Ok _ = Ok _ |- _ => injection H as H
  end; simplify_eq.

(** ** Generic list lemmas *)

Section list_facts.
Context {A B : Type}.

(** An injective view on a duplicate-free image identifies elements. *)
Lemma NoDup_fmap_inj_on (f : A -> B) (l : list A) x y :
  NoDup (f <$> l) -> x ∈ l -> y ∈ l -> f x = f y -> x = y.
Proof.
  induction l as [|z l IH]; intros Hnd Hx Hy Hf; [set_solver|].
  rewrite fmap_cons in Hnd. apply NoDup_cons in Hnd as [Hz Hnd].
  apply elem_of_cons in Hx, Hy.
  destruct Hx as [->|Hx], Hy as [->|Hy]; auto.
  - destruct Hz. rewrite Hf. by apply list_elem_of_fmap_2.
  - destruct Hz. rewrite <- Hf. by apply list_elem_of_fmap_2.
Qed.

Lemma NoDup_fmap_Permutation (f : A -> B) (l1 l2 : list A) :
  l1 ≡ₚ l2 -> NoDup (f <$> l1) -> NoDup (f <$> l2).
Proof. intros Hp. by rewrite Hp. Qed.

(** Two strongly sorted permutations of a list whose elements the order
    separates are equal: sorting is deterministic. *)
Lemma StronglySorted_unique_on (R : relation A) (key : A -> B) l1 l2 :
  (forall x y, R x y -> R y x -> key x = key y) ->
  NoDup (key <$> l1) ->
  StronglySorted R l1 -> StronglySorted R l2 -> l1 ≡ₚ l2 -> l1 = l2.
Proof.
  intros Hkey Hnd H1 H2 Hp. apply StronglySorted_unique_strong with R; auto.
  intros x y Hx Hy Hxy Hyx. apply (NoDup_fmap_inj_on key l1); auto.
  by rewrite Hp.
Qed.
End list_facts.

#[export] Hint Resolve NoDup_fmap_Permutation : jsoninfo.

(** A list over a type with decidable equality is duplicate-free or has a
    repeated element at two positions: the pigeonhole step of the
    termination argument for the pointer-stripping loop. *)
Lemma NoDup_or_repeat `{EqDecision A} (l : list A) :
  NoDup l \/ exists i j x, i < j /\ l !! i = Some x /\ l !! j = Some x.
Proof.
  induction l as [|x l [Hnd | (i & j & y & Hij & Hi & Hj)]].
  - left. constructor.
  - destruct (decide (x ∈ l)) as [Hx | Hx].
    + right. apply list_elem_of_lookup in Hx as [j Hj].
      exists 0, (S j), x. simpl. auto with lia.
    + left. by constructor.
  - right. exists (S i), (S j), y. simpl. auto with lia.
Qed.

(** A duplicate-free list drawn from a finite set is no longer than it. *)
Lemma NoDup_length_le_size `{Countable A} (l : list A) (X : gset A) :
  NoDup l -> (forall x, x ∈ l -> x ∈ X) -> length l <= size X.
Proof.
  intros Hnd Hin. rewrite <- (size_list_to_set (C:=gset A) l) by done.
  apply subseteq_size. intros x. rewrite elem_of_list_to_set. apply Hin.
Qed.

(** A left fold that only appends to its accumulator appends the
    concatenation of its per-element contributions. *)
Lemma foldl_append_acc {A B} (f : list A -> B -> list A) (acc : list A) (xs : list B) :
  (forall acc x, f acc x = acc ++ f [] x) ->
  foldl f acc xs = acc ++ mjoin (f [] <$> xs).
Proof.
  intros Hf. revert acc; induction xs as [|x xs IH]; intros acc; simpl.
  - by rewrite app_nil_r.
  - by rewrite IH, Hf, app_assoc.
Qed.

(** An element of an updated list is the new value or an old element. *)
Lemma elem_of_list_insert_inv {A} (l : list A) i x y :
  x ∈ <[i := y]> l -> x = y \/ x ∈ l.
Proof.
  intros (j & Hj)%list_elem_of_lookup. rewrite list_lookup_insert in Hj.
  case_decide; [left; congruence|]. right. by eapply list_elem_of_lookup_2.
Qed.

(** Updating position [i] of a list replaces the contribution of the old
    element to an [omap] by that of the new one, up to permutation. *)
Lemma omap_insert_Permutation {A B} (f : A -> option B) (l : list A) i x y :
  l !! i = Some y ->
  omap f [y] ++ omap f (<[i := x]> l) ≡ₚ omap f [x] ++ omap f l.
Proof.
  intros Hy. assert (i < length l) by (by eapply lookup_lt_Some).
  pose proof (take_drop_middle l i y Hy) as Hl. rewrite insert_take_drop by done.
  set (T := take i l) in *. set (D := drop (S i) l) in *. rewrite <- Hl.
  rewrite !omap_app. simpl.
  destruct (f x), (f y); simpl; rewrite ?Permutation_middle; try done.
  apply Permutation_app_head, perm_swap.
Qed.

(** ** Counting the elements of a list that satisfy a boolean test *)

Definition countb {A} (f : A -> bool) (l : list A) : nat := length (filter (fun x => f x = true) l).

Section countb_facts.
Context {A : Type} (f : A -> bool).

(** Updating position [i] trades the old element's contribution for the
    new one's. *)
Lemma countb_insert (l : list A) i x y :
  l !! i = Some x -> countb f (<[i := y]> l) + Nat.b2n (f x) = countb f l + Nat.b2n (f y).
Proof.
  unfold countb. revert i; induction l as [|z l IH]; intros [|i] Hi; simpl in *; try done.
  - injection Hi as ->. rewrite !filter_cons. destruct (f x), (f y); simpl; lia.
  - rewrite !filter_cons. specialize (IH i Hi). destruct (f z); simpl; lia.
Qed.

(** An element counted at position [i] makes the count positive. *)
Lemma countb_lookup (l : list A) i x : l !! i = Some x -> f x = true -> 1 <= countb f l.
Proof.
  unfold countb. revert i; induction l as [|z l IH]; intros [|i] Hi Hx; simpl in *; try done;
    rewrite filter_cons.
  - injection Hi as ->. rewrite decide_True by done. simpl. lia.
  - specialize (IH i Hi Hx). case_decide; simpl; lia.
Qed.

(** The count before and after an update share the other elements' part. *)
Lemma countb_split (l : list A) i x y :
  l !! i = Some x ->
  exists n, countb f l = n + Nat.b2n (f x) /\ countb f (<[i := y]> l) = n + Nat.b2n (f y).
Proof.
  intros Hi. pose proof (countb_insert l i x y Hi) as H.
  exists (countb f l - Nat.b2n (f x)).
  destruct (f x) eqn:Hx; simpl in *; [pose proof (countb_lookup l i x Hi Hx)|]; lia.
Qed.

(** Nothing counted, count zero. *)
Lemma countb_zero (l : list A) : Forall (fun x => f x = false) l -> countb f l = 0.
Proof. unfold countb. induction 1; simpl; [done|]. by rewrite filter_cons_False by congruence. Qed.

(** A positive count has a witness. *)
Lemma countb_witness (l : list A) :
  countb f l <> 0 -> exists i x, l !! i = Some x /\ f x = true.
Proof.
  unfold countb. induction l as [|z l IH]; simpl; [done|]. rewrite filter_cons.
  destruct (f z) eqn:Hz; [intros _; by exists 0, z|].
  intros (i & x & ? & ?)%IH. by exists (S i), x.
Qed.
End countb_facts.

(** Updating position [i] of a list trades the old element's share of a
    sum for the new one's. *)
Lemma sum_list_fmap_insert {A} (f : A -> nat) (l : list A) i x y :
  l !! i = Some x -> sum_list (f <$> <[i := y]> l) + f x = sum_list (f <$> l) + f y.
Proof.
  revert i; induction l as [|z l IH]; intros [|i] Hi; csimpl in *; try done.
  - injection Hi as ->. lia.
  - specialize (IH i Hi). lia.
Qed.

(** ** Stuttering simulation

    A step relation [stepA] refined into [stepB] through [abs]: every step
    of [A] from a state satisfying [inv] is a step of [B] or leaves the
    abstraction unchanged, and [inv] is preserved. *)

Section simulation.
Context {A B : Type} (stepA : relation A) (stepB : relation B) (abs : A -> B) (inv : A -> Prop).
Hypothesis inv_step : forall a a', inv a -> stepA a a' -> inv a'.
Hypothesis sim_step : forall a a', inv a -> stepA a a' -> stepB (abs a) (abs a') \/ abs a' = abs a.

Lemma rtc_invariant a a' : inv a -> rtc stepA a a' -> inv a'.
Proof using inv_step. intros Hinv Hr. induction Hr; eauto. Qed.

Lemma rtc_simulation a a' : inv a -> rtc stepA a a' -> rtc stepB (abs a) (abs a').
Proof using inv_step sim_step.
  intros Hinv Hr. induction Hr as [a|a1 a2 a3 Hs _ IH]; [done|].
  specialize (IH (inv_step a1 a2 Hinv Hs)).
  destruct (sim_step a1 a2 Hinv Hs) as [Hb | Heq]; [by eapply rtc_l|by rewrite <- Heq].
Qed.
End simulation.

(** ** Forward simulation by a relation

    Each step of the concrete system [stepC] is matched by one step of
    the abstract one [stepA] between related states. *)
Section forward_simulation.
Context {A C : Type} (stepA : relation A) (stepC : relation C) (R : A -> C -> Prop).
Hypothesis sim_step : forall a c c', R a c -> stepC c c' -> exists a', stepA a a' /\ R a' c'.

Lemma rtc_forward_sim a c c' : R a c -> rtc stepC c c' -> exists a', rtc stepA a a' /\ R a' c'.
Proof using sim_step.
  intros HR Hr. revert a HR. induction Hr as [c|c1 c2 c3 Hs _ IH]; intros a HR.
  { exists a. split; [constructor|done]. }
  destruct (sim_step a c1 c2 HR Hs) as (a2 & Ha & HR2).
  destruct (IH a2 HR2) as (a3 & ? & ?). eauto using rtc_l.
Qed.
End forward_simulation.

(** ** Executions bounded by a measure *)

Section measure.
Context {A : Type} (step : relation A) (m : A -> nat) (inv : A -> Prop).
Hypothesis inv_step : forall a a', inv a -> step a a' -> inv a'.
Hypothesis decrease : forall a a', inv a -> step a a' -> m a' < m a.

(** An execution of [n] steps consumes at least [n] of the measure. *)
Lemma nsteps_measure n a a' : inv a -> nsteps step n a a' -> n + m a' <= m a.
Proof using inv_step decrease.
  intros Hinv Hn. induction Hn as [a|n a1 a2 a3 Hs _ IH]; [lia|].
  specialize (decrease a1 a2 Hinv Hs). specialize (IH (inv_step a1 a2 Hinv Hs)). lia.
Qed.
End measure.
