(* ===== verification/HappensBefore.v ===== *)
(** * [HappensBefore]: Go's happens-before order for [sync.RWMutex]

    Vector clocks, as Go's race detector keeps them: a goroutine's clock
    maps each goroutine to the number of its releases it has synchronised
    with.  An access happens before another when its clock is below the
    other's.  [MClock] is what a [sync.RWMutex] passes on, by the rules of
    the Go memory model: the [n]th [Unlock] is synchronised before the
    return of every [RLock] and of the [(n+1)]th [Lock]; every [RUnlock]
    of a read lock taken after the [n]th [Unlock] is synchronised before
    the [(n+1)]th [Lock].  A goroutine's own component grows after each
    release, so that its later accesses are not below the released clock
    of the others. *)

From S2P Require Import Prelude.
From stdpp Require Import gmap.

Module VClock.
Abbreviation t := (gmap nat nat) (only parsing).

Definition get (i : nat) (v : t) : nat := default 0 (v !! i).

Definition le (v w : t) : Prop := forall i, get i v <= get i w.

#[global] Instance le_PreOrder : PreOrder le.
Proof. split; [intros v i; lia|intros u v w H1 H2 i; specialize (H1 i); specialize (H2 i); lia]. Qed.

(** The executable test: every entry of [v] is below [w]'s. *)
Definition leb (v w : t) : bool := bool_decide (map_Forall (fun i n => n <= get i w) v).

Lemma leb_spec v w : leb v w = true <-> le v w.
Proof.
  unfold leb. rewrite bool_decide_eq_true. split.
  - intros H i. unfold get at 1. destruct (v !! i) as [n|] eqn:Hv; simpl; [|lia].
    exact (H i n Hv).
  - intros H i n Hv. specialize (H i). unfold get at 1 in H. by rewrite Hv in H.
Qed.

Definition bot : t := ∅.

Lemma bot_spec v : le bot v.
Proof. intros i. unfold get at 1, bot. rewrite lookup_empty. simpl. lia. Qed.

Definition join (v w : t) : t := union_with (fun a b => Some (a `max` b)) v w.

Lemma get_join i v w : get i (join v w) = get i v `max` get i w.
Proof.
  unfold get, join. rewrite lookup_union_with.
  destruct (v !! i), (w !! i); simpl; lia.
Qed.

Lemma join_l v w : le v (join v w).
Proof. intros i. rewrite get_join. lia. Qed.

Lemma join_r v w : le w (join v w).
Proof. intros i. rewrite get_join. lia. Qed.

Lemma join_spec v w o : le v o -> le w o -> le (join v w) o.
Proof. intros H1 H2 i. rewrite get_join. specialize (H1 i). specialize (H2 i). lia. Qed.

(** Goroutine [i]'s first clock. *)
Definition init (i : nat) : t := {[i := 1]}.

Lemma get_init i j : get j (init i) = if decide (i = j) then 1 else 0.
Proof.
  unfold get, init. case_decide as H; [subst; by rewrite lookup_singleton_eq|].
  by rewrite lookup_singleton_ne.
Qed.

(** Goroutine [i] after a release. *)
Definition tick (i : nat) (v : t) : t := <[i := S (get i v)]> v.

Lemma get_tick i j v : get j (tick i v) = if decide (i = j) then S (get i v) else get j v.
Proof.
  unfold tick. case_decide as H; [subst; unfold get at 1; by rewrite lookup_insert_eq|].
  unfold get at 1. by rewrite lookup_insert_ne.
Qed.

Lemma tick_le i v : le v (tick i v).
Proof. intros j. rewrite get_tick. case_decide; subst; lia. Qed.
End VClock.

#[export] Hint Resolve VClock.join_l VClock.join_r VClock.bot_spec VClock.tick_le : jsoninfo.

(** What a [sync.RWMutex] has released: the clock of its last [Unlock],
    and the join of the [RUnlock]s since. *)
Record MClock := mkMClock {
  mw : VClock.t;
  mr : VClock.t
}.

Definition MClock_zero : MClock := mkMClock VClock.bot VClock.bot.

(** The clock of a goroutine [C] once its call returns. *)
Definition lock_acq (m : MClock) (C : VClock.t) : VClock.t :=
  VClock.join (VClock.join C (mw m)) (mr m).
Definition rlock_acq (m : MClock) (C : VClock.t) : VClock.t := VClock.join C (mw m).

(** The mutex after the release by a goroutine of clock [C]. *)
Definition unlock_rel (m : MClock) (C : VClock.t) : MClock := mkMClock C VClock.bot.
Definition runlock_rel (m : MClock) (C : VClock.t) : MClock :=
  mkMClock (mw m) (VClock.join (mr m) C).

(** All a mutex has released, which the next [Lock] acquires. *)
Definition released (m : MClock) : VClock.t := VClock.join (mw m) (mr m).

Lemma lock_acq_released m C : VClock.le (released m) (lock_acq m C).
Proof.
  unfold released, lock_acq. apply VClock.join_spec; [|apply VClock.join_r].
  etrans; [apply (VClock.join_r C)|apply VClock.join_l].
Qed.

Lemma lock_acq_le m C : VClock.le C (lock_acq m C).
Proof. unfold lock_acq. etrans; apply VClock.join_l. Qed.

Lemma rlock_acq_mw m C : VClock.le (mw m) (rlock_acq m C).
Proof. apply VClock.join_r. Qed.

Lemma rlock_acq_le m C : VClock.le C (rlock_acq m C).
Proof. apply VClock.join_l. Qed.

Lemma mw_released m : VClock.le (mw m) (released m).
Proof. apply VClock.join_l. Qed.

Lemma unlock_rel_released m C : VClock.le (released (unlock_rel m C)) C.
Proof. unfold released; simpl. apply VClock.join_spec; [reflexivity|apply VClock.bot_spec]. Qed.

Lemma runlock_rel_released m C :
  VClock.le (released m) (released (runlock_rel m C)) /\ VClock.le C (released (runlock_rel m C)).
Proof.
  unfold released; simpl. split.
  - apply VClock.join_spec; [apply VClock.join_l|].
    etrans; [apply (VClock.join_l (mr m) C)|apply VClock.join_r].
  - etrans; [apply (VClock.join_r (mr m) C)|apply VClock.join_r].
Qed.
