(* ===== verification/GoReflect.v ===== *)
(** * [GoReflect]: the part of Go's [reflect] package that [type_info.go] uses

    A runtime type ([reflect.Type]) is an identifier into a type universe
    that maps each identifier to its descriptor: its [Kind], the element type
    of pointer-like kinds ([t.Elem()]) and the fields of a struct.  Named
    types may refer to themselves, so the pointer graph may have cycles
    ([type P *P] is legal Go).  The file holds the pointer-stripping loop of
    [GetTypeInfo] (type_info.go lines 31-33) with its termination theory, and
    [reflect.TypeOf] on [interface{}] values. *)

From S2P Require Import Prelude.
From stdpp Require Import gmap.

Module Reflect.

(** [reflect.Kind], constructor for constructor. *)
Inductive Kind :=
| Invalid | Bool | Int | Int8 | Int16 | Int32 | Int64
| Uint | Uint8 | Uint16 | Uint32 | Uint64 | Uintptr
| Float32 | Float64 | Complex64 | Complex128
| Array | Chan | Func | Interface | Map | Ptr | Slice | String | Struct
| UnsafePointer.

#[global] Instance Kind_eq_dec : EqDecision Kind.
Proof. solve_decision. Defined.

End Reflect.

(** The identity of a runtime type: Go compares [reflect.Type] values by
    identity, and the registry uses them as map keys. *)
Abbreviation type_id := N.

(** [reflect.StructField], restricted to what field enumeration reads: the Go
    name, the field type, the JSON name parsed from its tag (if any), and
    whether the field is embedded. *)
Record StructField := mkStructField {
  SFName : string;
  SFType : type_id;
  SFJSONTag : option string;
  SFAnonymous : bool
}.

(** A type descriptor: kind, element type (meaningful for [Array], [Chan],
    [Map], [Ptr], [Slice]) and struct fields (meaningful for [Struct]). *)
Record rtype := mkRtype {
  rkind : Reflect.Kind;
  relem : type_id;
  rfields : list StructField
}.

(** The type universe of a program: every [reflect.Type] it can observe. *)
Abbreviation universe := (gmap type_id rtype).

(** An [interface{}] value: nil, or a dynamic type with a payload. *)
Inductive GoValue :=
| VNil
| VIface (t : type_id) (payload : N).

#[export] Instance GoValue_eq_dec : EqDecision GoValue.
Proof. solve_decision. Defined.

(** [reflect.TypeOf]: the dynamic type, or the nil [reflect.Type]. *)
Definition TypeOf (v : GoValue) : option type_id :=
  match v with
  | VNil => None
  | VIface t _ => Some t
  end.

Section reflect_ops.
Context (u : universe).

(** [t.Kind()]; identifiers outside the universe have the zero kind. *)
Definition KindOf (t : type_id) : Reflect.Kind :=
  match u !! t with Some r => rkind r | None => Reflect.Invalid end.

(** [t.Elem()], read only on pointer types by the code. *)
Definition Elem (t : type_id) : type_id :=
  match u !! t with Some r => relem r | None => t end.

(** [t.NumField()] / [t.Field(i)] as the list of fields. *)
Definition StructFields (t : type_id) : list StructField :=
  match u !! t with Some r => rfields r | None => [] end.

(** Lines 31-33: [for t.Kind() == reflect.Ptr { t = t.Elem() }], one
    iteration per unit of fuel; [None] when the fuel runs out. *)
Fixpoint deref (fuel : nat) (t : type_id) : option type_id :=
  match fuel with
  | O => None
  | S fuel' =>
      if decide (KindOf t = Reflect.Ptr) then deref fuel' (Elem t)
      else Some t
  end.

(** The [k]-th type of the pointer chain starting at [t]. *)
Definition chain (k : nat) (t : type_id) : type_id := Nat.iter k Elem t.

(** A pointer cycle through [t]: [t] is a pointer and following [Elem]
    from it comes back to it. *)
Definition ptr_cycle (t : type_id) : Prop :=
  exists p, 0 < p /\ chain p t = t /\
    forall k, k < p -> KindOf (chain k t) = Reflect.Ptr.
End reflect_ops.

(** ** Theory of the pointer-stripping loop *)

Section deref_theory.
Context (u : universe).

Lemma chain_S k t : chain u (S k) t = chain u k (Elem u t).
Proof. unfold chain. by rewrite <- Nat.iter_succ_r. Qed.

Lemma chain_add a b t : chain u (a + b) t = chain u a (chain u b t).
Proof. unfold chain. apply Nat.iter_add. Qed.

(** The loop runs out of fuel [n] exactly when the first [n] types of the
    pointer chain are all pointers. *)
Lemma deref_None_iff n t :
  deref u n t = None <-> forall k, k < n -> KindOf u (chain u k t) = Reflect.Ptr.
Proof.
  revert t; induction n as [|n IH]; intros t; simpl; [split; [lia|done]|].
  case_decide as Hk.
  - rewrite IH. split.
    + intros H [|k] ?; [done|]. rewrite chain_S. apply H. lia.
    + intros H k ?. rewrite <- chain_S. apply H. lia.
  - split; [done|]. intros H. destruct Hk. apply (H 0). lia.
Qed.

(** When the loop stops, it stops at the first non-pointer of the chain. *)
Lemma deref_Some_iff n t r :
  deref u n t = Some r <->
  exists k, k < n /\ r = chain u k t /\ KindOf u r <> Reflect.Ptr /\
    forall j, j < k -> KindOf u (chain u j t) = Reflect.Ptr.
Proof.
  revert t; induction n as [|n IH]; intros t; simpl.
  { split; [done|]. intros (k & ? & _). lia. }
  case_decide as Hk.
  - rewrite IH. split.
    + intros (k & ? & -> & Hr & Hj). exists (S k). rewrite chain_S.
      split_and!; [lia|done|done|]. intros [|j] ?; [done|].
      rewrite chain_S. apply Hj. lia.
    + intros ([|k] & ? & -> & Hr & Hj); [done|].
      exists k. rewrite <- chain_S. split_and!; [lia|done|done|].
      intros j ?. rewrite <- chain_S. apply (Hj (S j)). lia.
  - split.
    + intros [= <-]. exists 0. split_and!; [lia|done|done|lia].
    + intros ([|k] & ? & -> & Hr & Hj); [done|].
      destruct Hk. apply (Hj 0). lia.
Qed.

(** the type the loop returns is never a pointer type, so the registry
    is only ever keyed by fully dereferenced types. *)
Theorem deref_not_ptr n t r :
  deref u n t = Some r -> KindOf u r <> Reflect.Ptr.
Proof. rewrite deref_Some_iff. naive_solver. Qed.

(** More fuel never changes a result. *)
Lemma deref_mono n m t r :
  deref u n t = Some r -> n <= m -> deref u m t = Some r.
Proof.
  rewrite !deref_Some_iff. intros (k & ? & ?) ?. exists k. naive_solver lia.
Qed.

(** A pointer type and its element normalise to the same type. *)
(** The loop has one result, whatever fuel is enough. *)
Lemma deref_det n m t r1 r2 : deref u n t = Some r1 -> deref u m t = Some r2 -> r1 = r2.
Proof.
  intros H1 H2. apply (deref_mono n (n `max` m)) in H1; [|lia].
  apply (deref_mono m (n `max` m)) in H2; [|lia]. congruence.
Qed.

Lemma deref_Elem n t :
  KindOf u t = Reflect.Ptr -> deref u (S n) t = deref u n (Elem u t).
Proof. intros Hk. simpl. by rewrite decide_True. Qed.

(** A normalised type is a fixpoint of the loop. *)
Lemma deref_fixpoint n t r :
  deref u n t = Some r -> forall m, deref u (S m) r = Some r.
Proof.
  intros H m. simpl. rewrite decide_False; [done|]. by eapply deref_not_ptr.
Qed.

(** On a pointer cycle ([type P *P] and its longer variants) the loop never
    stops, whatever the fuel. *)
Theorem deref_cycle_diverges t :
  ptr_cycle u t -> forall n, deref u n t = None.
Proof.
  intros (p & Hp & Hcyc & Hptr) n. apply deref_None_iff. intros k _.
  rewrite (Nat.div_mod_eq k p), Nat.add_comm, chain_add.
  assert (forall q, chain u (p * q) t = t) as Hq.
  { induction q as [|q IH]; [by rewrite Nat.mul_0_r|].
    by rewrite Nat.mul_succ_r, Nat.add_comm, chain_add, IH. }
  rewrite Hq. apply Hptr, Nat.mod_upper_bound. lia.
Qed.
End deref_theory.

Section deref_bound.
Context (u : universe).

(** Once the pointer chain revisits a type, it repeats with that period. *)
Lemma chain_periodic i j t :
  i < j -> chain u i t = chain u j t ->
  forall k, i <= k -> chain u (k + (j - i)) t = chain u k t.
Proof.
  intros Hij Heq k Hk.
  replace (k + (j - i)) with ((k - i) + j) by lia.
  rewrite chain_add, <- Heq, <- chain_add. f_equal. lia.
Qed.

(** The first [size u + 1] types of an all-pointer chain are in the
    universe, so two of them coincide (pigeonhole). *)
Lemma chain_repeats t :
  (forall k, k < S (size u) -> KindOf u (chain u k t) = Reflect.Ptr) ->
  exists i j, i < j < S (size u) /\ chain u i t = chain u j t.
Proof.
  intros Hall.
  destruct (NoDup_or_repeat ((fun k => chain u k t) <$> seq 0 (S (size u))))
    as [Hnd | (i & j & x & Hij & Hi & Hj)].
  - exfalso. apply (NoDup_length_le_size _ (dom u)) in Hnd.
    + rewrite length_fmap, length_seq, size_dom in Hnd. lia.
    + intros x Hx. apply list_elem_of_fmap in Hx as (k & -> & Hk).
      apply elem_of_seq in Hk. apply elem_of_dom.
      specialize (Hall k ltac:(lia)). unfold KindOf in Hall.
      destruct (u !! _); [done|discriminate].
  - apply list_lookup_fmap_Some in Hi as (i' & -> & Hi).
    apply list_lookup_fmap_Some in Hj as (j' & Hx & Hj).
    apply lookup_seq in Hi as [-> ?], Hj as [-> ?].
    exists i, j. split; [lia|done].
Qed.

(** fuel [size u + 1] decides the loop: if it runs out with that fuel,
    it runs out with every fuel, so [GetTypeInfo] does not return. *)
Theorem deref_fuel_bound t :
  deref u (S (size u)) t = None -> forall n, deref u n t = None.
Proof.
  rewrite deref_None_iff. intros Hall n. apply deref_None_iff. intros k _.
  destruct (chain_repeats t Hall) as (i & j & Hij & Heq).
  induction k as [k IH] using (well_founded_induction lt_wf).
  destruct (decide (k < S (size u))) as [|Hk]; [by apply Hall|].
  rewrite <- (Nat.sub_add (j - i) k), chain_periodic by lia.
  apply IH. lia.
Qed.
End deref_bound.

(** ** The number of iterations of the loop

    [ptr_steps u fuel t] counts the iterations of lines 31-33 from [t]
    within [fuel]; it is the termination measure of a goroutine in that
    loop. *)

Section ptr_steps.
Context (u : universe).

Fixpoint ptr_steps (fuel : nat) (t : type_id) : nat :=
  match fuel with
  | O => 0
  | S f => if decide (KindOf u t = Reflect.Ptr) then S (ptr_steps f (Elem u t)) else 0
  end.

(** Once the loop has stopped within [n], more fuel counts the same. *)
Lemma ptr_steps_stable n m t r :
  deref u n t = Some r -> n <= m -> ptr_steps m t = ptr_steps n t.
Proof.
  revert m t; induction n as [|n IH]; intros m t Hd Hle; [done|].
  destruct m as [|m]; [lia|]. cbn [ptr_steps].
  destruct (decide (KindOf u t = Reflect.Ptr)) as [Hk|Hk]; [|done].
  rewrite deref_Elem in Hd by done.
  f_equal. apply (IH m _ Hd). lia.
Qed.

(** An iteration of a terminating loop lowers the count. *)
Lemma ptr_steps_Elem n t r :
  deref u n t = Some r -> KindOf u t = Reflect.Ptr -> ptr_steps n (Elem u t) < ptr_steps n t.
Proof.
  destruct n as [|n]; [by intros ?|]. intros Hd Hk. rewrite deref_Elem in Hd by done.
  assert (ptr_steps (S n) t = S (ptr_steps n (Elem u t))) as ->
    by (simpl; by rewrite decide_True).
  rewrite (ptr_steps_stable n (S n) _ r Hd) by lia. lia.
Qed.
End ptr_steps.

(** ** An example program

    The types of
<<
    type Inner struct { X int `json:"x"` }
    type Outer struct { Inner; X string `json:"x"`; Name string }
    type P *P
>>
    with [int] = 1, [string] = 2, [Inner] = 10, [Outer] = 11,
    [*Outer] = 12, [**Outer] = 13 and [P] = 20. *)
Definition example_universe : universe :=
  list_to_map [
    (1%N, mkRtype Reflect.Int 0 []);
    (2%N, mkRtype Reflect.String 0 []);
    (10%N, mkRtype Reflect.Struct 0 [mkStructField "X" 1 (Some "x") false]);
    (11%N, mkRtype Reflect.Struct 0
       [mkStructField "Inner" 10 None true;
        mkStructField "X" 2 (Some "x") false;
        mkStructField "Name" 2 None false]);
    (12%N, mkRtype Reflect.Ptr 11 []);
    (13%N, mkRtype Reflect.Ptr 12 []);
    (20%N, mkRtype Reflect.Ptr 20 [])].

(** [**Outer] normalises to [Outer], a non-pointer. *)
Lemma deref_not_ptr_witness :
  deref example_universe 3 13 = Some 11%N /\ KindOf example_universe 11 <> Reflect.Ptr.
Proof.
  split; [reflexivity|]. apply (deref_not_ptr example_universe 3 13 11). reflexivity.
Defined.

(** [type P *P] is a pointer cycle of period one. *)
Lemma P_cycle : ptr_cycle example_universe 20.
Proof. exists 1. split_and!; [lia|reflexivity|]. intros [|k] Hk; [reflexivity|lia]. Qed.

Lemma deref_cycle_diverges_witness : deref example_universe 1000 20 = None.
Proof. apply (deref_cycle_diverges example_universe 20). exact P_cycle. Defined.

Lemma deref_fuel_bound_witness :
  deref example_universe (S (size example_universe)) 20 = None /\
  deref example_universe 5000 20 = None.
Proof.
  split; [vm_compute; reflexivity|].
  apply (deref_fuel_bound example_universe 20). vm_compute. reflexivity.
Defined.
