(* ===== verification/FieldInfo.v ===== *)
(** * [FieldInfo]: fields, their order, the sort and the name view

    [FieldInfo] and [sortableFieldInfos] are declared in another file of the
    [jsoninfo] package; they are modelled from the specification (section
    4.2): a field has a wire name and a structural locator (its index path
    through embedded structs), and the sort order is the wire name first,
    then the locator (declaration order, depth first).  The call
    [sort.Sort(sortableFieldInfos(typeInfo.Fields))] (type_info.go line 55)
    is modelled by an insertion sort together with Go's contract for
    [sort.Sort]; [sort_contract_unique] shows that every result meeting the
    contract is the model's result, whatever algorithm Go's library runs.
    [FieldNames] (lines 78-85) is the index-filling loop of the source. *)

From S2P Require Import Prelude GoReflect.
From stdpp Require Import gmap.

(** ** Orders on wire names and locators *)

Section string_order.
Implicit Types s : string.

Lemma string_compare_refl s : String.compare s s = Eq.
Proof.
  pose proof (String.compare_antisym s s) as H.
  destruct (String.compare s s); simpl in *; congruence.
Qed.

Lemma string_ltb_spec s1 s2 :
  String.ltb s1 s2 = true <-> String.leb s1 s2 = true /\ s1 <> s2.
Proof.
  unfold String.ltb, String.leb.
  destruct (String.compare s1 s2) eqn:E.
  - apply String.compare_eq_iff in E. subst. split; [done|]. by intros [_ []].
  - split; [|done]. intros _. split; [done|]. intros ->.
    by rewrite string_compare_refl in E.
  - split; [done|]. by intros [? _].
Qed.

Lemma string_ltb_trans s1 s2 s3 :
  String.ltb s1 s2 = true -> String.ltb s2 s3 = true -> String.ltb s1 s3 = true.
Proof.
  rewrite !string_ltb_spec. intros [H12 Hn12] [H23 Hn23].
  assert (String.le s1 s3) as H13.
  { by trans s2; unfold String.le; apply Is_true_true_2. }
  apply Is_true_true_1 in H13. split; [done|]. intros ->.
  destruct Hn12. apply String.leb_antisym; done.
Qed.

Lemma string_ltb_irrefl s : String.ltb s s = false.
Proof. unfold String.ltb. by rewrite string_compare_refl. Qed.

Lemma string_ltb_total s1 s2 :
  String.ltb s1 s2 = false -> String.ltb s2 s1 = false -> s1 = s2.
Proof.
  unfold String.ltb. rewrite (String.compare_antisym s2 s1).
  destruct (String.compare s1 s2) eqn:E; simpl; try discriminate.
  intros _ _. by apply String.compare_eq_iff.
Qed.
End string_order.

(** Lexicographic order on locators [Index : []int]. *)
Fixpoint index_ltb (a b : list nat) : bool :=
  match a, b with
  | [], [] => false
  | [], _ :: _ => true
  | _ :: _, [] => false
  | x :: a', y :: b' => (x <? y) || ((x =? y) && index_ltb a' b')
  end.

Section index_order.
Lemma index_ltb_irrefl a : index_ltb a a = false.
Proof.
  induction a as [|x a IH]; [done|]. simpl.
  by rewrite Nat.ltb_irrefl, Nat.eqb_refl, IH.
Qed.

Lemma index_ltb_trans a b c :
  index_ltb a b = true -> index_ltb b c = true -> index_ltb a c = true.
Proof.
  revert b c; induction a as [|x a IH]; intros [|y b] [|z c]; simpl; try done.
  rewrite !orb_true_iff, !andb_true_iff, !Nat.ltb_lt, !Nat.eqb_eq.
  intros [?|[-> ?]] [?|[-> ?]]; eauto with lia.
Qed.

Lemma index_ltb_total a b :
  index_ltb a b = false -> index_ltb b a = false -> a = b.
Proof.
  revert b; induction a as [|x a IH]; intros [|y b]; simpl; try done.
  rewrite !orb_false_iff, !andb_false_iff, !Nat.ltb_ge, !Nat.eqb_neq.
  intros [? [?|?]] [? [?|?]]; try lia.
  assert (x = y) as -> by lia. f_equal. auto.
Qed.
End index_order.

(** ** Fields and the [sortableFieldInfos] order *)

(** [FieldInfo]: the structural locator [Index] (positions through embedded
    structs), the wire name [JSONName] and the Go type of the field. *)
Record FieldInfo := mkFieldInfo {
  Index : list nat;
  JSONName : string;
  FieldType : type_id
}.

#[global] Instance FieldInfo_eq_dec : EqDecision FieldInfo.
Proof. solve_decision. Defined.

(** What the order looks at: wire name first, then the locator. *)
Definition sort_key (f : FieldInfo) : string * list nat := (JSONName f, Index f).

(** [sortableFieldInfos.Less]. *)
Definition Less (a b : FieldInfo) : bool :=
  String.ltb (JSONName a) (JSONName b) ||
  (String.eqb (JSONName a) (JSONName b) && index_ltb (Index a) (Index b)).

Section less_order.
Lemma Less_irrefl a : Less a a = false.
Proof.
  unfold Less. by rewrite string_ltb_irrefl, String.eqb_refl, index_ltb_irrefl.
Qed.

Lemma Less_trans a b c : Less a b = true -> Less b c = true -> Less a c = true.
Proof.
  unfold Less. rewrite !orb_true_iff, !andb_true_iff, !String.eqb_eq.
  intros [Hab|[Hab Iab]] [Hbc|[Hbc Ibc]].
  - left. by eapply string_ltb_trans.
  - left. by rewrite <- Hbc.
  - left. by rewrite Hab.
  - right. split; [congruence|]. by eapply index_ltb_trans.
Qed.

(** Two fields neither of which is [Less] than the other have the same
    key: the order is total on keys. *)
Lemma Less_total a b : Less a b = false -> Less b a = false -> sort_key a = sort_key b.
Proof.
  unfold Less, sort_key. rewrite !orb_false_iff, !andb_false_iff.
  intros [Hab Eab] [Hba Eba].
  assert (JSONName a = JSONName b) as Hn by (by apply string_ltb_total).
  rewrite Hn, String.eqb_refl in Eab, Eba. f_equal; [done|].
  destruct Eab, Eba; try discriminate. by apply index_ltb_total.
Qed.

(** [Less] only reads the key. *)
Lemma Less_key_r c a b : sort_key a = sort_key b -> Less c a = Less c b.
Proof. unfold sort_key, Less. by intros [= -> ->]. Qed.

(** Not-less is transitive: [Less] is a strict weak order. *)
Lemma not_Less_trans a b c :
  Less b a = false -> Less c b = false -> Less c a = false.
Proof.
  intros Hba Hcb. destruct (Less c a) eqn:Hca; [|done].
  destruct (Less a b) eqn:Hab.
  - by rewrite (Less_trans c a b Hca Hab) in Hcb.
  - rewrite (Less_key_r c a b (Less_total a b Hab Hba)) in Hca. congruence.
Qed.
End less_order.

(** ** The sort of line 55 *)

(** Go's [sort.Sort] contract on [data = sortableFieldInfos(fields)]: the
    result is a permutation of the input in which no element is [Less] than
    an element before it. *)
Definition sort_contract (input output : list FieldInfo) : Prop :=
  output ≡ₚ input /\ StronglySorted (fun a b => Less b a = false) output.

(** The executable sort: insertion sort (the algorithm [sort.Sort] itself
    runs on slices of up to twelve elements). *)
Fixpoint insert_field (x : FieldInfo) (l : list FieldInfo) : list FieldInfo :=
  match l with
  | [] => [x]
  | y :: l' => if Less x y then x :: y :: l' else y :: insert_field x l'
  end.

Fixpoint sort_fields (l : list FieldInfo) : list FieldInfo :=
  match l with
  | [] => []
  | x :: l' => insert_field x (sort_fields l')
  end.

Section sort_theory.
(** The order of the contract: [a] may precede [b]. *)
Local Abbreviation R := (fun a b : FieldInfo => Less b a = false).

Lemma insert_field_perm x l : insert_field x l ≡ₚ x :: l.
Proof.
  induction l as [|y l IH]; simpl; [done|].
  destruct (Less x y); [done|]. rewrite IH. apply perm_swap.
Qed.

Lemma sort_fields_perm l : sort_fields l ≡ₚ l.
Proof.
  induction l as [|x l IH]; simpl; [done|]. by rewrite insert_field_perm, IH.
Qed.

Lemma Less_asym a b : Less a b = true -> Less b a = false.
Proof.
  intros Hab. destruct (Less b a) eqn:Hba; [|done].
  pose proof (Less_trans a b a Hab Hba) as Haa. by rewrite Less_irrefl in Haa.
Qed.

Lemma insert_field_sorted x l :
  StronglySorted R l -> StronglySorted R (insert_field x l).
Proof.
  induction 1 as [|y l Hl IH Hy]; simpl; [by repeat constructor|].
  destruct (Less x y) eqn:Hxy.
  - constructor; [by constructor|]. constructor; [by apply Less_asym|].
    eapply Forall_impl; [exact Hy|]. intros z Hz. simpl in *.
    by eapply not_Less_trans; [apply Less_asym|].
  - constructor; [done|]. rewrite insert_field_perm. by constructor.
Qed.

(** the model's sort meets Go's [sort.Sort] contract. *)
Theorem sort_fields_contract l : sort_contract l (sort_fields l).
Proof.
  split; [apply sort_fields_perm|].
  induction l; simpl; [constructor|]. by apply insert_field_sorted.
Qed.

(** when locators are unique, every output meeting the contract of
    [sort.Sort] is the model's output: the order of [Fields] does not
    depend on the algorithm, so it is the same in every run. *)
Theorem sort_contract_unique l out :
  NoDup (sort_key <$> l) -> sort_contract l out -> out = sort_fields l.
Proof.
  intros Hnd [Hperm Hsorted].
  destruct (sort_fields_contract l) as [Hperm' Hsorted'].
  apply (StronglySorted_unique_on R sort_key); auto.
  - intros x y Hyx Hxy. by apply Less_total.
  - by rewrite Hperm.
  - by rewrite Hperm, Hperm'.
Qed.
End sort_theory.

(** ** [FieldNames] (lines 78-85) *)

(** The loop of lines 81-83, [names[i] = field.JSONName] for each [i]. *)
Fixpoint fill_names (i : nat) (fields : list FieldInfo) (names : list string)
    : list string :=
  match fields with
  | [] => names
  | field :: rest => fill_names (S i) rest (<[i := JSONName field]> names)
  end.

(** [names := make([]string, len(fields))] followed by the loop. *)
Definition FieldNames (Fields : list FieldInfo) : list string :=
  fill_names 0 Fields (replicate (length Fields) "").

Lemma fill_names_spec i fields names :
  length names = i + length fields ->
  fill_names i fields names = take i names ++ (JSONName <$> fields).
Proof.
  revert i names; induction fields as [|f fields IH]; intros i names Hlen; simpl.
  - rewrite take_ge by (simpl in Hlen; lia). by rewrite app_nil_r.
  - simpl in Hlen. rewrite IH by (rewrite length_insert; lia).
    rewrite (take_S_r _ _ (JSONName f)) by (apply list_lookup_insert_eq; lia).
    rewrite take_insert, decide_False by lia. by rewrite <- app_assoc.
Qed.

(** C12: [FieldNames] returns the wire names in the order of [Fields], one per
    field, duplicates included. *)
Theorem FieldNames_spec (Fields : list FieldInfo) :
  FieldNames Fields = JSONName <$> Fields.
Proof.
  unfold FieldNames. rewrite fill_names_spec by (by rewrite length_replicate).
  done.
Qed.

(** ** Witnesses on the fields of [Outer] *)

Definition example_fields : list FieldInfo :=
  [mkFieldInfo [1] "x" 2; mkFieldInfo [2] "Name" 2; mkFieldInfo [0; 0] "x" 1].

Definition example_sorted : list FieldInfo :=
  [mkFieldInfo [2] "Name" 2; mkFieldInfo [0; 0] "x" 1; mkFieldInfo [1] "x" 2].

(** Any sort meeting the contract puts [Outer]'s fields in the order
    [Name], [Inner.X], [X]. *)
Lemma sort_contract_unique_witness :
  example_sorted = sort_fields example_fields.
Proof.
  apply sort_contract_unique.
  - by apply NoDup_ListNoDup; vm_compute; repeat constructor; intros ?; simpl in *; naive_solver.
  - split; [unfold example_sorted, example_fields; solve_Permutation|].
    repeat constructor.
Defined.
