(* ===== verification/FieldEnum.v ===== *)
(** * [FieldEnum]: the field enumerator [AppendFields]

    [GetTypeInfo] computes the fields of a struct type with
    [AppendFields(nil, nil, t)] (type_info.go line 52), a function declared
    in another file of the package.  Following the specification (sections
    4.2 and 6), it is an external collaborator: it takes an accumulator, the
    locator of the parent and a type, and returns the accumulator extended
    with the fields of the type, embedded structs flattened in place.

    The class [FieldEnumerator] states what the registry relies on: the
    accumulator is only extended, and the locators it produces are
    pairwise distinct.  [flatten_fields] is an instance built from the
    specification's description, with a depth bound as its cycle guard. *)

From S2P Require Import Prelude GoReflect FieldInfo.
From stdpp Require Import gmap.

Class FieldEnumerator (u : universe) := {
  AppendFields : list FieldInfo -> list nat -> type_id -> list FieldInfo;
  (** The result extends the accumulator with a part independent of it. *)
  AppendFields_acc acc parent t :
    AppendFields acc parent t = acc ++ AppendFields [] parent t;
  (** Each produced field has a locator of its own. *)
  AppendFields_locators parent t :
    NoDup (Index <$> AppendFields [] parent t)
}.
Arguments AppendFields {_ _} _ _ _.

(** Distinct locators give distinct sort keys. *)
Lemma NoDup_sort_key (l : list FieldInfo) :
  NoDup (Index <$> l) -> NoDup (sort_key <$> l).
Proof.
  intros Hnd. apply (NoDup_fmap_1 snd). by rewrite <- list_fmap_compose.
Qed.

Section flatten.
Context (u : universe).

(** The wire name: the name given by the JSON tag, else the Go name. *)
Definition field_json_name (sf : StructField) : string :=
  default (SFName sf) (SFJSONTag sf).

(** Embedded struct members are flattened into the parent. *)
Definition embeds_struct (sf : StructField) : bool :=
  SFAnonymous sf && bool_decide (KindOf u (SFType sf) = Reflect.Struct).

(** One step of the loop over [t.Field(i)]. *)
Definition append_field (rec : list FieldInfo -> list nat -> type_id -> list FieldInfo)
    (parent : list nat) (acc : list FieldInfo) (item : nat * StructField)
    : list FieldInfo :=
  let '(i, sf) := item in
  if embeds_struct sf then rec acc (parent ++ [i]) (SFType sf)
  else acc ++ [mkFieldInfo (parent ++ [i]) (field_json_name sf) (SFType sf)].

(** The fields of [t] in declaration order, at most [depth] levels of
    embedding deep. *)
Fixpoint flatten_fields (depth : nat) (acc : list FieldInfo) (parent : list nat)
    (t : type_id) : list FieldInfo :=
  match depth with
  | O => acc
  | S d =>
      let fs := StructFields u t in
      foldl (append_field (flatten_fields d) parent) acc
        (zip (seq 0 (length fs)) fs)
  end.
End flatten.

Section flatten_theory.
Context (u : universe).

Lemma append_field_acc d parent acc item :
  (forall acc p t, flatten_fields u d acc p t = acc ++ flatten_fields u d [] p t) ->
  append_field u (flatten_fields u d) parent acc item =
  acc ++ append_field u (flatten_fields u d) parent [] item.
Proof.
  intros IH. destruct item as [i sf]; simpl.
  destruct (embeds_struct u sf); [apply IH|done].
Qed.

Lemma flatten_fields_acc d acc parent t :
  flatten_fields u d acc parent t = acc ++ flatten_fields u d [] parent t.
Proof.
  revert acc parent t; induction d as [|d IH]; intros acc parent t; simpl.
  - by rewrite app_nil_r.
  - rewrite !(foldl_append_acc _ _ _ (fun acc' x => append_field_acc d parent acc' x IH)).
    done.
Qed.

(** The fields of one struct member, as a block of the result. *)
Lemma flatten_fields_S d parent t :
  flatten_fields u (S d) [] parent t =
  mjoin (append_field u (flatten_fields u d) parent [] <$>
           zip (seq 0 (length (StructFields u t))) (StructFields u t)).
Proof.
  simpl. rewrite (foldl_append_acc _ _ _ (fun acc' x => append_field_acc d parent acc' x (flatten_fields_acc d))).
  done.
Qed.

(** The locators of a member's block extend the parent by the member's
    position, provided the recursive enumeration extends its parent. *)
Lemma append_field_prefix d parent it fi :
  (forall p t fi, fi ∈ flatten_fields u d [] p t -> exists i rest, Index fi = p ++ i :: rest) ->
  fi ∈ append_field u (flatten_fields u d) parent [] it ->
  exists rest, Index fi = parent ++ it.1 :: rest.
Proof.
  intros IH. destruct it as [i sf]; simpl. destruct (embeds_struct u sf).
  - intros (j & rest & ->)%IH. exists (j :: rest). by rewrite <- app_assoc.
  - intros ->%list_elem_of_singleton. by exists [].
Qed.

(** Every locator produced under [parent] extends it by a position. *)
Lemma flatten_fields_prefix d parent t fi :
  fi ∈ flatten_fields u d [] parent t ->
  exists i rest, Index fi = parent ++ i :: rest.
Proof.
  revert parent t fi; induction d as [|d IH]; intros parent t fi; [set_solver|].
  rewrite flatten_fields_S. intros (blk & Hfi & Hblk)%list_elem_of_join.
  apply list_elem_of_fmap in Hblk as (it & -> & _).
  apply (append_field_prefix d) in Hfi as [rest ->]; [|done]. eauto.
Qed.

(** Blocks whose locators start with distinct positions concatenate to a
    list with distinct locators. *)
Lemma NoDup_blocks parent (g : nat * StructField -> list FieldInfo) items :
  NoDup (fst <$> items) ->
  (forall it, it ∈ items -> NoDup (Index <$> g it)) ->
  (forall it fi, it ∈ items -> fi ∈ g it -> exists rest, Index fi = parent ++ it.1 :: rest) ->
  NoDup (Index <$> mjoin (g <$> items)).
Proof.
  induction items as [|it items IH]; intros Hnd Hblk Hpre; simpl; [constructor|].
  rewrite fmap_cons in Hnd. apply NoDup_cons in Hnd as [Hnin Hnd].
  rewrite fmap_app. apply NoDup_app. split_and!.
  - apply Hblk. by left.
  - intros x (fi1 & -> & H1)%list_elem_of_fmap (fi2 & Heq & H2)%list_elem_of_fmap.
    apply list_elem_of_join in H2 as (blk & Hfi2 & (it2 & -> & Hit2)%list_elem_of_fmap).
    destruct (Hpre it fi1) as [r1 E1]; [by left|done|].
    destruct (Hpre it2 fi2) as [r2 E2]; [by right|done|].
    rewrite E1, E2 in Heq. apply app_inv_head in Heq as [= Hi _].
    apply Hnin. rewrite Hi. by apply list_elem_of_fmap_2.
  - apply IH; [done| |]; intros; [apply Hblk|apply Hpre]; by try right.
Qed.

(** The enumeration gives every field a locator of its own. *)
Lemma flatten_fields_NoDup d parent t :
  NoDup (Index <$> flatten_fields u d [] parent t).
Proof.
  revert parent t; induction d as [|d IH]; intros parent t; [constructor|].
  rewrite flatten_fields_S. apply NoDup_blocks with parent.
  - rewrite fst_zip by (rewrite length_seq; lia). apply NoDup_seq.
  - intros [i sf] _; simpl. destruct (embeds_struct u sf); [apply IH|].
    repeat constructor. set_solver.
  - intros it fi _. apply append_field_prefix, flatten_fields_prefix.
Qed.
End flatten_theory.

(** ** Locators resolve to the fields they name

    [t.FieldByIndex(index)]: the struct field a locator names, following
    embedded structs; it is what the encoder does with [FieldInfo.Index]. *)
Section locators.
Context (u : universe).

Fixpoint field_at (t : type_id) (path : list nat) : option StructField :=
  match path with
  | [] => None
  | i :: rest =>
      match StructFields u t !! i with
      | None => None
      | Some sf => match rest with [] => Some sf | _ => field_at (SFType sf) rest end
      end
  end.

(** A member of the loop of [flatten_fields] is a field at its position. *)
Lemma elem_of_zip_seq {A} (l : list A) i x : (i, x) ∈ zip (seq 0 (length l)) l -> l !! i = Some x.
Proof.
  intros (j & Hj)%list_elem_of_lookup. apply lookup_zip_with_Some in Hj as (i' & x' & Heq & Hs & Hl).
  injection Heq as -> ->. apply lookup_seq in Hs as [-> _]. done.
Qed.

(** Every field the enumeration produces is typed by its locator.
    Its [Index] extends the parent's locator by a path that resolves,
    through the embedded structs, to a struct field that is not itself an
    embedded struct, whose type is the [FieldType] and whose wire name is
    the [JSONName] recorded. *)
Theorem flatten_fields_typed d parent t fi :
  fi ∈ flatten_fields u d [] parent t ->
  exists rest sf, Index fi = parent ++ rest /\ field_at t rest = Some sf /\
    SFType sf = FieldType fi /\ field_json_name sf = JSONName fi /\ embeds_struct u sf = false.
Proof.
  revert parent t fi; induction d as [|d IH]; intros parent t fi; [set_solver|].
  rewrite flatten_fields_S. intros (blk & Hfi & Hblk)%list_elem_of_join.
  apply list_elem_of_fmap in Hblk as ([i sf] & -> & Hin). apply elem_of_zip_seq in Hin.
  simpl in Hfi. destruct (embeds_struct u sf) eqn:He.
  - destruct (IH _ _ _ Hfi) as (rest & sf' & Hidx & Hat & ? & ? & ?).
    exists (i :: rest), sf'. split_and!; try done.
    + by rewrite Hidx, <- app_assoc.
    + simpl. rewrite Hin. destruct rest; [done|exact Hat].
  - apply list_elem_of_singleton in Hfi as ->. exists [i], sf. simpl. by rewrite Hin.
Qed.
End locators.

(** The flattening enumerator with embedding depth bound [depth]. *)
Definition flatten_enumerator (u : universe) (depth : nat) : FieldEnumerator u := {|
  AppendFields := flatten_fields u depth;
  AppendFields_acc := flatten_fields_acc u depth;
  AppendFields_locators := flatten_fields_NoDup u depth
|}.

(** The enumerator of the example program: embedding at most three deep. *)
#[export] Instance example_enumerator : FieldEnumerator example_universe :=
  flatten_enumerator example_universe 3.

(** [Outer]'s fields in declaration order, [Inner.X] flattened in place. *)
Lemma flatten_Outer :
  AppendFields [] [] 11%N =
  [mkFieldInfo [0; 0] "x" 1; mkFieldInfo [1] "x" 2; mkFieldInfo [2] "Name" 2].
Proof. reflexivity. Qed.
