(* ===== verification/TypeInfo.v ===== *)
(** * [TypeInfo]: the shared per-type record and its methods

    Callers of [GetTypeInfo] receive a [*TypeInfo] and share it: the record
    lives in a heap of objects addressed by [loc], and every method takes
    the heap and the receiver.  A receiver that is not allocated stands for
    a nil [*TypeInfo], on which Go panics.  Each method body runs inside
    [mutex], so it is one atomic update of the heap; [Concurrent]
    interleaves them.  The [Schema] slot is a field of the record only: no
    code of type_info.go reads or writes it. *)

From S2P Require Import Prelude GoReflect FieldInfo.
From stdpp Require Import gmap countable.

(** Addresses of heap objects. *)
Record loc := Loc { loc_car : N }.

#[global] Instance loc_eq_dec : EqDecision loc.
Proof. solve_decision. Defined.

#[global] Instance loc_countable : Countable loc.
Proof. by apply (inj_countable' loc_car Loc); intros []. Defined.

(** [*ExtensionInfo]: extensions are opaque and held by reference. *)
Abbreviation ExtensionInfo := N.

(** Lines 15-23, the lock fields aside: the locks are modelled by the
    atomicity of the methods.  [Type] is a keyword of Rocq, hence [Type']. *)
Record TypeInfo := mkTypeInfo {
  MultipleFields : bool;
  Type' : type_id;
  Fields : list FieldInfo;
  extensions : list ExtensionInfo;
  Schema : GoValue
}.

Definition set_extensions (exts : list ExtensionInfo) (ti : TypeInfo) : TypeInfo :=
  mkTypeInfo (MultipleFields ti) (Type' ti) (Fields ti) exts (Schema ti).

(** The heap of [TypeInfo] objects. *)
Abbreviation heap := (gmap loc TypeInfo).

Definition nil_deref {A} : outcome A :=
  Panic "runtime error: invalid memory address or nil pointer dereference".

(** Lines 65-69: [typeInfo.extensions = append(typeInfo.extensions, ext)]
    under [mutex]. *)
Definition AddExtension (h : heap) (p : loc) (ext : ExtensionInfo) : outcome heap :=
  match h !! p with
  | Some ti => Ok (<[p := set_extensions (extensions ti ++ [ext]) ti]> h)
  | None => nil_deref
  end.

(** Lines 71-75: the extensions slice read under [mutex]. *)
Definition Extensions (h : heap) (p : loc) : outcome (list ExtensionInfo) :=
  match h !! p with Some ti => Ok (extensions ti) | None => nil_deref end.

(** Lines 78-85 on a receiver. *)
Definition TypeInfoFieldNames (h : heap) (p : loc) : outcome (list string) :=
  match h !! p with Some ti => Ok (FieldNames (Fields ti)) | None => nil_deref end.

(** ** Theorems on the methods *)

(** [AddExtension] called once per element of [exts], in order, as the
    calls complete one after another under [mutex]. *)
Fixpoint AddExtensions (h : heap) (p : loc) (exts : list ExtensionInfo) : outcome heap :=
  match exts with
  | [] => Ok h
  | e :: rest => outcome_bind (AddExtension h p e) (fun h' => AddExtensions h' p rest)
  end.

Section methods.
Implicit Types (h : heap) (p : loc).

Lemma AddExtension_lookup h p e ti :
  h !! p = Some ti ->
  exists h', AddExtension h p e = Ok h' /\
    h' !! p = Some (set_extensions (extensions ti ++ [e]) ti) /\
    forall q, q <> p -> h' !! q = h !! q.
Proof.
  intros Hp. unfold AddExtension. rewrite Hp. eexists. split; [done|].
  split; [apply lookup_insert_eq|]. intros q Hq. by apply lookup_insert_ne.
Qed.

(** On a live object the methods do not fault. *)
Lemma AddExtension_live h p e : p ∈ dom h -> exists h', AddExtension h p e = Ok h'.
Proof. intros [ti Hp]%elem_of_dom. destruct (AddExtension_lookup h p e ti Hp) as (h' & ? & _). eauto. Qed.

Lemma Extensions_live h p : p ∈ dom h -> exists xs, Extensions h p = Ok xs.
Proof. intros [ti Hp]%elem_of_dom. unfold Extensions. rewrite Hp. eauto. Qed.

(** C13: [N] completed calls of [AddExtension] append their [N] extensions
    in completion order: none is lost and none is duplicated. *)
Theorem AddExtensions_Extensions h p old exts :
  Extensions h p = Ok old ->
  exists h', AddExtensions h p exts = Ok h' /\ Extensions h' p = Ok (old ++ exts).
Proof.
  unfold Extensions. revert h old; induction exts as [|e exts IH]; intros h old Hold.
  - exists h. by rewrite app_nil_r.
  - destruct (h !! p) as [ti|] eqn:Hp; [|done]. injection Hold as <-.
    destruct (AddExtension_lookup h p e ti Hp) as (h1 & Hadd & Hp1 & _).
    destruct (IH h1 (extensions ti ++ [e])) as (h' & Hrun & Hext).
    { by rewrite Hp1. }
    exists h'. simpl. rewrite Hadd. simpl. by rewrite <- app_assoc in Hext.
Qed.

End methods.

(** ** Witnesses on a one-object heap *)

Definition example_ti : TypeInfo := mkTypeInfo false 11 [] [] VNil.
Definition example_heap : heap := {[Loc 0 := example_ti]}.

Lemma AddExtensions_Extensions_witness :
  Extensions example_heap (Loc 0) = Ok [] /\
  exists h', AddExtensions example_heap (Loc 0) [7; 8; 9]%N = Ok h' /\
    Extensions h' (Loc 0) = Ok [7; 8; 9]%N.
Proof.
  split; [reflexivity|]. apply (AddExtensions_Extensions example_heap (Loc 0) []).
  reflexivity.
Defined.
