(* ===== verification/GoSlice.v ===== *)
(** * [GoSlice]: Go slices and [append]

    [TypeInfo.extensions] (line 20) is a Go slice, extended by
    [append(typeInfo.extensions, ext)] (line 68) and returned as is by
    [Extensions] (line 74).  A slice is a header (backing array, length,
    capacity) over an array of the heap; arrays live in a [store].
    [append] follows the Go specification: with spare capacity it writes
    the element into the backing array in place and returns a header over
    the same array; otherwise it allocates a new array of the capacity the
    runtime's [nextslicecap] chooses, copies the elements, and writes the
    new one.  The runtime then rounds the capacity up to an allocator size
    class; every theorem below holds for any growth policy that gives at
    least the needed length ([grow_ge], shown for [nextslicecap] by
    [nextslicecap_ge]), rounding included.

    Theorems: [append] keeps headers well formed and appends to the
    contents; it leaves every other header whose elements it does not
    share unchanged; and two appends to one header with spare capacity
    write the same array cell, so the first result sees the second's
    element, the lemma behind [ExtSlices.Extensions_caller_append]. *)

From S2P Require Import Prelude.
From stdpp Require Import gmap.

(** The header of a slice; [sarr = None] is the nil slice's pointer. *)
Record slice := mkSlice {
  sarr : option N;
  slen : nat;
  scap : nat
}.

#[global] Instance slice_eq_dec : EqDecision slice.
Proof. solve_decision. Defined.

Definition nil_slice : slice := mkSlice None 0 0.

(** The backing arrays and the allocator of the next one. *)
Record store (A : Type) := mkStore {
  arrays : gmap N (list A);
  next_arr : N
}.
Arguments mkStore {A} _ _.
Arguments arrays {A} _.
Arguments next_arr {A} _.

(** The capacity the runtime's [growslice] asks for (Go 1.21
    [runtime.nextslicecap]): double below 256 elements, else grow by a
    quarter plus 192 until the new length fits. *)
Definition grow_step (newcap : nat) : nat := newcap + (newcap + 3 * 256) / 4.
Arguments grow_step : simpl never.

Fixpoint grow_loop (fuel newcap newLen : nat) : nat :=
  match fuel with
  | O => newcap
  | S f =>
      let newcap' := grow_step newcap in
      if decide (newLen <= newcap') then newcap' else grow_loop f newcap' newLen
  end.

Definition nextslicecap (newLen oldCap : nat) : nat :=
  let doublecap := oldCap + oldCap in
  if decide (doublecap < newLen) then newLen
  else if decide (oldCap < 256) then doublecap
  else grow_loop newLen oldCap newLen.

Section slice_ops.
Context {A : Type} (zero : A) (grow : nat -> nat -> nat).

(** The array a header points to ([[]] for the nil slice). *)
Definition backing (st : store A) (s : slice) : list A :=
  match sarr s with Some a => default [] (arrays st !! a) | None => [] end.

(** [s[0:len(s)]]: the elements the slice shows. *)
Definition contents (st : store A) (s : slice) : list A := take (slen s) (backing st s).

(** [append] without spare capacity: a new array of capacity
    [grow (len+1) cap], the old elements, the new one, zero values. *)
Definition append_grow (st : store A) (s : slice) (x : A) : store A * slice :=
  let c := grow (S (slen s)) (scap s) in
  let a := next_arr st in
  (mkStore (<[a := contents st s ++ [x] ++ replicate (c - S (slen s)) zero]> (arrays st)) (N.succ a),
   mkSlice (Some a) (S (slen s)) c).

(** [append(s, x)]. *)
Definition append (st : store A) (s : slice) (x : A) : store A * slice :=
  match sarr s with
  | Some a =>
      if decide (slen s < scap s) then
        (mkStore (<[a := <[slen s := x]> (backing st s)]> (arrays st)) (next_arr st),
         mkSlice (Some a) (S (slen s)) (scap s))
      else append_grow st s x
  | None => append_grow st s x
  end.

(** A header within its array: the array exists and has the capacity. *)
Definition slice_wf (st : store A) (s : slice) : Prop :=
  slen s <= scap s /\
  match sarr s with
  | None => scap s = 0
  | Some a => exists arr, arrays st !! a = Some arr /\ length arr = scap s
  end.

(** Allocated arrays lie below the allocator. *)
Definition store_wf (st : store A) : Prop :=
  forall a, a ∈ dom (arrays st) -> (a < next_arr st)%N.
End slice_ops.

Section slice_theory.
Context {A : Type} (zero : A) (grow : nat -> nat -> nat).
Hypothesis grow_ge : forall n c, c < n -> n <= grow n c.
Implicit Types (st : store A) (s t : slice).

Lemma contents_length st s : slice_wf st s -> length (contents st s) = slen s.
Proof.
  intros [Hle Hb]. unfold contents, backing. destruct (sarr s) as [a|].
  - destruct Hb as (arr & -> & Hl). simpl. rewrite length_take. lia.
  - rewrite take_nil. simpl. lia.
Qed.

(** A well-formed header's array is allocated. *)
Lemma slice_wf_dom st s a : slice_wf st s -> sarr s = Some a -> a ∈ dom (arrays st).
Proof. intros [_ Hb] Ha. rewrite Ha in Hb. destruct Hb as (arr & Harr & _). by eapply elem_of_dom_2. Qed.

(** A header over an array other than [a] does not see writes to [a]. *)
Lemma backing_insert_ne st s a arr nxt :
  sarr s <> Some a -> backing (mkStore (<[a := arr]> (arrays st)) nxt) s = backing st s.
Proof.
  intros Hne. unfold backing; simpl. destruct (sarr s) as [b|]; [|done].
  rewrite lookup_insert_ne; [done|]. congruence.
Qed.

Lemma slice_wf_insert_ne st s a arr nxt :
  sarr s <> Some a -> slice_wf st s -> slice_wf (mkStore (<[a := arr]> (arrays st)) nxt) s.
Proof.
  intros Hne [Hle Hb]. split; [done|]. simpl. destruct (sarr s) as [b|]; [|done].
  rewrite lookup_insert_ne; [done|]. congruence.
Qed.

(** [append] with spare capacity: in place. *)
Lemma append_in_place_spec st s a x :
  slice_wf st s -> store_wf st -> sarr s = Some a -> slen s < scap s ->
  let '(st', s') := append zero grow st s x in
  store_wf st' /\ slice_wf st' s' /\ contents st' s' = contents st s ++ [x] /\
  slen s' = S (slen s) /\ sarr s' = Some a /\
  forall t, slice_wf st t -> (sarr t <> Some a \/ slen t <= slen s) ->
    slice_wf st' t /\ contents st' t = contents st t.
Proof.
  intros Hwf Hst Ha Hlt. pose proof Hwf as [Hle Hb]. rewrite Ha in Hb.
  destruct Hb as (arr & Harr & Hlen).
  unfold append. rewrite Ha, decide_True by done.
  assert (backing st s = arr) as Hback by (unfold backing; by rewrite Ha, Harr).
  rewrite Hback. split_and!.
  - intros b. simpl. rewrite dom_insert_L. intros [->%elem_of_singleton | Hb]%elem_of_union;
      [apply Hst; by eapply elem_of_dom_2|by apply Hst].
  - split; [simpl; lia|]. simpl. exists (<[slen s := x]> arr).
    rewrite lookup_insert_eq, length_insert. done.
  - unfold contents, backing; simpl. rewrite lookup_insert_eq; simpl.
    rewrite (take_S_r _ _ x) by (apply list_lookup_insert_eq; lia).
    rewrite take_insert, decide_False by lia. by rewrite Ha, Harr.
  - done.
  - done.
  - intros t Hwft [Hne | Hle'].
    + split; [by apply slice_wf_insert_ne|]. unfold contents. by rewrite backing_insert_ne.
    + destruct (decide (sarr t = Some a)) as [Hta|Hne];
        [|split; [by apply slice_wf_insert_ne|unfold contents; by rewrite backing_insert_ne]].
      destruct Hwft as [Hlet Hbt]. rewrite Hta in Hbt. destruct Hbt as (arr' & Harr' & Hlen').
      rewrite Harr in Harr'. injection Harr' as <-. split.
      * split; [done|]. rewrite Hta. simpl. exists (<[slen s := x]> arr).
        by rewrite lookup_insert_eq, length_insert.
      * unfold contents, backing; simpl. rewrite Hta, lookup_insert_eq; simpl.
        rewrite take_insert, decide_False by lia. by rewrite Harr.
Qed.
(** The allocator's next array is not under any well-formed header. *)
Lemma slice_wf_fresh st t : slice_wf st t -> store_wf st -> sarr t <> Some (next_arr st).
Proof. intros Hwf Hst Ht. pose proof (Hst _ (slice_wf_dom st t _ Hwf Ht)). lia. Qed.

(** [append] without spare capacity: a fresh array. *)
Lemma append_grow_spec st s x :
  slice_wf st s -> store_wf st -> scap s <= slen s ->
  let '(st', s') := append_grow zero grow st s x in
  store_wf st' /\ slice_wf st' s' /\ contents st' s' = contents st s ++ [x] /\
  slen s' = S (slen s) /\ sarr s' = Some (next_arr st) /\
  forall t, slice_wf st t -> slice_wf st' t /\ contents st' t = contents st t.
Proof using grow_ge.
  intros Hwf Hst Hfull. pose proof (contents_length st s Hwf) as Hcl.
  assert (S (slen s) <= grow (S (slen s)) (scap s)) as Hg by (apply grow_ge; destruct Hwf; lia).
  unfold append_grow. split_and!.
  - intros b. simpl. rewrite dom_insert_L.
    intros [->%elem_of_singleton | Hb]%elem_of_union; [lia|]. apply Hst in Hb. lia.
  - split; [simpl; lia|]. simpl. eexists. rewrite lookup_insert_eq. split; [done|].
    rewrite length_app. simpl. rewrite length_replicate, Hcl. lia.
  - unfold contents at 1, backing; simpl. rewrite lookup_insert_eq; simpl.
    rewrite cons_middle, app_assoc, take_app_length'; [done|]. rewrite length_app, Hcl. simpl. lia.
  - done.
  - done.
  - intros t Hwft. pose proof (slice_wf_fresh st t Hwft Hst) as Hne. split.
    + by apply slice_wf_insert_ne.
    + unfold contents. by rewrite backing_insert_ne.
Qed.

(** [append(s, x)]: the result shows the old elements and [x]; its array
    is the old one or a fresh one; a header sharing the array sees no
    change below the old length. *)
Lemma append_spec st s x :
  slice_wf st s -> store_wf st ->
  let '(st', s') := append zero grow st s x in
  store_wf st' /\ slice_wf st' s' /\ contents st' s' = contents st s ++ [x] /\
  slen s' = S (slen s) /\ (sarr s' = sarr s \/ sarr s' = Some (next_arr st)) /\
  (next_arr st <= next_arr st')%N /\
  forall t, slice_wf st t -> (sarr t <> sarr s \/ slen t <= slen s) ->
    slice_wf st' t /\ contents st' t = contents st t.
Proof using grow_ge.
  intros Hwf Hst. destruct (sarr s) as [a|] eqn:Ha.
  - destruct (decide (slen s < scap s)) as [Hlt|Hfull].
    + pose proof (append_in_place_spec st s a x Hwf Hst Ha Hlt) as Hspec.
      unfold append in *. rewrite Ha, decide_True in * by done.
      destruct Hspec as (? & ? & ? & ? & Ha' & Hfr).
      split_and!; [done|done|done|done|left; by rewrite Ha'|simpl; lia|].
      intros t Ht [Hne|Hle]; apply Hfr; auto.
    + pose proof (append_grow_spec st s x Hwf Hst ltac:(lia)) as Hspec.
      unfold append. rewrite Ha, decide_False by done.
      destruct (append_grow zero grow st s x) as [st' s'] eqn:Hg.
      destruct Hspec as (? & ? & ? & ? & ? & Hfr).
      split_and!; [done|done|done|done|by right| |intros t Ht _; by apply Hfr].
      unfold append_grow in Hg. injection Hg as <- _. simpl. lia.
  - pose proof (append_grow_spec st s x Hwf Hst ltac:(destruct Hwf as [_ Hb]; rewrite Ha in Hb; lia))
      as Hspec.
    unfold append. rewrite Ha.
    destruct (append_grow zero grow st s x) as [st' s'] eqn:Hg.
    destruct Hspec as (? & ? & ? & ? & ? & Hfr).
    split_and!; [done|done|done|done|by right| |intros t Ht _; by apply Hfr].
    unfold append_grow in Hg. injection Hg as <- _. simpl. lia.
Qed.
(** Two well-formed headers over one array have the array's capacity. *)
Lemma slice_wf_same_cap st s t :
  slice_wf st s -> slice_wf st t -> sarr s = sarr t -> scap s = scap t.
Proof.
  intros [_ Hs] [_ Ht] Heq. rewrite <- Heq in Ht. destruct (sarr s) as [a|]; [|lia].
  destruct Hs as (arr & Ha & <-), Ht as (arr' & Ha' & <-). congruence.
Qed.

(** An append through a shorter header over the array of [t] writes a
    cell [t] shows: [t]'s element at the shorter length is replaced. *)
Lemma append_overwrites st s t x :
  slice_wf st s -> slice_wf st t -> sarr s = sarr t -> slen s < slen t ->
  contents (append zero grow st s x).1 t = <[slen s := x]> (contents st t).
Proof.
  intros Hs Ht Heq Hlt. pose proof (slice_wf_same_cap st s t Hs Ht Heq) as Hcap.
  pose proof Ht as [Hle Hb]. destruct (sarr t) as [a|] eqn:Ha; [|lia].
  destruct Hb as (arr & Harr & _).
  unfold append. rewrite Heq, decide_True by lia.
  unfold contents, backing; simpl. rewrite Heq, Ha, lookup_insert_eq, Harr; simpl.
  rewrite take_insert, decide_True by lia. done.
Qed.
End slice_theory.

Section slice_alias.
Context {A : Type} (zero : A) (grow : nat -> nat -> nat).
Hypothesis grow_ge : forall n c, c < n -> n <= grow n c.
Implicit Types (st : store A) (s t : slice).

(** Two appends to one header with spare capacity write the same cell. *)
Lemma append_twice_in_place st s x y :
  slice_wf st s -> slen s < scap s ->
  contents (append zero grow (append zero grow st s x).1 s y).1 (append zero grow st s x).2 =
    contents st s ++ [y].
Proof.
  intros [Hle Hb] Hlt. destruct (sarr s) as [a|] eqn:Ha; [|lia].
  destruct Hb as (arr & Harr & Hlen).
  unfold append. rewrite Ha. destruct (decide (slen s < scap s)); [|lia]. simpl.
  unfold contents, backing; simpl. rewrite Ha, !lookup_insert_eq, Harr; simpl.
  rewrite list_insert_insert, decide_True by done.
  rewrite (take_S_r _ _ y) by (apply list_lookup_insert_eq; lia).
  rewrite take_insert, decide_False by lia. done.
Qed.

(** Without spare capacity, the second append copies to a fresh array. *)
Lemma append_twice_full st s x y :
  slice_wf st s -> store_wf st -> scap s <= slen s ->
  contents (append zero grow (append zero grow st s x).1 s y).1 (append zero grow st s x).2 =
    contents st s ++ [x].
Proof using grow_ge.
  intros Hwf Hst Hfull. pose proof (append_spec zero grow grow_ge st s x Hwf Hst) as Hs1.
  destruct (append zero grow st s x) as [st1 s1] eqn:E1; simpl.
  destruct Hs1 as (Hst1 & Hwf1 & Hc1 & Hl1 & Ha1 & Hn1 & Hfr1).
  destruct (Hfr1 s Hwf (or_intror (reflexivity _))) as [Hwfs Hcs].
  pose proof (append_spec zero grow grow_ge st1 s y Hwfs Hst1) as Hs2.
  destruct (append zero grow st1 s y) as [st2 s2]; simpl.
  destruct Hs2 as (_ & _ & _ & _ & _ & _ & Hfr2).
  rewrite <- Hc1. apply Hfr2; [done|].
  destruct Ha1 as [Ha1|Ha1].
  - (* [s] was full: the first append did not stay in place *)
    exfalso. unfold append in E1. destruct (sarr s) as [a|] eqn:Ha.
    + rewrite decide_False in E1 by lia. unfold append_grow in E1. injection E1 as _ <-.
      simpl in Ha1. apply (slice_wf_fresh st s Hwf Hst). by rewrite Ha, <- Ha1.
    + unfold append_grow in E1. injection E1 as _ <-. done.
  - left. rewrite Ha1. intros Heq. by apply (slice_wf_fresh st s Hwf Hst).
Qed.

(** [append] shares its array with its argument.  A header [s]
    given to two [append] calls, as [Extensions] hands the caller the
    slice [AddExtension] later appends to (lines 68 and 74): when [s]
    has spare capacity both calls write the same cell, and the first
    result then shows the second call's element; without spare capacity
    each call copies, and the first result keeps its own. *)
Theorem append_shared_cell st s x y :
  slice_wf st s -> store_wf st ->
  contents (append zero grow (append zero grow st s x).1 s y).1 (append zero grow st s x).2 =
    contents st s ++ [if decide (slen s < scap s) then y else x].
Proof using grow_ge.
  intros Hwf Hst. case_decide.
  - by apply append_twice_in_place.
  - apply append_twice_full; [done|done|lia].
Qed.
End slice_alias.

(** ** Go's growth policy *)

(** One iteration of the loop adds between 192 and a quarter plus 192. *)
Lemma grow_step_bounds nc : nc + 192 <= grow_step nc /\ 4 * grow_step nc <= 5 * nc + 768.
Proof.
  unfold grow_step.
  assert (192 <= (nc + 3 * 256) / 4) by (apply Nat.div_le_lower_bound; lia).
  assert (4 * ((nc + 3 * 256) / 4) <= nc + 3 * 256) by (apply Nat.Div0.mul_div_le).
  lia.
Qed.

(** [nextslicecap] gives at least the needed length. *)
Lemma grow_loop_ge f nc n : n <= nc + 192 * f -> n <= grow_loop f nc n.
Proof.
  revert nc; induction f as [|f IH]; intros nc Hn; cbn [grow_loop]; [lia|].
  pose proof (grow_step_bounds nc). case_decide; [done|]. apply IH. lia.
Qed.

Lemma nextslicecap_ge n c : c < n -> n <= nextslicecap n c.
Proof.
  intros Hlt. unfold nextslicecap. repeat case_decide; try lia. apply grow_loop_ge. lia.
Qed.
