(* ===== verification/ExtSlices.v ===== *)
(** * [ExtSlices]: [extensions] as a Go slice

    [TypeInfo] keeps its extensions as a list.  In the source the field
    (line 20) is a slice header [[]*ExtensionInfo]: [AddExtension] stores
    [append(typeInfo.extensions, ext)] into it (line 68) and [Extensions]
    returns the header itself (line 74), not a copy.  This file models the
    field as a header over the arrays of a [store] ([XState]), the two
    methods on it ([AddExtensionS], [ExtensionsS]), and relates it to the
    list model by [xrel]: each object's header is well formed, shows the
    object's list, and no two objects share a backing array.

    Theorems: [AddExtension] refines its list version, error paths
    included, and [Extensions] returns the header that [xrel] says shows
    the list, so the theorems on [TypeInfo.AddExtension] and
    [TypeInfo.Extensions] hold of the slice model while only the methods
    touch the arrays; and a caller that appends to the slice [Extensions]
    returned shares a cell with the next [AddExtension] whenever the slice
    has spare capacity: its element is overwritten, unsynchronised.
    [snap_ok] describes a header a caller holds; [AddExtensionS_Ok] shows
    that [AddExtension] keeps it showing what it showed. *)

From S2P Require Import Prelude GoReflect TypeInfo GoSlice.
From stdpp Require Import gmap.

(** The nil [*ExtensionInfo], zero value of the array cells. *)
Definition nil_ext : ExtensionInfo := 0%N.

(** The arrays, and the [extensions] header of each [TypeInfo]. *)
Record XState := mkXState {
  xstore : store ExtensionInfo;
  xfield : gmap loc slice
}.

Section methods.
Context (grow : nat -> nat -> nat).

(** Lines 65-69: [typeInfo.extensions = append(typeInfo.extensions, ext)]. *)
Definition AddExtensionS (x : XState) (p : loc) (e : ExtensionInfo) : outcome XState :=
  match xfield x !! p with
  | None => nil_deref
  | Some s =>
      let '(st', s') := append nil_ext grow (xstore x) s e in
      Ok (mkXState st' (<[p := s']> (xfield x)))
  end.

(** Lines 71-75: [return typeInfo.extensions], the header itself. *)
Definition ExtensionsS (x : XState) (p : loc) : outcome slice :=
  match xfield x !! p with None => nil_deref | Some s => Ok s end.
End methods.

(** The slice model shows the list model. *)
Definition xrel (h : heap) (x : XState) : Prop :=
  store_wf (xstore x) /\
  (forall p, is_Some (h !! p) <-> is_Some (xfield x !! p)) /\
  (forall p ti s, h !! p = Some ti -> xfield x !! p = Some s ->
     slice_wf (xstore x) s /\ contents (xstore x) s = extensions ti) /\
  (forall p q s t a, p <> q -> xfield x !! p = Some s -> xfield x !! q = Some t ->
     sarr s = Some a -> sarr t <> Some a).

(** A header a caller got from [Extensions]: well formed, and no longer
    than any field header over the same array, so no [AddExtension]
    writes a cell it shows. *)
Definition snap_ok (x : XState) (s : slice) : Prop :=
  slice_wf (xstore x) s /\
  forall q f, xfield x !! q = Some f -> sarr s <> sarr f \/ slen s <= slen f.

(** A step from [x] to [x'] leaves every caller's header a caller's
    header, showing what it showed. *)
Definition snap_frame (x x' : XState) : Prop :=
  forall s, snap_ok x s -> snap_ok x' s /\ contents (xstore x') s = contents (xstore x) s.

Section refinement.
Context (grow : nat -> nat -> nat).
Hypothesis grow_ge : forall n c, c < n -> n <= grow n c.

(** Another object's header does not see an append to [s]. *)
Lemma xrel_frame_cond h x p q s t :
  xrel h x -> p <> q -> xfield x !! p = Some s -> xfield x !! q = Some t ->
  slice_wf (xstore x) t -> sarr t <> sarr s \/ slen t <= slen s.
Proof.
  intros (_ & _ & _ & Hdis) Hpq Hs Ht [Hle Hb]. destruct (sarr s) as [a|] eqn:Ha.
  - left. by apply (Hdis p q s t a).
  - destruct (sarr t) as [b|]; [by left|]. right. lia.
Qed.

(** The lookups of the two models agree on which objects exist. *)
Lemma xrel_lookup h x p ti :
  xrel h x -> h !! p = Some ti -> exists s, xfield x !! p = Some s /\
    slice_wf (xstore x) s /\ contents (xstore x) s = extensions ti.
Proof.
  intros Hx Hp. destruct Hx as (_ & Hdom & Hobj & _).
  destruct (proj1 (Hdom p) (mk_is_Some _ _ Hp)) as [s Hs]. exists s. split; [done|]. by eapply Hobj.
Qed.

Lemma xrel_lookup_None h x p : xrel h x -> h !! p = None -> xfield x !! p = None.
Proof.
  intros (_ & Hdom & _) Hp. destruct (xfield x !! p) eqn:Hx; [|done].
  destruct (proj2 (Hdom p) (mk_is_Some _ _ Hx)) as [? Hh]. congruence.
Qed.

(** [AddExtension] on an existing object: the slice model returns, in a
    state related to the list model's, and every caller's header keeps
    its contents and stays clear of the field's writes. *)
Lemma AddExtensionS_Ok h x p e ti :
  xrel h x -> h !! p = Some ti ->
  exists x', AddExtensionS grow x p e = Ok x' /\
    xrel (<[p := set_extensions (extensions ti ++ [e]) ti]> h) x' /\
    snap_frame x x'.
Proof using grow_ge.
  intros Hx Hp. unfold AddExtensionS.
  destruct (xrel_lookup h x p ti Hx Hp) as (s & Hs & Hwf & Hc). rewrite Hs.
  pose proof Hx as (Hst & Hdom & Hobj & Hdis).
  pose proof (append_spec nil_ext grow grow_ge (xstore x) s e Hwf Hst) as Hspec.
  destruct (append nil_ext grow (xstore x) s e) as [st' s'].
  destruct Hspec as (Hst' & Hwf' & Hc' & Hlen' & Ha' & Hnext & Hfr).
  eexists. split; [done|]. split; [split_and!; simpl|].
  - done.
  - intros q. rewrite !lookup_insert. case_decide; [done|apply Hdom].
  - intros q tq t. rewrite !lookup_insert. case_decide as Hq.
    + intros [= <-] [= <-]. simpl. split; [done|by rewrite Hc', Hc].
    + intros Htq Ht. destruct (Hobj q tq t Htq Ht) as [Hwft Hct].
      destruct (Hfr t Hwft) as [Hwft' Hct']; [by eapply xrel_frame_cond|].
      by rewrite Hct'.
  - assert (forall q t a, q <> p -> xfield x !! q = Some t -> sarr s' = Some a -> sarr t <> Some a)
      as Hnew.
    { intros q t a Hqp Ht Ha Hta. destruct Ha' as [Heq|Heq].
      - rewrite Heq in Ha. by apply (Hdis p q s t a).
      - destruct (proj2 (Hdom q) (mk_is_Some _ _ Ht)) as [tq Htq].
        destruct (Hobj q tq t Htq Ht) as [Hwft _].
        eapply slice_wf_fresh; [exact Hwft|exact Hst|congruence]. }
    intros q1 q2 s1 s2 a Hne. rewrite !lookup_insert.
    case_decide as H1; case_decide as H2; subst; try done.
    + intros [= <-] Hs2 Ha. by apply (Hnew q2 s2 a).
    + intros Hs1 [= <-] Ha Ha2. by apply (Hnew q1 s1 a).
    + intros Hs1 Hs2 Ha. exact (Hdis q1 q2 s1 s2 a Hne Hs1 Hs2 Ha).
  - intros t [Hwft Hcond]. destruct (Hfr t Hwft (Hcond p s Hs)) as [Hwft' Hct'].
    split; [split; [done|]|done]. simpl. intros q f. rewrite lookup_insert. case_decide as Hq.
    + intros [= <-]. destruct Ha' as [Heq|Heq]; rewrite Heq.
      * destruct (Hcond p s Hs); [by left|right; lia].
      * left. exact (slice_wf_fresh _ _ Hwft Hst).
    + apply Hcond.
Qed.

(** [Extensions] returns the field header itself: a caller's header. *)
Lemma ExtensionsS_snap h x p s :
  xrel h x -> ExtensionsS x p = Ok s ->
  snap_ok x s /\ exists ti, h !! p = Some ti /\ contents (xstore x) s = extensions ti.
Proof.
  intros Hx. unfold ExtensionsS. destruct (xfield x !! p) as [s0|] eqn:Hs; [|done].
  intros [= <-]. destruct (proj2 (proj1 (proj2 Hx) p) (mk_is_Some _ _ Hs)) as [ti Hp].
  destruct (proj1 (proj2 (proj2 Hx)) p ti s0 Hp Hs) as [Hwf Hc].
  split; [split; [done|]|eauto]. intros q f Hf. destruct (decide (q = p)) as [->|Hne].
  - rewrite Hs in Hf. injection Hf as <-. right. lia.
  - exact (xrel_frame_cond h x q p f s0 Hx Hne Hf Hs Hwf).
Qed.

(** C21: [AddExtension] on the slice refines [AddExtension] on the list.
    On related states both panic with the same message (a nil
    [*TypeInfo]) or both return, in related states: the object's slice
    shows its list with the new extension, and every other object's slice
    is unchanged. *)
Theorem AddExtensionS_refines h x p e :
  xrel h x ->
  match AddExtension h p e, AddExtensionS grow x p e with
  | Ok h', Ok x' => xrel h' x'
  | Panic m, Panic m' => m = m'
  | _, _ => False
  end.
Proof using grow_ge.
  intros Hx. unfold AddExtension. destruct (h !! p) as [ti|] eqn:Hp.
  - by destruct (AddExtensionS_Ok h x p e ti Hx Hp) as (x' & -> & Hx' & _).
  - unfold AddExtensionS. by rewrite (xrel_lookup_None h x p Hx Hp).
Qed.
(** C22: the header [Extensions] returns aliases the field.  A caller
    appends [c] to the slice it got from [p.Extensions()] (line 74); then
    [p.AddExtension(e)] runs (line 68).  When the slice had spare capacity
    both appends write the same cell of the shared array, the caller's
    slice ends with [e] instead of its own [c], and the caller's write
    happened outside [p]'s mutex; without spare capacity the caller's
    append copied and its slice keeps [c]. *)
Theorem Extensions_caller_append h x p s c e :
  xrel h x -> ExtensionsS x p = Ok s ->
  let '(st1, s1) := append nil_ext grow (xstore x) s c in
  match AddExtensionS grow (mkXState st1 (xfield x)) p e with
  | Ok x2 => contents (xstore x2) s1 = contents (xstore x) s ++ [if decide (slen s < scap s) then e else c]
  | _ => False
  end.
Proof using grow_ge.
  intros Hx. unfold ExtensionsS. destruct (xfield x !! p) as [s0|] eqn:Hs; [|done].
  intros [= <-]. destruct (proj2 (proj1 (proj2 Hx) p) (mk_is_Some _ _ Hs)) as [ti Hp].
  destruct (proj1 (proj2 (proj2 Hx)) p ti s0 Hp Hs) as [Hwf _].
  pose proof (append_shared_cell nil_ext grow grow_ge (xstore x) s0 c e Hwf (proj1 Hx)) as Hsh.
  destruct (append nil_ext grow (xstore x) s0 c) as [st1 s1]. simpl in Hsh.
  unfold AddExtensionS; simpl. rewrite Hs.
  destruct (append nil_ext grow st1 s0 e) as [st2 s2]. exact Hsh.
Qed.
End refinement.

(** A registry whose objects have no extensions yet: every [extensions]
    field is the nil slice. *)
Lemma xrel_init h :
  (forall p ti, h !! p = Some ti -> extensions ti = []) ->
  xrel h (mkXState (mkStore ∅ 0) ((fun _ => nil_slice) <$> h)).
Proof.
  intros Hnil. split_and!; simpl.
  - intros a. cbn [arrays]. rewrite dom_empty_L. set_solver.
  - intros p. by rewrite lookup_fmap, fmap_is_Some.
  - intros p ti s Hp. rewrite lookup_fmap, Hp. intros [= <-].
    split; [done|]. rewrite (Hnil p ti Hp). done.
  - intros p q s t a _. rewrite lookup_fmap. destruct (h !! p); intros [= <-]. done.
Qed.

(** The [TypeInfo] of the example program with a nil [extensions]. *)
Definition x_init : XState := mkXState (mkStore ∅ 0) ((fun _ => nil_slice) <$> example_heap).

(** Three [AddExtension] calls: [extensions] has length 3, capacity 4. *)
Definition x_three : outcome XState :=
  (let? x1 := AddExtensionS nextslicecap x_init (Loc 0) 7 in
   let? x2 := AddExtensionS nextslicecap x1 (Loc 0) 8 in
   AddExtensionS nextslicecap x2 (Loc 0) 9)%go.

(** The caller appends 100 to what [Extensions] returned, then
    [AddExtension(200)] runs: the caller's slice shows 200. *)
Example caller_append_overwritten :
  match x_three with
  | Ok x => match ExtensionsS x (Loc 0) with
    | Ok s =>
        let '(st1, s1) := append nil_ext nextslicecap (xstore x) s 100%N in
        (slen s, scap s, contents st1 s1,
         match AddExtensionS nextslicecap (mkXState st1 (xfield x)) (Loc 0) 200%N with
         | Ok x2 => Some (contents (xstore x2) s1)
         | _ => None
         end)
    | _ => (0, 0, [], None)
    end
  | _ => (0, 0, [], None)
  end = (3, 4, [7; 8; 9; 100]%N, Some [7; 8; 9; 200]%N).
Proof. vm_compute. reflexivity. Qed.

(** One object: [xrel] from its slice. *)
Lemma xrel_singleton p ti x s :
  store_wf (xstore x) -> xfield x = {[p := s]} -> slice_wf (xstore x) s ->
  contents (xstore x) s = extensions ti -> xrel {[p := ti]} x.
Proof.
  intros Hst Hf Hwf Hc. unfold xrel. rewrite Hf. split_and!; [done| | |].
  - intros q. destruct (decide (p = q)) as [->|Hne].
    + rewrite !lookup_singleton_eq. split; eauto.
    + rewrite !lookup_singleton_ne by done. split; intros [? ?]; done.
  - intros q tq t. destruct (decide (p = q)) as [->|Hne].
    + rewrite !lookup_singleton_eq. by intros [= <-] [= <-].
    + by rewrite lookup_singleton_ne.
  - intros q1 q2 s1 s2 a Hne. destruct (decide (p = q1)) as [->|Hne1];
      [|by rewrite lookup_singleton_ne].
    by rewrite (lookup_singleton_ne q1 q2) by done.
Qed.

Lemma x_init_rel : xrel example_heap x_init.
Proof. apply xrel_init. intros p ti. unfold example_heap. rewrite lookup_singleton_Some. naive_solver. Qed.

Lemma AddExtensionS_refines_witness :
  match AddExtension example_heap (Loc 0) 7, AddExtensionS nextslicecap x_init (Loc 0) 7 with
  | Ok h', Ok x' => xrel h' x'
  | Panic m, Panic m' => m = m'
  | _, _ => False
  end.
Proof. apply (AddExtensionS_refines nextslicecap nextslicecap_ge). exact x_init_rel. Defined.

(** The state after the three calls, with its list counterpart. *)
Definition x3 : XState := match x_three with Ok x => x | _ => x_init end.
Definition h3 : heap := {[Loc 0 := set_extensions [7; 8; 9]%N example_ti]}.

Lemma x3_rel : xrel h3 x3.
Proof.
  apply (xrel_singleton (Loc 0) _ x3 (mkSlice (Some 2%N) 3 4)).
  - assert (xstore x3 = mkStore (<[2%N := [7; 8; 9; 0]%N]> (<[1%N := [7; 8]%N]>
      (<[0%N := [7%N]]> ∅))) 3) as -> by (vm_compute; reflexivity).
    intros a. simpl. rewrite !dom_insert_L, dom_empty_L, !elem_of_union, !elem_of_singleton.
    intros [->|[->|[->|[]%elem_of_empty]]]; lia.
  - vm_compute. reflexivity.
  - split; [simpl; lia|]. vm_compute. eexists. split; reflexivity.
  - vm_compute. reflexivity.
Qed.

Lemma Extensions_caller_append_witness :
  let '(st1, s1) := append nil_ext nextslicecap (xstore x3) (mkSlice (Some 2%N) 3 4) 100%N in
  match AddExtensionS nextslicecap (mkXState st1 (xfield x3)) (Loc 0) 200%N with
  | Ok x2 => contents (xstore x2) s1 =
      contents (xstore x3) (mkSlice (Some 2%N) 3 4) ++ [if decide (3 < 4) then 200%N else 100%N]
  | _ => False
  end.
Proof.
  apply (Extensions_caller_append nextslicecap nextslicecap_ge h3); [exact x3_rel|].
  vm_compute. reflexivity.
Defined.
