(* ===== verification/Registry.v ===== *)
(** * [Registry]: [GetTypeInfo] and [GetTypeInfoForValue], sequentially

    The global state of type_info.go is the map [typeInfos] (line 10) from
    normalised types to [*TypeInfo], together with the heap of [TypeInfo]
    objects it points into.  [GetTypeInfo] (lines 30-63) is split into the
    phases of the source, which [Concurrent] reuses as atomic steps:
    normalisation (lines 31-33, [deref]), lookup under the read lock
    (lines 34-39), computation of a fresh [TypeInfo] outside any lock
    (lines 40-56) and publication under the write lock (lines 59-61).
    This file composes them for a single caller and proves what one
    goroutine observes. *)

From S2P Require Import Prelude GoReflect FieldInfo FieldEnum TypeInfo.
From stdpp Require Import gmap.

(** The process state: the registry and the heap with its allocator. *)
Record World := mkWorld {
  typeInfos : gmap type_id loc;
  objs : heap;
  next_loc : N
}.

(** [&TypeInfo{...}]: a fresh object. *)
Definition alloc (ti : TypeInfo) (w : World) : loc * World :=
  (Loc (next_loc w),
   mkWorld (typeInfos w) (<[Loc (next_loc w) := ti]> (objs w)) (N.succ (next_loc w))).

(** Lines 59-61: [typeInfos[t] = typeInfo] under [typeInfosMutex.Lock]. *)
Definition publish (t : type_id) (p : loc) (w : World) : World :=
  mkWorld (<[t := p]> (typeInfos w)) (objs w) (next_loc w).

(** Lines 34-36: [typeInfo, exists := typeInfos[t]] under the read lock. *)
Definition lookup_typeInfo (t : type_id) (w : World) : option loc :=
  typeInfos w !! t.

Section registry.
Context (u : universe) `{!FieldEnumerator u}.

(** Lines 40-56: the record built on a miss.  Line 48 allocates
    [Fields] with capacity 16, overwritten at line 52 by
    [AppendFields(nil, nil, t)], sorted at line 55.  [MultipleFields]
    is left at its zero value. *)
Definition newTypeInfo (t : type_id) : TypeInfo :=
  if decide (KindOf u t <> Reflect.Struct) then
    mkTypeInfo false t [] [] VNil
  else
    mkTypeInfo false t (sort_fields (AppendFields [] [] t)) [] VNil.

(** The miss path after normalisation: compute, allocate, publish. *)
Definition miss (t : type_id) (w : World) : loc * World :=
  let '(p, w') := alloc (newTypeInfo t) w in (p, publish t p w').

(** Lines 30-63.  The argument is a [reflect.Type], which may be nil:
    [t.Kind()] then panics.  [fuel] bounds the loop of lines 31-33. *)
Definition GetTypeInfo (fuel : nat) (rt : option type_id) (w : World)
    : outcome (loc * World) :=
  match rt with
  | None => nil_deref
  | Some t0 =>
      (let? t := outcome_of_option (deref u fuel t0) in
       match lookup_typeInfo t w with
       | Some p => Ok (p, w)
       | None => Ok (miss t w)
       end)%go
  end.

(** Lines 25-27. *)
Definition GetTypeInfoForValue (fuel : nat) (v : GoValue) (w : World)
    : outcome (loc * World) :=
  GetTypeInfo fuel (TypeOf v) w.

(** The fields [GetTypeInfo] computes for a normalised type. *)
Definition fields_of (t : type_id) : list FieldInfo := Fields (newTypeInfo t).

(** The registry invariant: each entry is keyed by a non-pointer type and
    points to an allocated object for that type, with the fields computed
    for it and [MultipleFields] unset; allocated addresses lie below the
    allocator's counter. *)
Definition registry_wf (w : World) : Prop :=
  (forall t p, typeInfos w !! t = Some p ->
     KindOf u t <> Reflect.Ptr /\
     exists ti, objs w !! p = Some ti /\ Type' ti = t /\
       Fields ti = fields_of t /\ MultipleFields ti = false) /\
  (forall p, p ∈ dom (objs w) -> (loc_car p < next_loc w)%N).
End registry.

(** ** What one caller observes *)

Section registry_theory.
Context (u : universe) `{!FieldEnumerator u}.

(** The two ways [GetTypeInfo] returns on a non-nil type. *)
Lemma GetTypeInfo_Ok_inv n t0 w p w' :
  GetTypeInfo u n (Some t0) w = Ok (p, w') <->
  exists t, deref u n t0 = Some t /\
    ((lookup_typeInfo t w = Some p /\ w' = w) \/
     (lookup_typeInfo t w = None /\ miss u t w = (p, w'))).
Proof.
  unfold GetTypeInfo. rewrite outcome_bind_Ok. setoid_rewrite outcome_of_option_Ok.
  split.
  - intros (t & Ht & Hk). exists t. split; [done|].
    destruct (lookup_typeInfo t w); naive_solver.
  - intros (t & Ht & [[Hl ->] | [Hl Hm]]); exists t; rewrite Hl; [done|].
    by rewrite Hm.
Qed.

Lemma miss_spec t w :
  lookup_typeInfo t (miss u t w).2 = Some (miss u t w).1 /\
  objs (miss u t w).2 = <[(miss u t w).1 := newTypeInfo u t]> (objs w) /\
  (miss u t w).1 = Loc (next_loc w) /\
  next_loc (miss u t w).2 = N.succ (next_loc w) /\
  forall t', t' <> t -> lookup_typeInfo t' (miss u t w).2 = lookup_typeInfo t' w.
Proof.
  unfold miss, alloc, publish, lookup_typeInfo; simpl.
  split_and!; [apply lookup_insert_eq|done|done|done|].
  intros t' Hne. by apply lookup_insert_ne.
Qed.

(** C2: identity.  After [GetTypeInfo] returned [p], every later call on a
    type that normalises to the same type, a pointer to it included,
    returns the same [p] and changes nothing. *)
Theorem GetTypeInfo_identity n m t1 t2 w p w' :
  GetTypeInfo u n (Some t1) w = Ok (p, w') ->
  deref u m t2 = deref u n t1 ->
  GetTypeInfo u m (Some t2) w' = Ok (p, w').
Proof.
  intros (t & Ht & Hcase)%GetTypeInfo_Ok_inv Heq.
  apply GetTypeInfo_Ok_inv. exists t. rewrite Heq. split; [done|]. left.
  destruct Hcase as [[Hl ->] | [_ Hmiss]]; [done|].
  unfold miss, alloc, publish in Hmiss. injection Hmiss as <- <-.
  unfold lookup_typeInfo; simpl. split; [|done]. by rewrite lookup_insert_eq.
Qed.

(** Fuel beyond what the loop needs does not change the result. *)
Lemma GetTypeInfo_mono n m t0 w r :
  GetTypeInfo u n (Some t0) w = Ok r -> n <= m -> GetTypeInfo u m (Some t0) w = Ok r.
Proof.
  destruct r as [p w']. rewrite !GetTypeInfo_Ok_inv.
  intros (t & Ht & Hc) Hnm. exists t. split; [|done]. by eapply deref_mono.
Qed.

Lemma newTypeInfo_header t :
  Type' (newTypeInfo u t) = t /\ MultipleFields (newTypeInfo u t) = false.
Proof. unfold newTypeInfo. by case_decide. Qed.

(** The type a call returns for is published under its normal form. *)
Lemma GetTypeInfo_published n t0 w p w' :
  GetTypeInfo u n (Some t0) w = Ok (p, w') ->
  exists t, deref u n t0 = Some t /\ lookup_typeInfo t w' = Some p.
Proof.
  intros (t & Ht & [[Hl ->] | [_ Hm]])%GetTypeInfo_Ok_inv; exists t; [done|].
  destruct (miss_spec t w) as [Hl _]. by rewrite Hm in Hl.
Qed.

(** [GetTypeInfo] preserves the registry invariant. *)
Theorem GetTypeInfo_wf n rt w p w' :
  registry_wf u w -> GetTypeInfo u n rt w = Ok (p, w') -> registry_wf u w'.
Proof.
  destruct rt as [t0|]; [|done].
  intros [Hent Hdom] (t & Ht & [[_ ->] | [_ Hm]])%GetTypeInfo_Ok_inv; [by split|].
  destruct (miss_spec t w) as (_ & Hobjs & Hp & Hnext & _).
  rewrite Hm in Hobjs, Hp, Hnext; simpl in *. subst p.
  destruct (newTypeInfo_header t) as [Hty Hmf].
  assert (typeInfos w' = <[t := Loc (next_loc w)]> (typeInfos w)) as Hreg.
  { unfold miss, alloc, publish in Hm. by simplify_eq. }
  split.
  - intros t' p'. rewrite Hreg, lookup_insert. case_decide as Heq.
    + intros [= <-]. subst t'. split; [by eapply deref_not_ptr|].
      exists (newTypeInfo u t). rewrite Hobjs, lookup_insert_eq. done.
    + intros Hp'. destruct (Hent t' p' Hp') as [Hk (ti & Hti & Hrest)].
      split; [done|]. exists ti. rewrite Hobjs, lookup_insert_ne; [done|].
      intros <-. assert (Loc (next_loc w) ∈ dom (objs w)) as Hin%Hdom
        by (apply elem_of_dom; eauto). simpl in Hin. lia.
  - intros q. rewrite Hobjs, dom_insert_L, elem_of_union, elem_of_singleton, Hnext.
    intros [-> | Hq%Hdom]; simpl; lia.
Qed.

(** C4: the object a call returns is the one for the normalised type, with
    the fields computed for that type and [MultipleFields] unset. *)
Theorem GetTypeInfo_result n t0 w p w' :
  registry_wf u w -> GetTypeInfo u n (Some t0) w = Ok (p, w') ->
  exists t ti, deref u n t0 = Some t /\ objs w' !! p = Some ti /\
    Type' ti = t /\ Fields ti = fields_of u t /\ MultipleFields ti = false.
Proof.
  intros [Hent _]. unfold GetTypeInfo.
  destruct (deref u n t0) as [t|] eqn:Ht; simpl; [|done].
  destruct (lookup_typeInfo t w) as [q|] eqn:Hl.
  - intros [= <- <-]. destruct (Hent t q Hl) as [_ (ti & ?)]. exists t, ti. naive_solver.
  - unfold miss, alloc, publish. intros [= <- <-]. exists t, (newTypeInfo u t).
    simpl. rewrite lookup_insert_eq. destruct (newTypeInfo_header t). done.
Qed.

(** C8: the fields of a non-struct type are empty; the fields of a struct
    type are the enumerated fields sorted as Go's [sort.Sort] promises,
    and any result keeping that promise is these very fields. *)
Theorem fields_of_spec t :
  (KindOf u t <> Reflect.Struct -> fields_of u t = []) /\
  (KindOf u t = Reflect.Struct ->
     sort_contract (AppendFields [] [] t) (fields_of u t) /\
     forall out, sort_contract (AppendFields [] [] t) out -> out = fields_of u t).
Proof.
  unfold fields_of, newTypeInfo. split; intros Hk; [by rewrite decide_True|].
  rewrite decide_False by tauto. simpl. split; [apply sort_fields_contract|].
  intros out. apply sort_contract_unique, NoDup_sort_key, AppendFields_locators.
Qed.

(** C11: [GetTypeInfoForValue] panics exactly on a nil interface value;
    on any other value it returns or, on a pointer cycle, never does. *)
Theorem GetTypeInfoForValue_panic n v w :
  (exists msg, GetTypeInfoForValue u n v w = Panic msg) <-> v = VNil.
Proof.
  unfold GetTypeInfoForValue, GetTypeInfo. split.
  - destruct v as [|t0 x]; [done|]. simpl. intros [msg Hm].
    destruct (deref u n t0); simpl in Hm; [|done].
    by destruct (lookup_typeInfo _ w).
  - intros ->. by eexists.
Qed.


(** C10: on a self-referential pointer type such as [type P *P],
    [GetTypeInfo] never returns, whatever the state. *)
Theorem GetTypeInfo_cycle t0 :
  ptr_cycle u t0 -> forall n w, GetTypeInfo u n (Some t0) w = OutOfFuel.
Proof.
  intros Hc n w. unfold GetTypeInfo. by rewrite (deref_cycle_diverges u t0 Hc n).
Qed.
End registry_theory.

(** ** Sequences of calls *)

(** One goroutine calling [GetTypeInfo] on each type of [ts] in turn. *)
Fixpoint GetTypeInfos (u : universe) `{!FieldEnumerator u} (fuel : nat)
    (ts : list (option type_id)) (w : World) : outcome (list loc * World) :=
  match ts with
  | [] => Ok ([], w)
  | rt :: rest =>
      outcome_bind (GetTypeInfo u fuel rt w) (fun '(p, w1) =>
      outcome_bind (GetTypeInfos u fuel rest w1) (fun '(ps, w2) =>
      Ok (p :: ps, w2)))
  end.

Section sequences.
Context (u : universe) `{!FieldEnumerator u}.

(** A call never overwrites an entry: sequentially, misses only add. *)
Lemma GetTypeInfo_keeps_entries n rt w p w' t q :
  GetTypeInfo u n rt w = Ok (p, w') ->
  typeInfos w !! t = Some q -> typeInfos w' !! t = Some q.
Proof.
  destruct rt as [t0|]; [|done].
  intros (t1 & _ & [[_ ->] | [Hl Hm]])%GetTypeInfo_Ok_inv Hq; [done|].
  destruct (miss_spec u t1 w) as (_ & _ & _ & _ & Hother). rewrite Hm in Hother.
  unfold lookup_typeInfo in Hother, Hl. simpl in Hother. rewrite Hother; [done|].
  intros ->. congruence.
Qed.

Lemma GetTypeInfos_keeps_entries n ts w ps w' t q :
  GetTypeInfos u n ts w = Ok (ps, w') ->
  typeInfos w !! t = Some q -> typeInfos w' !! t = Some q.
Proof.
  revert w ps; induction ts as [|rt ts IH]; intros w ps; simpl; [by intros [= _ <-]|].
  destruct (GetTypeInfo u n rt w) as [[p w1]| |] eqn:Hg; simpl; try done.
  destruct (GetTypeInfos u n ts w1) as [[ps1 w2]| |] eqn:Hr; simpl; try done.
  intros [= _ <-] Hq. eapply IH; [done|]. by eapply GetTypeInfo_keeps_entries.
Qed.

(** C3: a sequence of calls keeps the registry invariant, and each call's
    result is the object registered for its normalised type at the end:
    calls on types with the same normal form get the same object. *)
Theorem GetTypeInfos_consistent n ts w ps w' :
  registry_wf u w -> GetTypeInfos u n ts w = Ok (ps, w') ->
  registry_wf u w' /\
  forall i t0 t p, ts !! i = Some (Some t0) -> deref u n t0 = Some t ->
    ps !! i = Some p -> typeInfos w' !! t = Some p.
Proof.
  revert w ps; induction ts as [|rt ts IH]; intros w ps Hwf; simpl.
  { intros [= <- <-]. split; [done|]. by intros []. }
  destruct (GetTypeInfo u n rt w) as [[p w1]| |] eqn:Hg; simpl; try done.
  destruct (GetTypeInfos u n ts w1) as [[ps1 w2]| |] eqn:Hr; simpl; try done.
  intros [= <- <-]. pose proof (GetTypeInfo_wf u n rt w p w1 Hwf Hg) as Hwf1.
  destruct (IH w1 ps1 Hwf1 Hr) as [Hwf2 Hps]. split; [done|].
  intros [|i] t0 t q; simpl; [|apply Hps].
  intros [= ->] Ht [= <-]. eapply GetTypeInfos_keeps_entries; [exact Hr|].
  destruct (GetTypeInfo_published u n t0 w p w1 Hg) as (t' & Ht' & Hl).
  rewrite Ht in Ht'. injection Ht' as <-. exact Hl.
Qed.
End sequences.

(** ** The fields of a computed [TypeInfo] are typed *)

(** C23: every [FieldInfo] of the [TypeInfo] built on a miss (lines 40-56,
    [Fields] from [AppendFields(nil, nil, t)] and [sort.Sort]) is typed by
    its locator: [Index] resolves in [t], through the embedded structs, to
    a struct field that is not itself an embedded struct, whose type is the
    [FieldType] and whose wire name is the [JSONName]. *)
Theorem newTypeInfo_fields_typed u d t fi :
  fi ∈ Fields (@newTypeInfo u (flatten_enumerator u d) t) ->
  exists rest sf, Index fi = rest /\ field_at u t rest = Some sf /\ SFType sf = FieldType fi /\
    field_json_name sf = JSONName fi /\ embeds_struct u sf = false.
Proof.
  unfold newTypeInfo. case_decide; simpl; [set_solver|].
  rewrite sort_fields_perm. intros Hfi.
  destruct (flatten_fields_typed u d [] t fi Hfi) as (rest & sf & Hidx & Hsf). by exists rest, sf.
Qed.

Lemma registry_wf_empty u `{!FieldEnumerator u} : registry_wf u (mkWorld ∅ ∅ 0).
Proof. split; simpl; [intros t p; by rewrite lookup_empty|set_solver]. Qed.

(** ** Witnesses on the example program *)

Definition w_empty : World := mkWorld ∅ ∅ 0.
Definition w_outer : World := (miss example_universe 11 w_empty).2.

Lemma GetTypeInfo_identity_witness :
  GetTypeInfo example_universe 3 (Some 13%N) w_empty = Ok (Loc 0, w_outer) /\
  GetTypeInfo example_universe 1 (Some 11%N) w_outer = Ok (Loc 0, w_outer).
Proof.
  split; [reflexivity|].
  apply (GetTypeInfo_identity example_universe 3 1 13 11 w_empty); reflexivity.
Defined.

Lemma GetTypeInfo_wf_witness : registry_wf example_universe w_outer.
Proof.
  apply (GetTypeInfo_wf example_universe 3 (Some 13%N) w_empty (Loc 0));
    [apply registry_wf_empty|reflexivity].
Defined.

Lemma GetTypeInfo_result_witness :
  exists t ti, deref example_universe 3 13 = Some t /\ objs w_outer !! Loc 0 = Some ti /\
    Type' ti = t /\ Fields ti = fields_of example_universe t /\ MultipleFields ti = false.
Proof.
  apply (GetTypeInfo_result example_universe 3 13 w_empty);
    [apply registry_wf_empty|reflexivity].
Defined.

Lemma GetTypeInfo_cycle_witness :
  GetTypeInfo example_universe 100 (Some 20%N) w_outer = OutOfFuel.
Proof. apply (GetTypeInfo_cycle example_universe 20). exact P_cycle. Defined.

Lemma GetTypeInfos_consistent_witness :
  exists ps w', GetTypeInfos example_universe 3 [Some 13%N; Some 1%N; Some 11%N] w_empty = Ok (ps, w') /\
    ps = [Loc 0; Loc 1; Loc 0] /\ registry_wf example_universe w' /\
    typeInfos w' !! 11%N = Some (Loc 0).
Proof.
  destruct (GetTypeInfos example_universe 3 [Some 13%N; Some 1%N; Some 11%N] w_empty)
    as [[ps w']| |] eqn:Hrun; [|discriminate|discriminate].
  pose proof (GetTypeInfos_consistent example_universe 3 _ w_empty ps w'
    (registry_wf_empty example_universe) Hrun) as [Hwf Hps].
  assert (ps = [Loc 0; Loc 1; Loc 0]) as Hps_eq.
  { vm_compute in Hrun. by injection Hrun as <- _. }
  exists ps, w'. split_and!; [done|done|done|].
  apply (Hps 0 13%N 11%N (Loc 0)); [done|reflexivity|by rewrite Hps_eq].
Defined.

Lemma fields_of_spec_witness :
  fields_of example_universe 1 = [] /\
  sort_contract (AppendFields [] [] 11%N) (fields_of example_universe 11).
Proof.
  split.
  - apply (proj1 (fields_of_spec example_universe 1)). discriminate.
  - apply (proj2 (fields_of_spec example_universe 11)). reflexivity.
Defined.

Lemma newTypeInfo_fields_typed_witness :
  exists rest sf, Index (mkFieldInfo [0; 0] "x" 1) = rest /\
    field_at example_universe 11%N rest = Some sf /\ SFType sf = FieldType (mkFieldInfo [0; 0] "x" 1) /\
    field_json_name sf = JSONName (mkFieldInfo [0; 0] "x" 1) /\ embeds_struct example_universe sf = false.
Proof.
  apply (newTypeInfo_fields_typed example_universe 3 11%N).
  apply list_elem_of_lookup_2 with 1. vm_compute. reflexivity.
Defined.
