(* ===== verification/Concurrent.v ===== *)
(** * [Concurrent]: goroutines calling [GetTypeInfo] and [AddExtension]

    Each goroutine is a program counter inside one call.  A step of a
    goroutine is one iteration of the loop of lines 31-33, the lookup of
    lines 34-39 (under [RLock]), the computation and allocation of lines
    40-56 (outside any lock; the object is not yet shared), the publication
    of lines 59-61 (under [Lock]), a whole [AddExtension] (under the
    object's [mutex]) or a whole [Extensions] (under its read lock).  A configuration step runs one step of one goroutine,
    chosen by the scheduler; [run] replays a schedule.  Steps are
    executable, so interleavings are computed, and reachability is stdpp's
    [rtc] of the step relation, with invariants proved by rule induction.
    Last, each completed call is related to a sequential [GetTypeInfo]
    through the type it normalises to ([heads_to]). *)

From S2P Require Import Prelude GoReflect FieldInfo FieldEnum TypeInfo Registry.
From stdpp Require Import gmap relations.

(** Where a goroutine is. *)
Inductive Thread :=
| GetStart (rt : option type_id)   (* in the loop of lines 31-33 *)
| GetLookup (t : type_id)          (* before the read-locked lookup *)
| GetCompute (t : type_id)         (* missed; computing outside the locks *)
| GetPublish (t : type_id) (p : loc) (* computed [p]; before the write lock *)
| GetDone (p : loc)                (* [GetTypeInfo] returned [p] *)
| AddExt (p : loc) (e : ExtensionInfo) (* calling [p.AddExtension(e)] *)
| AddDone
| ExtGet (p : loc)                 (* calling [p.Extensions()] *)
| ExtDone (p : loc) (xs : list ExtensionInfo) (* [p.Extensions()] returned [xs] *)
| Panicked.

#[global] Instance Thread_eq_dec : EqDecision Thread.
Proof. solve_decision. Defined.

Record Config := mkConfig {
  cworld : World;
  threads : list Thread
}.

Definition set_objs (h : heap) (w : World) : World :=
  mkWorld (typeInfos w) h (next_loc w).

Section semantics.
Context (u : universe) `{!FieldEnumerator u}.

(** One atomic step of a goroutine; [None] once it has returned. *)
Definition tstep (w : World) (th : Thread) : option (World * Thread) :=
  match th with
  | GetStart None => Some (w, Panicked)
  | GetStart (Some t) =>
      if decide (KindOf u t = Reflect.Ptr) then Some (w, GetStart (Some (Elem u t)))
      else Some (w, GetLookup t)
  | GetLookup t =>
      match lookup_typeInfo t w with
      | Some p => Some (w, GetDone p)
      | None => Some (w, GetCompute t)
      end
  | GetCompute t =>
      let '(p, w') := alloc (newTypeInfo u t) w in Some (w', GetPublish t p)
  | GetPublish t p => Some (publish t p w, GetDone p)
  | AddExt p e =>
      match AddExtension (objs w) p e with
      | Ok h' => Some (set_objs h' w, AddDone)
      | _ => Some (w, Panicked)
      end
  | ExtGet p =>
      match Extensions (objs w) p with
      | Ok xs => Some (w, ExtDone p xs)
      | _ => Some (w, Panicked)
      end
  | GetDone _ | AddDone | ExtDone _ _ | Panicked => None
  end.

(** The scheduler runs goroutine [i]. *)
Definition step_at (i : nat) (c : Config) : option Config :=
  th ← threads c !! i;
  '(w', th') ← tstep (cworld c) th;
  Some (mkConfig w' (<[i := th']> (threads c))).

Definition cstep (c c' : Config) : Prop := exists i, step_at i c = Some c'.

(** A schedule: the goroutine run at each step (finished ones idle). *)
Definition run (sched : list nat) (c : Config) : Config :=
  foldl (fun c i => default c (step_at i c)) c sched.
End semantics.

(** ** The heap only grows

    [heap_le h h']: every object of [h] is still in [h'] with the same
    [Type'], [Fields] and [MultipleFields], and its extensions extended. *)
Definition heap_le (h h' : heap) : Prop :=
  forall p ti, h !! p = Some ti ->
    exists ti', h' !! p = Some ti' /\ Type' ti' = Type' ti /\ Fields ti' = Fields ti /\
      MultipleFields ti' = MultipleFields ti /\ extensions ti `prefix_of` extensions ti'.

#[global] Instance heap_le_preorder : PreOrder heap_le.
Proof.
  split.
  - intros h p ti Hp. by exists ti.
  - intros h1 h2 h3 H12 H23 p ti Hp.
    destruct (H12 p ti Hp) as (ti2 & Hp2 & ? & ? & ? & ?).
    destruct (H23 p ti2 Hp2) as (ti3 & Hp3 & ? & ? & ? & ?).
    exists ti3. split_and!; try congruence. by trans (extensions ti2).
Qed.

(** Allocated addresses lie below the allocator's counter. *)
Definition fresh_bound (w : World) : Prop :=
  forall p, p ∈ dom (objs w) -> (loc_car p < next_loc w)%N.

Lemma alloc_heap_le ti w :
  fresh_bound w -> heap_le (objs w) (objs (alloc ti w).2) /\ fresh_bound (alloc ti w).2.
Proof.
  intros Hfb. unfold alloc; simpl. split.
  - intros p ti' Hp. exists ti'. split; [|done].
    rewrite lookup_insert_ne; [done|]. intros <-.
    assert (Loc (next_loc w) ∈ dom (objs w)) as Hin%Hfb by (apply elem_of_dom; eauto).
    simpl in Hin. lia.
  - intros p; simpl. rewrite dom_insert_L, elem_of_union, elem_of_singleton.
    intros [-> | Hq%Hfb]; simpl; lia.
Qed.

Lemma AddExtension_heap_le h p e h' :
  AddExtension h p e = Ok h' -> heap_le h h' /\ dom h' = dom h.
Proof.
  unfold AddExtension. destruct (h !! p) as [tp|] eqn:Hp; [|done]. intros [= <-].
  split; [|rewrite dom_insert_L; apply elem_of_dom_2 in Hp; set_solver].
  intros q ti Hq. destruct (decide (q = p)) as [->|Hne].
  - rewrite lookup_insert_eq. rewrite Hp in Hq. injection Hq as <-.
    eexists. split_and!; try done. by exists [e].
  - rewrite lookup_insert_ne by congruence. by exists ti.
Qed.

Section step_theory.
Context (u : universe) `{!FieldEnumerator u}.

(** Every goroutine step keeps the heap growing and the counter above it. *)
Lemma tstep_heap_le w th w' th' :
  fresh_bound w -> tstep u w th = Some (w', th') ->
  heap_le (objs w) (objs w') /\ fresh_bound w'.
Proof.
  intros Hfb. destruct th as [[t|]|t|t|t p|p|p e| |s|s xs|]; simpl;
    try (intros [= <- <-]; done).
  - case_decide; by intros [= <- <-].
  - destruct (lookup_typeInfo t w); by intros [= <- <-].
  - intros [= <- <-]. apply (alloc_heap_le (newTypeInfo u t) w Hfb).
  - destruct (AddExtension (objs w) p e) as [h'| |] eqn:Hadd; intros [= <- <-]; try done.
    apply AddExtension_heap_le in Hadd as [Hle Hdom]. split; [done|].
    intros q. unfold set_objs; simpl. rewrite Hdom. apply Hfb.
  - destruct (Extensions (objs w) s); by intros [= <- <-].
Qed.

Lemma cstep_heap_le c c' :
  fresh_bound (cworld c) -> cstep u c c' ->
  heap_le (objs (cworld c)) (objs (cworld c')) /\ fresh_bound (cworld c').
Proof.
  intros Hfb [i Hi]. unfold step_at in Hi.
  destruct (threads c !! i) as [th|]; simpl in Hi; [|done].
  destruct (tstep u (cworld c) th) as [[w' th']|] eqn:Ht; simpl in Hi; [|done].
  injection Hi as <-. simpl. by eapply tstep_heap_le.
Qed.

(** C7: publish once.  Along any interleaving, an allocated [TypeInfo]
    keeps its [Type'], [Fields] and [MultipleFields] and its extensions
    only grow: only [extensions] and [Schema] change after creation. *)
Theorem reachable_heap_le c c' :
  fresh_bound (cworld c) -> rtc (cstep u) c c' ->
  heap_le (objs (cworld c)) (objs (cworld c')).
Proof.
  intros Hfb Hrtc. revert Hfb. induction Hrtc as [c|c1 c2 c3 Hstep _ IH]; intros Hfb.
  - reflexivity.
  - destruct (cstep_heap_le c1 c2 Hfb Hstep) as [Hle Hfb2]. etrans; [exact Hle|].
    by apply IH.
Qed.
End step_theory.

(** ** The concurrent invariant *)

Section invariant.
Context (u : universe) `{!FieldEnumerator u}.

(** A [TypeInfo] as [GetTypeInfo] builds it: for a non-pointer type, with
    the fields computed for that type and [MultipleFields] unset. *)
Definition obj_ok (ti : TypeInfo) : Prop :=
  KindOf u (Type' ti) <> Reflect.Ptr /\ Fields ti = fields_of u (Type' ti) /\
  MultipleFields ti = false.

(** What each program counter knows about the state. *)
Definition thread_ok (w : World) (th : Thread) : Prop :=
  match th with
  | GetLookup t | GetCompute t => KindOf u t <> Reflect.Ptr
  | GetPublish t p => exists ti, objs w !! p = Some ti /\ Type' ti = t
  | GetDone p => p ∈ dom (objs w)
  | ExtDone p xs => exists ti, objs w !! p = Some ti /\ xs `prefix_of` extensions ti
  | _ => True
  end.

Definition registry_ok (w : World) : Prop :=
  forall t p, typeInfos w !! t = Some p -> exists ti, objs w !! p = Some ti /\ Type' ti = t.

Definition conc_inv (c : Config) : Prop :=
  fresh_bound (cworld c) /\
  (forall p ti, objs (cworld c) !! p = Some ti -> obj_ok ti) /\
  registry_ok (cworld c) /\
  Forall (thread_ok (cworld c)) (threads c).

Lemma thread_ok_mono w w' th :
  heap_le (objs w) (objs w') -> thread_ok w th -> thread_ok w' th.
Proof.
  intros Hle. destruct th as [[t|]|t|t|t p|p|p e| |s|s xs|]; simpl; try done.
  - intros (ti & Hp & <-). destruct (Hle p ti Hp) as (ti' & ? & ? & _). eauto.
  - intros (ti & Hp)%elem_of_dom. destruct (Hle p ti Hp) as (ti' & ? & _).
    by eapply elem_of_dom_2.
  - intros (ti & Hp & Hpre). destruct (Hle s ti Hp) as (ti' & ? & _ & _ & _ & ?).
    exists ti'. split; [done|]. by trans (extensions ti).
Qed.

Lemma registry_ok_mono w w' :
  typeInfos w' = typeInfos w -> heap_le (objs w) (objs w') ->
  registry_ok w -> registry_ok w'.
Proof.
  intros Hreg Hle Hok t p. rewrite Hreg. intros (ti & Hp & <-)%Hok.
  destruct (Hle p ti Hp) as (ti' & ? & ? & _). eauto.
Qed.

(** Objects after a step: old ones with their header kept, or the one the
    step allocated. *)
Lemma tstep_objs w th w' th' p ti' :
  tstep u w th = Some (w', th') -> objs w' !! p = Some ti' ->
  (exists ti, objs w !! p = Some ti /\ Type' ti' = Type' ti /\
     Fields ti' = Fields ti /\ MultipleFields ti' = MultipleFields ti) \/
  (exists t, th = GetCompute t /\ ti' = newTypeInfo u t).
Proof.
  destruct th as [[t|]|t|t|t q|q|q e| |s|s xs|]; simpl; try done;
    try (intros [= <- <-]; left; eauto; fail).
  - case_decide; intros [= <- <-]; left; eauto.
  - destruct (lookup_typeInfo t w); intros [= <- <-]; left; eauto.
  - intros [= <- <-]. simpl. rewrite lookup_insert.
    case_decide; [intros [= <-]; right; eauto|left; eauto].
  - unfold AddExtension. destruct (objs w !! q) as [tq|] eqn:Hq;
      intros [= <- <-]; simpl; [|left; eauto].
    rewrite lookup_insert. case_decide as Heq; [|left; eauto].
    intros [= <-]. subst q. left. by exists tq.
  - destruct (Extensions (objs w) s); intros [= <- <-]; left; eauto.
Qed.
End invariant.

Section invariant_proof.
Context (u : universe) `{!FieldEnumerator u}.

Lemma tstep_typeInfos w th w' th' :
  tstep u w th = Some (w', th') ->
  typeInfos w' = typeInfos w \/
  exists t p, th = GetPublish t p /\ typeInfos w' = <[t := p]> (typeInfos w) /\
    objs w' = objs w.
Proof.
  destruct th as [[t|]|t|t|t q|q|q e| |s|s xs|]; simpl; try done;
    try (intros [= <- <-]; by left).
  - case_decide; intros [= <- <-]; by left.
  - destruct (lookup_typeInfo t w); intros [= <- <-]; by left.
  - intros [= <- <-]. right. by exists t, q.
  - destruct (AddExtension (objs w) q e); intros [= <- <-]; by left.
  - destruct (Extensions (objs w) s); intros [= <- <-]; by left.
Qed.

Lemma newTypeInfo_ok t : KindOf u t <> Reflect.Ptr -> obj_ok u (newTypeInfo u t).
Proof.
  intros Hk. destruct (newTypeInfo_header u t) as [Hty Hmf].
  unfold obj_ok. rewrite Hty. done.
Qed.

Lemma tstep_thread_ok c i th w' th' :
  conc_inv u c -> threads c !! i = Some th -> tstep u (cworld c) th = Some (w', th') ->
  thread_ok u w' th'.
Proof.
  intros (Hfb & Hobj & Hreg & Hths) Hi. pose proof (Forall_lookup_1 _ _ _ _ Hths Hi) as Hth.
  destruct th as [[t|]|t|t|t q|q|q e| |s|s xs|]; simpl in *; try done.
  - case_decide; by intros [= <- <-].
  - by intros [= <- <-].
  - destruct (lookup_typeInfo t (cworld c)) as [q|] eqn:Hl; intros [= <- <-]; [|done].
    destruct (Hreg t q Hl) as (ti & Hq & _). simpl. by eapply elem_of_dom_2.
  - intros [= <- <-]. simpl. rewrite lookup_insert_eq.
    eexists. split; [done|]. apply newTypeInfo_header.
  - intros [= <- <-]. simpl. destruct Hth as (ti & Hq & _). by eapply elem_of_dom_2.
  - destruct (AddExtension _ q e); by intros [= <- <-].
  - unfold Extensions. destruct (objs (cworld c) !! s) eqn:Hs; intros [= <- <-]; [|done].
    eexists. split; [done|reflexivity].
Qed.

(** the invariant holds after every step of every goroutine. *)
Theorem conc_inv_step c c' : conc_inv u c -> cstep u c c' -> conc_inv u c'.
Proof.
  intros Hinv Hstep. pose proof (cstep_heap_le u c c' (proj1 Hinv) Hstep) as [Hle Hfb'].
  destruct Hstep as [i Hi]. unfold step_at in Hi.
  destruct (threads c !! i) as [th|] eqn:Hth; simpl in Hi; [|done].
  destruct (tstep u (cworld c) th) as [[w' th']|] eqn:Ht; simpl in Hi; [|done].
  injection Hi as <-. simpl in *.
  destruct Hinv as (Hfb & Hobj & Hreg & Hths). split_and!; [done| | |].
  - intros p ti' Hp'.
    destruct (tstep_objs u _ _ _ _ _ _ Ht Hp') as [(ti & Hp & Hty & Hf & Hm) | (t & -> & ->)].
    + destruct (Hobj p ti Hp) as (? & ? & ?). unfold obj_ok. rewrite Hty, Hf, Hm. done.
    + apply newTypeInfo_ok. by apply (Forall_lookup_1 _ _ _ _ Hths Hth).
  - destruct (tstep_typeInfos _ _ _ _ Ht) as [Hti | (t & p & -> & Hti & Hob)];
      [by eapply registry_ok_mono|].
    intros t' p'. simpl. rewrite Hti, Hob, lookup_insert. case_decide as Heq.
    + intros [= <-]. subst t'. by apply (Forall_lookup_1 _ _ _ _ Hths Hth).
    + by intros ?%Hreg.
  - apply Forall_insert; [|by eapply tstep_thread_ok].
    eapply Forall_impl; [exact Hths|]. intros th0. by apply thread_ok_mono.
Qed.

Lemma conc_inv_reachable c c' : conc_inv u c -> rtc (cstep u) c c' -> conc_inv u c'.
Proof. intros Hinv Hrtc. induction Hrtc; eauto using conc_inv_step. Qed.

(** C5: safety under any interleaving, races included.  Whenever a
    goroutine has returned [p] from [GetTypeInfo], [p] is a fully computed
    [TypeInfo]: a non-pointer type, the fields computed for it, and
    [MultipleFields] unset. *)
Theorem GetDone_valid c c' i p :
  conc_inv u c -> rtc (cstep u) c c' -> threads c' !! i = Some (GetDone p) ->
  exists ti, objs (cworld c') !! p = Some ti /\ obj_ok u ti.
Proof.
  intros Hinv Hrtc Hi. destruct (conc_inv_reachable c c' Hinv Hrtc) as (_ & Hobj & _ & Hths).
  pose proof (Forall_lookup_1 _ _ _ _ Hths Hi) as Hdone. simpl in Hdone.
  apply elem_of_dom in Hdone as [ti Hti]. eauto.
Qed.

(** C15: [Extensions] returns a snapshot that stays valid.  Under any
    interleaving with [AddExtension] calls, the list a goroutine got from
    [p.Extensions()] (line 74, under [RLock]) is a prefix of [p]'s
    extensions in every later state: no reader sees an extension that is
    later lost or reordered. *)
Theorem Extensions_snapshot c c' i p xs :
  conc_inv u c -> rtc (cstep u) c c' -> threads c' !! i = Some (ExtDone p xs) ->
  exists ti, objs (cworld c') !! p = Some ti /\ xs `prefix_of` extensions ti.
Proof.
  intros Hinv Hrtc Hi. destruct (conc_inv_reachable c c' Hinv Hrtc) as (_ & _ & _ & Hths).
  exact (Forall_lookup_1 _ _ _ _ Hths Hi).
Qed.
End invariant_proof.

(** ** Stability of a published entry *)

Section stability.
Context (u : universe) `{!FieldEnumerator u}.

(** No goroutine is between a miss on [t] and its publication. *)
Definition quiescent (t : type_id) (c : Config) : Prop :=
  forall th, th ∈ threads c -> th <> GetCompute t /\ forall p, th <> GetPublish t p.

Lemma entry_stable_step c c' t p :
  typeInfos (cworld c) !! t = Some p -> quiescent t c -> cstep u c c' ->
  typeInfos (cworld c') !! t = Some p /\ quiescent t c'.
Proof.
  intros Hp Hq [i Hi]. unfold step_at in Hi.
  destruct (threads c !! i) as [th|] eqn:Hth; simpl in Hi; [|done].
  destruct (tstep u (cworld c) th) as [[w' th']|] eqn:Ht; simpl in Hi; [|done].
  injection Hi as <-. simpl.
  assert (th ∈ threads c) as Hin by (by eapply list_elem_of_lookup_2).
  destruct (Hq th Hin) as [Hnc Hnp]. split.
  - destruct (tstep_typeInfos u _ _ _ _ Ht) as [-> | (t' & q & -> & -> & _)]; [done|].
    rewrite lookup_insert_ne; [done|]. intros ->. by apply (Hnp q).
  - intros th0 [-> | Hin0]%elem_of_list_insert_inv; [|by apply Hq].
    destruct th as [[t0|]|t0|t0|t0 q|q|q e| |s|s xs|]; simpl in Ht; try done.
    + case_decide; by injection Ht as <- <-.
    + by injection Ht as <- <-.
    + destruct (lookup_typeInfo t0 (cworld c)) as [q|] eqn:Hl; injection Ht as <- <-;
        [done|]. split; [|done]. intros [= ->]. unfold lookup_typeInfo in Hl. congruence.
    + injection Ht as <- <-. split; [done|].
      intros q' [= Heq _]. apply Hnc. by rewrite Heq.
    + by injection Ht as <- <-.
    + destruct (AddExtension _ q e); by injection Ht as <- <-.
    + destruct (Extensions _ s); by injection Ht as <- <-.
Qed.

(** C6: once [typeInfos[t]] holds [p] and no goroutine is between a miss
    on [t] and its publication, the entry stays [p] along every
    interleaving: from then on every lookup of [t] returns [p]. *)
Theorem entry_stable c c' t p :
  typeInfos (cworld c) !! t = Some p -> quiescent t c -> rtc (cstep u) c c' ->
  typeInfos (cworld c') !! t = Some p.
Proof.
  intros Hp Hq Hrtc. revert Hp Hq.
  induction Hrtc as [c|c1 c2 c3 Hs _ IH]; intros Hp Hq; [done|].
  destruct (entry_stable_step c1 c2 t p Hp Hq Hs). by apply IH.
Qed.
End stability.

(** ** Schedules, initial states and the race *)

Section schedules.
Context (u : universe) `{!FieldEnumerator u}.

(** A replayed schedule is an interleaving of the step relation. *)
Lemma run_rtc sched c : rtc (cstep u) c (run u sched c).
Proof.
  revert c; induction sched as [|i sched IH]; intros c; simpl; [done|].
  destruct (step_at u i c) as [c1|] eqn:Hs; simpl; [|apply IH].
  eapply rtc_l; [by exists i|apply IH].
Qed.

Lemma conc_inv_init ths :
  Forall (thread_ok u (mkWorld ∅ ∅ 0)) ths -> conc_inv u (mkConfig (mkWorld ∅ ∅ 0) ths).
Proof.
  intros Hths. split_and!; cbn [cworld objs threads typeInfos]; [set_solver| | |done].
  - intros p ti. by rewrite lookup_empty.
  - intros t p; cbn [typeInfos]. by rewrite lookup_empty.
Qed.
End schedules.

(** Two goroutines call [GetTypeInfo] on [*Outer] and [Outer]; a third
    adds an extension through the first result; a fourth calls
    [GetTypeInfo(Outer)] later. *)
Definition race_config : Config :=
  mkConfig (mkWorld ∅ ∅ 0)
    [GetStart (Some 12%N); GetStart (Some 11%N); AddExt (Loc 0) 7; GetStart (Some 11%N)].

(** Both first callers miss, then publish in turn. *)
Definition race_schedule : list nat := [0; 0; 1; 0; 1; 0; 1; 0; 1; 2; 3; 3].

(** C1: the race of lines 34-61.  Two concurrent first calls of
    [GetTypeInfo] on the same type both miss, both compute, and both
    publish: they return different [TypeInfo] objects, the second
    publication replaces the first, and an extension added through the
    first object is not seen through the [TypeInfo] every later caller
    gets.  The specification requires one instance per type for all
    callers (sections 3, 4.1 and 8). *)
Theorem GetTypeInfo_race :
  exists c', rtc (cstep example_universe) race_config c' /\
    threads c' = [GetDone (Loc 0); GetDone (Loc 1); AddDone; GetDone (Loc 1)] /\
    typeInfos (cworld c') !! 11%N = Some (Loc 1) /\
    Extensions (objs (cworld c')) (Loc 0) = Ok [7%N] /\
    Extensions (objs (cworld c')) (Loc 1) = Ok [].
Proof.
  exists (run example_universe race_schedule race_config).
  split; [apply run_rtc|]. vm_compute. repeat split.
Qed.

Lemma race_config_inv : conc_inv example_universe race_config.
Proof. apply conc_inv_init. repeat constructor. Qed.

Lemma GetDone_valid_witness :
  exists ti, objs (cworld (run example_universe race_schedule race_config)) !! Loc 0 = Some ti /\
    obj_ok example_universe ti.
Proof.
  apply (GetDone_valid example_universe race_config _ 0);
    [exact race_config_inv|apply run_rtc|vm_compute; reflexivity].
Defined.

Lemma reachable_heap_le_witness :
  heap_le (objs (cworld race_config)) (objs (cworld (run example_universe race_schedule race_config))).
Proof.
  apply (reachable_heap_le example_universe);
    [exact (proj1 race_config_inv)|apply run_rtc].
Defined.

Lemma conc_inv_step_witness :
  conc_inv example_universe (run example_universe [0] race_config).
Proof.
  apply (conc_inv_step example_universe race_config); [exact race_config_inv|].
  by exists 0.
Defined.

(** After the race, with every goroutine returned, the entry of [Outer]
    never changes again. *)
Lemma entry_stable_witness :
  typeInfos (cworld (run example_universe [0] (run example_universe race_schedule race_config)))
    !! 11%N = Some (Loc 1).
Proof.
  apply (entry_stable example_universe (run example_universe race_schedule race_config));
    [vm_compute; reflexivity| |apply run_rtc].
  intros th Hth. vm_compute in Hth. set_solver.
Defined.

(** ** Concurrent [AddExtension] calls *)

(** The extension a goroutine is about to add to [p], if any. *)
Definition pending_ext (p : loc) (th : Thread) : option ExtensionInfo :=
  match th with
  | AddExt q e => if decide (q = p) then Some e else None
  | _ => None
  end.

Definition pending (p : loc) (c : Config) : list ExtensionInfo :=
  omap (pending_ext p) (threads c).

Section extensions.
Context (u : universe) `{!FieldEnumerator u}.

Lemma tstep_not_AddExt w th w' th' q e :
  tstep u w th = Some (w', th') -> th' <> AddExt q e.
Proof.
  destruct th as [[t|]|t|t|t r|r|r e'| |s|s xs|]; simpl; try done;
    try (intros [= <- <-]; done).
  - case_decide; by intros [= <- <-].
  - destruct (lookup_typeInfo t w); by intros [= <- <-].
  - destruct (AddExtension _ r e'); by intros [= <- <-].
  - destruct (Extensions _ s); by intros [= <- <-].
Qed.

(** A step of a goroutine that is not adding to [p] leaves [p] alone. *)
Lemma tstep_other_objs w th w' th' p :
  fresh_bound w -> p ∈ dom (objs w) -> (forall e, th <> AddExt p e) ->
  tstep u w th = Some (w', th') -> objs w' !! p = objs w !! p.
Proof.
  intros Hfb Hp Hth. destruct th as [[t|]|t|t|t q|q|q e| |s|s xs|]; simpl; try done;
    try (intros [= <- <-]; done).
  - case_decide; by intros [= <- <-].
  - destruct (lookup_typeInfo t w); by intros [= <- <-].
  - intros [= <- <-]. simpl. rewrite lookup_insert_ne; [done|]. intros Heq.
    apply Hfb in Hp. rewrite <- Heq in Hp. simpl in Hp. lia.
  - unfold AddExtension. destruct (objs w !! q) eqn:Hq; intros [= <- <-]; [|done].
    simpl. rewrite lookup_insert_ne; [done|]. intros ->. by apply (Hth e).
  - destruct (Extensions _ s); by intros [= <- <-].
Qed.

Lemma cstep_extensions c c' p ti :
  fresh_bound (cworld c) -> objs (cworld c) !! p = Some ti -> cstep u c c' ->
  exists ti' d, objs (cworld c') !! p = Some ti' /\ extensions ti' = extensions ti ++ d /\
    d ++ pending p c' ≡ₚ pending p c.
Proof.
  intros Hfb Hp [i Hi]. unfold step_at in Hi.
  destruct (threads c !! i) as [th|] eqn:Hth; simpl in Hi; [|done].
  destruct (tstep u (cworld c) th) as [[w' th']|] eqn:Ht; simpl in Hi; [|done].
  injection Hi as <-. unfold pending; simpl.
  pose proof (omap_insert_Permutation (pending_ext p) (threads c) i th' th Hth) as Hperm.
  assert ((exists e, th = AddExt p e) \/ forall e, th <> AddExt p e) as [[e ->]|Hno].
  { destruct th as [| | | | |q e| | | |]; try (right; intros ?; discriminate).
    destruct (decide (q = p)) as [->|Hne]; [left; eauto|right; by intros ? [= ? _]]. }
  - simpl in Ht. unfold AddExtension in Ht. rewrite Hp in Ht. injection Ht as <- <-.
    exists (set_extensions (extensions ti ++ [e]) ti), [e]. simpl.
    rewrite lookup_insert_eq. split_and!; [done|done|].
    simpl in Hperm. by rewrite decide_True in Hperm.
  - exists ti, []. rewrite (tstep_other_objs _ th w' th' p Hfb) by (by eapply elem_of_dom_2 || done).
    rewrite app_nil_r. split_and!; [done|done|].
    assert (pending_ext p th = None) as Hn1.
    { destruct th as [| | | | |q e| | | |]; try done. simpl. case_decide; [|done]. subst. by destruct (Hno e). }
    assert (pending_ext p th' = None) as Hn2.
    { destruct th' as [| | | | |q e| | | |]; try done. by destruct (tstep_not_AddExt _ _ _ _ q e Ht). }
    simpl in Hperm. by rewrite Hn1, Hn2 in Hperm.
Qed.

(** C14: concurrent [AddExtension] calls on one [TypeInfo] lose nothing.
    Along any interleaving, the extensions of [p] only grow at the end, and
    what was appended together with the calls still pending is, up to
    order, what was pending at the start: once all calls have returned,
    every extension is in the list exactly once, in completion order. *)
Theorem AddExt_accumulate c c' p ti :
  fresh_bound (cworld c) -> objs (cworld c) !! p = Some ti -> rtc (cstep u) c c' ->
  exists ti' done, objs (cworld c') !! p = Some ti' /\
    extensions ti' = extensions ti ++ done /\ done ++ pending p c' ≡ₚ pending p c.
Proof.
  intros Hfb Hp Hrtc. revert ti Hfb Hp.
  induction Hrtc as [c|c1 c2 c3 Hs _ IH]; intros ti Hfb Hp.
  { exists ti, []. by rewrite app_nil_r. }
  destruct (cstep_extensions c1 c2 p ti Hfb Hp Hs) as (ti1 & d1 & Hp1 & He1 & Hperm1).
  destruct (cstep_heap_le u c1 c2 Hfb Hs) as [_ Hfb2].
  destruct (IH ti1 Hfb2 Hp1) as (ti' & d2 & Hp' & He' & Hperm').
  exists ti', (d1 ++ d2). split_and!; [done|by rewrite He', He1, app_assoc|].
  by rewrite <- app_assoc, Hperm'.
Qed.
End extensions.

(** Three goroutines add 7, 8 and 9 to the [TypeInfo] at [Loc 0]. *)
Definition ext_config : Config :=
  mkConfig (mkWorld ∅ example_heap 1) [AddExt (Loc 0) 7; AddExt (Loc 0) 8; AddExt (Loc 0) 9].

(** Scheduled as 9, 7, 8, the extensions come out in that completion order. *)
Example ext_completion_order :
  Extensions (objs (cworld (run example_universe [2; 0; 1] ext_config))) (Loc 0) =
    Ok [9; 7; 8]%N.
Proof. vm_compute. reflexivity. Qed.

Lemma AddExt_accumulate_witness :
  exists ti' done,
    objs (cworld (run example_universe [2; 0; 1] ext_config)) !! Loc 0 = Some ti' /\
    extensions ti' = extensions example_ti ++ done /\
    done ++ pending (Loc 0) (run example_universe [2; 0; 1] ext_config) ≡ₚ
      pending (Loc 0) ext_config.
Proof.
  apply (AddExt_accumulate example_universe ext_config _ (Loc 0) example_ti).
  - intros p Hp. simpl in Hp. unfold example_heap in Hp.
    rewrite dom_singleton_L, elem_of_singleton in Hp. subst p. simpl. lia.
  - reflexivity.
  - apply run_rtc.
Defined.

(** A reader runs between two [AddExtension] calls on the object another
    goroutine has just created. *)
Definition snapshot_config : Config :=
  mkConfig (mkWorld ∅ ∅ 0)
    [GetStart (Some 11%N); AddExt (Loc 0) 7; ExtGet (Loc 0); AddExt (Loc 0) 8].

Definition snapshot_schedule : list nat := [0; 0; 0; 0; 1; 2; 3].

Example snapshot_run :
  threads (run example_universe snapshot_schedule snapshot_config) =
    [GetDone (Loc 0); AddDone; ExtDone (Loc 0) [7%N]; AddDone] /\
  Extensions (objs (cworld (run example_universe snapshot_schedule snapshot_config))) (Loc 0) =
    Ok [7; 8]%N.
Proof. vm_compute. split; reflexivity. Qed.

Lemma Extensions_snapshot_witness :
  exists ti, objs (cworld (run example_universe snapshot_schedule snapshot_config)) !! Loc 0 =
    Some ti /\ [7%N] `prefix_of` extensions ti.
Proof.
  apply (Extensions_snapshot example_universe snapshot_config _ 2).
  - apply conc_inv_init. repeat constructor.
  - apply run_rtc.
  - vm_compute. reflexivity.
Defined.

(** ** Each completed call agrees with a sequential call

    [heads_to w t th]: goroutine [th] is inside a [GetTypeInfo] call whose
    argument normalises to [t], and once it holds an object that object
    is of type [t]. *)

Section linearization.
Context (u : universe) `{!FieldEnumerator u}.

Definition heads_to (w : World) (t : type_id) (th : Thread) : Prop :=
  match th with
  | GetStart (Some t') => exists n, deref u n t' = Some t
  | GetLookup t' | GetCompute t' => t' = t
  | GetPublish t' p => t' = t /\ exists ti, objs w !! p = Some ti /\ Type' ti = t
  | GetDone p => exists ti, objs w !! p = Some ti /\ Type' ti = t
  | _ => False
  end.

Lemma heads_to_mono w w' t th :
  heap_le (objs w) (objs w') -> heads_to w t th -> heads_to w' t th.
Proof.
  intros Hle. destruct th as [[t'|]|t'|t'|t' p|p|p e| |s|s xs|]; simpl; try done.
  - intros [-> (ti & Hp & <-)]. split; [done|].
    destruct (Hle p ti Hp) as (ti' & ? & ? & _). eauto.
  - intros (ti & Hp & <-). destruct (Hle p ti Hp) as (ti' & ? & ? & _). eauto.
Qed.

(** The goroutine's own step keeps its target. *)
Lemma tstep_heads_to w th w' th' t :
  registry_ok w -> tstep u w th = Some (w', th') -> heads_to w t th -> heads_to w' t th'.
Proof.
  intros Hreg. destruct th as [[t'|]|t'|t'|t' p|p|p e| |s|s xs|]; simpl; try done.
  - case_decide as Hk; intros [= <- <-] [n Hn]; simpl.
    + destruct n as [|n]; [done|]. rewrite deref_Elem in Hn by done. by exists n.
    + destruct n as [|n]; [done|]. simpl in Hn. rewrite decide_False in Hn by done. congruence.
  - intros Hs ->. destruct (lookup_typeInfo t w) as [q|] eqn:Hl; injection Hs as <- <-; [|done].
    simpl. by apply Hreg.
  - intros [= <- <-] ->. split; [done|]. simpl. rewrite lookup_insert_eq.
    eexists. split; [done|]. apply newTypeInfo_header.
  - by intros [= <- <-] [-> ?].
Qed.

(** Along every interleaving, goroutine [i] keeps heading to [t]. *)
Lemma heads_to_reachable c c' i t th :
  conc_inv u c -> threads c !! i = Some th -> heads_to (cworld c) t th -> rtc (cstep u) c c' ->
  exists th', threads c' !! i = Some th' /\ heads_to (cworld c') t th'.
Proof.
  intros Hinv Hi Hh Hr. revert th Hi Hh Hinv.
  induction Hr as [c|c1 c2 c3 Hs _ IH]; intros th Hi Hh Hinv; [eauto|].
  pose proof (conc_inv_step u c1 c2 Hinv Hs) as Hinv2.
  pose proof (cstep_heap_le u c1 c2 (proj1 Hinv) Hs) as [Hle _].
  destruct Hs as [j Hj]. pose proof Hj as Hj'. unfold step_at in Hj.
  destruct (threads c1 !! j) as [thj|] eqn:Hthj; simpl in Hj; [|done].
  destruct (tstep u (cworld c1) thj) as [[w' thj']|] eqn:Ht; simpl in Hj; [|done].
  injection Hj as <-. simpl in *. destruct (decide (i = j)) as [->|Hne].
  - rewrite Hthj in Hi. injection Hi as ->.
    apply (IH thj'); [by rewrite list_lookup_insert_eq by (by eapply lookup_lt_Some)| |done].
    eapply tstep_heads_to; [apply Hinv|exact Ht|exact Hh].
  - apply (IH th); [by rewrite list_lookup_insert_ne| |done].
    by eapply heads_to_mono.
Qed.

(** C24: concurrent calls refine the sequential [GetTypeInfo] up to object
    identity.  If goroutine [i] calls [GetTypeInfo(t0)] and returns [p]
    along some interleaving, races included, then [p] has the type, the
    fields and the [MultipleFields] flag of the object a sequential call
    [GetTypeInfo(t0)] returns from any well-formed registry: the callers
    may get different objects, never different contents. *)
Theorem GetDone_refines_sequential c c' i t0 p n w q w' :
  conc_inv u c -> threads c !! i = Some (GetStart (Some t0)) -> rtc (cstep u) c c' ->
  threads c' !! i = Some (GetDone p) ->
  registry_wf u w -> GetTypeInfo u n (Some t0) w = Ok (q, w') ->
  exists ti ti', objs (cworld c') !! p = Some ti /\ objs w' !! q = Some ti' /\
    Type' ti = Type' ti' /\ Fields ti = Fields ti' /\ MultipleFields ti = MultipleFields ti'.
Proof.
  intros Hinv Hi Hr Hi' Hwf Hseq.
  destruct (GetTypeInfo_published u n t0 w q w' Hseq) as (t & Ht & Hl).
  destruct (proj1 (GetTypeInfo_wf u n (Some t0) w q w' Hwf Hseq) t q Hl)
    as (_ & ti' & Hq & Hty' & Hf' & Hm').
  destruct (heads_to_reachable c c' i t _ Hinv Hi (ex_intro _ n Ht) Hr) as (th' & Hth' & Hh).
  rewrite Hi' in Hth'. injection Hth' as <-. destruct Hh as (ti & Hp & Hty).
  destruct (conc_inv_reachable u c c' Hinv Hr) as (_ & Hobj & _).
  destruct (Hobj p ti Hp) as (_ & Hf & Hm).
  exists ti, ti'. split_and!; try done; congruence.
Qed.
End linearization.

Lemma GetDone_refines_sequential_witness :
  exists ti ti', objs (cworld (run example_universe race_schedule race_config)) !! Loc 0 = Some ti /\
    objs w_outer !! Loc 0 = Some ti' /\
    Type' ti = Type' ti' /\ Fields ti = Fields ti' /\ MultipleFields ti = MultipleFields ti'.
Proof.
  apply (GetDone_refines_sequential example_universe race_config _ 0 12%N (Loc 0) 3 w_empty (Loc 0)).
  - exact race_config_inv.
  - reflexivity.
  - apply run_rtc.
  - vm_compute. reflexivity.
  - apply registry_wf_empty.
  - vm_compute. reflexivity.
Defined.
