(* ===== verification/ConcSlices.v ===== *)
(** * [ConcSlices]: concurrent callers of the slice-level methods

    Goroutines call [p.AddExtension(e)] (lines 65-69) and
    [p.Extensions()] (lines 71-75) on the slice model of [ExtSlices]; a
    caller of [Extensions] may then append to the header it got, outside
    any lock, as code outside this file is free to do.  Each method is one
    atomic step (it runs under [p]'s mutex, as in [Concurrent]); the
    caller's append is one step too.

    Theorems: while no caller appends, the slice-level interleavings are
    interleavings of [Concurrent]'s goroutines, related by [xabs] (a
    forward simulation), so every header a caller got keeps showing a
    prefix of the object's extensions and no added extension is lost;
    one caller that appends to the
    header it got overwrites, in the object's own backing array, the
    extension a concurrent [AddExtension] had added and returned. *)

From S2P Require Import Prelude GoReflect FieldEnum TypeInfo GoSlice ExtSlices Registry Concurrent.
From stdpp Require Import gmap relations.

(** Where a goroutine is. *)
Inductive XThread :=
| XAdd (p : loc) (e : ExtensionInfo)      (* calling [p.AddExtension(e)] *)
| XAddDone
| XGet (p : loc) (app : option ExtensionInfo)
    (* calling [p.Extensions()]; then appending [app] to the result *)
| XHold (p : loc) (s : slice) (app : option ExtensionInfo)
    (* holds the header [s] [p.Extensions()] returned *)
| XPanicked.

Record XConfig := mkXConfig {
  xstate : XState;
  xthreads : list XThread
}.

Section xsemantics.
Context (grow : nat -> nat -> nat).

(** One step of a goroutine; [None] once it has nothing left to do. *)
Definition xtstep (x : XState) (th : XThread) : option (XState * XThread) :=
  match th with
  | XAdd p e =>
      match AddExtensionS grow x p e with
      | Ok x' => Some (x', XAddDone)
      | _ => Some (x, XPanicked)
      end
  | XGet p app =>
      match ExtensionsS x p with
      | Ok s => Some (x, XHold p s app)
      | _ => Some (x, XPanicked)
      end
  | XHold p s (Some c) =>
      let '(st', s') := append nil_ext grow (xstore x) s c in
      Some (mkXState st' (xfield x), XHold p s' None)
  | XHold _ _ None | XAddDone | XPanicked => None
  end.

Definition xstep_at (i : nat) (xc : XConfig) : option XConfig :=
  th ← xthreads xc !! i;
  '(x', th') ← xtstep (xstate xc) th;
  Some (mkXConfig x' (<[i := th']> (xthreads xc))).

Definition xcstep (xc xc' : XConfig) : Prop := exists i, xstep_at i xc = Some xc'.

Definition xrun (sched : list nat) (xc : XConfig) : XConfig :=
  foldl (fun xc i => default xc (xstep_at i xc)) xc sched.
End xsemantics.

(** A slice-level goroutine and its list-level counterpart: callers that
    append have none. *)
Definition xthread_rel (x : XState) (xth : XThread) (th : Thread) : Prop :=
  match xth, th with
  | XAdd p e, AddExt p' e' => p = p' /\ e = e'
  | XAddDone, AddDone => True
  | XGet p None, ExtGet p' => p = p'
  | XHold p s None, ExtDone p' xs => p = p' /\ snap_ok x s /\ contents (xstore x) s = xs
  | XPanicked, Panicked => True
  | _, _ => False
  end.

(** The slice-level configuration shows the list-level one. *)
Definition xabs (c : Config) (xc : XConfig) : Prop :=
  xrel (objs (cworld c)) (xstate xc) /\
  Forall2 (xthread_rel (xstate xc)) (xthreads xc) (threads c).

(** The extensions of [p] still being added. *)
Definition xpending_ext (p : loc) (th : XThread) : option ExtensionInfo :=
  match th with
  | XAdd q e => if decide (q = p) then Some e else None
  | _ => None
  end.

Definition xpending (p : loc) (xc : XConfig) : list ExtensionInfo :=
  omap (xpending_ext p) (xthreads xc).

Section xtheory.
Context (grow : nat -> nat -> nat).

Lemma xthread_rel_frame x x' xth th :
  snap_frame x x' -> xthread_rel x xth th -> xthread_rel x' xth th.
Proof.
  intros Hfr. destruct xth as [p e| |p [c|]|p s [c|]|], th; simpl; try done.
  intros (-> & Hs & <-). destruct (Hfr s Hs). naive_solver.
Qed.

(** Related goroutines have the same pending extension. *)
Lemma xpending_rel x p xths ths :
  Forall2 (xthread_rel x) xths ths -> omap (xpending_ext p) xths = omap (pending_ext p) ths.
Proof.
  induction 1 as [|xth th xths ths Hrel _ IH]; [done|].
  assert (xpending_ext p xth = pending_ext p th) as Heq.
  { destruct xth as [q e| |q [a|]|q s [a|]|], th; simpl in Hrel; try done.
    by destruct Hrel as [<- <-]. }
  cbn [omap list_omap]. rewrite Heq. destruct (pending_ext p th); by rewrite IH.
Qed.

Lemma snap_frame_refl x : snap_frame x x.
Proof. by intros s Hs. Qed.

(** A matched step of goroutine [i] keeps the configurations related. *)
Lemma xabs_update c xc i w' th' x' xth' :
  Forall2 (xthread_rel (xstate xc)) (xthreads xc) (threads c) ->
  snap_frame (xstate xc) x' -> xrel (objs w') x' -> xthread_rel x' xth' th' ->
  xabs (mkConfig w' (<[i := th']> (threads c))) (mkXConfig x' (<[i := xth']> (xthreads xc))).
Proof.
  intros Hths Hfr Hx Hrel. split; [done|]. simpl. apply Forall2_insert; [|done].
  eapply Forall2_impl; [exact Hths|]. intros. by eapply xthread_rel_frame.
Qed.

Lemma xrun_step i sched xc th x' th' :
  xthreads xc !! i = Some th -> xtstep grow (xstate xc) th = Some (x', th') ->
  xrun grow (i :: sched) xc = xrun grow sched (mkXConfig x' (<[i := th']> (xthreads xc))).
Proof. intros H1 H2. unfold xrun; simpl. unfold xstep_at. rewrite H1; simpl. by rewrite H2. Qed.

Lemma xrun_nsteps sched xc : exists n, nsteps (xcstep grow) n xc (xrun grow sched xc).
Proof.
  revert xc; induction sched as [|i sched IH]; intros xc; simpl; [exists 0; constructor|].
  destruct (xstep_at grow i xc) as [xc1|] eqn:Hs; simpl; [|apply IH].
  destruct (IH xc1) as [n Hn]. exists (S n). econstructor; [by exists i|exact Hn].
Qed.

Lemma xrun_rtc sched xc : rtc (xcstep grow) xc (xrun grow sched xc).
Proof. destruct (xrun_nsteps sched xc) as [n Hn]. by eapply rtc_nsteps_2. Qed.
End xtheory.

(** ** The slice model refines the list model *)

Section refinement.
Context (grow : nat -> nat -> nat) (u : universe) `{!FieldEnumerator u}.
Hypothesis grow_ge : forall n c, c < n -> n <= grow n c.

(** Goroutine [i] of [c], at [th], takes its list-level step. *)
Local Ltac list_step i Hth Hp :=
  exists i; unfold step_at; rewrite Hth; simpl; unfold AddExtension, Extensions;
  rewrite Hp; reflexivity.

(** Each slice-level step is the same goroutine's list-level step. *)
Lemma xcstep_sim c xc xc' :
  xabs c xc -> xcstep grow xc xc' -> exists c', cstep u c c' /\ xabs c' xc'.
Proof using grow_ge.
  intros [Hx Hths] [i Hi]. unfold xstep_at in Hi.
  destruct (xthreads xc !! i) as [xth|] eqn:Hxth; simpl in Hi; [|done].
  destruct (Forall2_lookup_l _ _ _ _ _ Hths Hxth) as (th & Hth & Hrel).
  destruct xth as [p e| |p [a|]|p s [a|]|], th; simpl in Hrel; try done; simpl in Hi.
  - destruct Hrel as [<- <-]. destruct (objs (cworld c) !! p) as [ti|] eqn:Hp.
    + destruct (AddExtensionS_Ok grow grow_ge _ _ p e ti Hx Hp) as (x' & Hadd & Hx' & Hfr).
      rewrite Hadd in Hi. injection Hi as <-.
      eexists; split; [list_step i Hth Hp|by apply xabs_update].
    + unfold AddExtensionS in Hi. rewrite (xrel_lookup_None _ _ p Hx Hp) in Hi.
      injection Hi as <-. eexists; split; [list_step i Hth Hp|].
      apply xabs_update; [done|apply snap_frame_refl|done|done].
  - subst p0. destruct (objs (cworld c) !! p) as [ti|] eqn:Hp.
    + destruct (xrel_lookup _ _ p ti Hx Hp) as (s & Hs & _).
      assert (ExtensionsS (xstate xc) p = Ok s) as Hget by (unfold ExtensionsS; by rewrite Hs).
      destruct (ExtensionsS_snap _ _ p s Hx Hget) as (Hsnap & ti' & Hp' & Hc).
      rewrite Hp in Hp'. injection Hp' as <-. rewrite Hget in Hi. injection Hi as <-.
      eexists; split; [list_step i Hth Hp|].
      apply xabs_update; [done|apply snap_frame_refl|done|done].
    + unfold ExtensionsS in Hi. rewrite (xrel_lookup_None _ _ p Hx Hp) in Hi.
      injection Hi as <-. eexists; split; [list_step i Hth Hp|].
      apply xabs_update; [done|apply snap_frame_refl|done|done].
Qed.

(** C25: the slice model of [extensions] refines the list model under
    concurrency.  From related configurations, every interleaving of
    [AddExtension] and [Extensions] calls on the slice model (lines
    65-75, backing arrays shared and grown by [append]), in which no
    caller appends to a returned slice, is matched by an interleaving of
    the same goroutines in [Concurrent], ending in related
    configurations: every object's header shows its list, and every
    header a caller holds shows the list that caller got. *)
Theorem ConcSlices_refines c xc xc' :
  xabs c xc -> rtc (xcstep grow) xc xc' ->
  exists c', rtc (cstep u) c c' /\ xabs c' xc'.
Proof using grow_ge. apply rtc_forward_sim, xcstep_sim. Qed.

(** C26: a snapshot on the slice model stays valid.  Along any such
    interleaving, the header a goroutine got from [p.Extensions()]
    (line 74: the field itself, sharing its backing array) shows a prefix
    of what [p]'s field shows in every later state: no later
    [AddExtension], in place or growing, changes a cell it shows. *)
Theorem slice_snapshot c xc xc' i p s :
  conc_inv u c -> xabs c xc -> rtc (xcstep grow) xc xc' ->
  xthreads xc' !! i = Some (XHold p s None) ->
  exists f, xfield (xstate xc') !! p = Some f /\
    contents (xstore (xstate xc')) s `prefix_of` contents (xstore (xstate xc')) f.
Proof using grow_ge.
  intros Hinv Hab Hr Hi.
  destruct (rtc_forward_sim _ _ _ xcstep_sim c xc xc' Hab Hr) as (c' & Hc & Hx & Hths).
  destruct (Forall2_lookup_l _ _ _ _ _ Hths Hi) as (th & Hth & Hrel).
  destruct th; simpl in Hrel; try done. destruct Hrel as (<- & _ & Hxs).
  destruct (conc_inv_reachable u c c' Hinv Hc) as (_ & _ & _ & Hok).
  destruct (Forall_lookup_1 _ _ _ _ Hok Hth) as (ti & Hp & Hpre).
  destruct (xrel_lookup _ _ p ti Hx Hp) as (f & Hf & _ & Hcf).
  exists f. by rewrite Hcf, Hxs.
Qed.

End refinement.

(** ** No extension is lost

    The proof runs the matched list-level execution; its [AddExtension]
    and [Extensions] steps do not look at the type universe, so the
    example program's serves. *)
Section accumulation.
Context (grow : nat -> nat -> nat).
Hypothesis grow_ge : forall n c, c < n -> n <= grow n c.

(** C28: no extension is lost on the slice model.  Along any interleaving
    without caller appends, [p]'s field only grows at the end, and what
    it gained together with the [AddExtension] calls still pending is, up
    to order, what was pending at the start: once every call has
    returned, the field shows each added extension exactly once, in
    completion order, through every reallocation of its array. *)
Theorem slice_no_lost_extension c xc xc' p ti :
  fresh_bound (cworld c) -> objs (cworld c) !! p = Some ti ->
  xabs c xc -> rtc (xcstep grow) xc xc' ->
  exists f d, xfield (xstate xc') !! p = Some f /\
    contents (xstore (xstate xc')) f = extensions ti ++ d /\ d ++ xpending p xc' ≡ₚ xpending p xc.
Proof using grow_ge.
  intros Hfb Hp Hab Hr. revert c ti Hfb Hp Hab.
  induction Hr as [xc|xc1 xc2 xc3 Hs _ IH]; intros c ti Hfb Hp Hab.
  { destruct (xrel_lookup _ _ p ti (proj1 Hab) Hp) as (f & Hf & _ & Hcf).
    exists f, []. by rewrite app_nil_r. }
  destruct (xcstep_sim grow example_universe grow_ge c xc1 xc2 Hab Hs) as (c2 & Hc & Hab2).
  destruct (cstep_extensions example_universe c c2 p ti Hfb Hp Hc) as (ti1 & d1 & Hp1 & He1 & Hperm1).
  destruct (cstep_heap_le example_universe c c2 Hfb Hc) as [_ Hfb2].
  destruct (IH c2 ti1 Hfb2 Hp1 Hab2) as (f & d2 & Hf & Hcf & Hperm2).
  exists f, (d1 ++ d2). split_and!; [done|by rewrite Hcf, He1, app_assoc|].
  unfold xpending in *. rewrite (xpending_rel _ p _ _ (proj2 Hab)).
  rewrite (xpending_rel _ p _ _ (proj2 Hab2)) in Hperm2.
  by rewrite <- app_assoc, Hperm2.
Qed.
End accumulation.

(** ** A caller's append loses an extension *)

Section lost_update.
Context (grow : nat -> nat -> nat).

(** C27: an append by a caller loses a completed [AddExtension].  Suppose
    [p]'s field has spare capacity.  Goroutine 0 gets the field from
    [p.Extensions()] (line 74), goroutine 1 runs [p.AddExtension(e)],
    which appends in place (line 68) and returns, and then goroutine 0
    appends [c] to the slice it got.  That write lands in [p]'s own
    backing array, in the cell that holds [e]: [p]'s extensions end with
    [c], and [e] is lost although its [AddExtension] has returned. *)
Theorem caller_append_lost x p f c e :
  store_wf (xstore x) -> xfield x !! p = Some f -> slice_wf (xstore x) f -> slen f < scap f ->
  let xc := xrun grow [0; 1; 0] (mkXConfig x [XGet p (Some c); XAdd p e]) in
  (exists s, xthreads xc = [XHold p s None; XAddDone]) /\
  exists f', xfield (xstate xc) !! p = Some f' /\
    contents (xstore (xstate xc)) f' = contents (xstore x) f ++ [c].
Proof.
  intros Hst Hf Hwf Hlt. destruct (sarr f) as [a|] eqn:Ha;
    [|destruct Hwf as [_ Hb]; rewrite Ha in Hb; lia].
  pose proof (append_in_place_spec nil_ext grow (xstore x) f a e Hwf Hst Ha Hlt) as Hspec.
  destruct (append nil_ext grow (xstore x) f e) as [st1 f1] eqn:Happ.
  destruct Hspec as (_ & Hwf1 & Hc1 & Hlen1 & Ha1 & Hfr).
  destruct (Hfr f Hwf (or_intror (le_n _))) as [Hwf' _].
  rewrite (xrun_step grow 0 _ _ _ x (XHold p f (Some c))) by (simpl; first [done|unfold ExtensionsS; by rewrite Hf]).
  rewrite (xrun_step grow 1 _ _ _ (mkXState st1 (<[p := f1]> (xfield x))) XAddDone)
    by (simpl; first [done|unfold AddExtensionS; by rewrite Hf, Happ]).
  pose proof (append_overwrites nil_ext grow st1 f f1 c Hwf' Hwf1 ltac:(congruence) ltac:(lia))
    as Hover.
  destruct (append nil_ext grow st1 f c) as [st2 f2] eqn:Happ2. simpl in Hover.
  rewrite (xrun_step grow 0 _ _ _ (mkXState st2 (<[p := f1]> (xfield x))) (XHold p f2 None))
    by (simpl; first [done|by rewrite Happ2]).
  simpl. split; [by eexists|]. exists f1. rewrite lookup_insert_eq. split; [done|].
  rewrite Hover, Hc1, insert_app_r_alt, (contents_length _ _ Hwf), Nat.sub_diag by
    (rewrite (contents_length _ _ Hwf); lia).
  done.
Qed.
End lost_update.

(** ** Examples *)

(** The world after one [GetTypeInfo(Outer)] has published [Loc 0]. *)
Definition xw0 : World :=
  cworld (run example_universe [0; 0; 0; 0] (mkConfig (mkWorld ∅ ∅ 0) [GetStart (Some 11%N)])).

Lemma xw0_objs : objs xw0 = {[Loc 0 := newTypeInfo example_universe 11]}.
Proof. vm_compute. reflexivity. Qed.

Lemma xw0_inv ths :
  Forall (thread_ok example_universe xw0) ths -> conc_inv example_universe (mkConfig xw0 ths).
Proof.
  intros Hths.
  destruct (conc_inv_reachable example_universe _ _
    (conc_inv_init example_universe [GetStart (Some 11%N)] ltac:(repeat constructor))
    (run_rtc example_universe [0; 0; 0; 0] _)) as (? & ? & ? & _).
  by split_and!.
Qed.

(** Its [extensions] fields, all nil. *)
Definition xs0 : XState := mkXState (mkStore ∅ 0) ((fun _ => nil_slice) <$> objs xw0).

Lemma xs0_rel : xrel (objs xw0) xs0.
Proof.
  apply xrel_init. rewrite xw0_objs. intros p ti [_ <-]%lookup_singleton_Some.
  unfold newTypeInfo. by case_decide.
Qed.

(** Three extensions, a reader, a fourth extension written in place into
    the array the reader's header shares. *)
Definition snap_threads : list XThread :=
  [XAdd (Loc 0) 7; XAdd (Loc 0) 8; XAdd (Loc 0) 9; XGet (Loc 0) None; XAdd (Loc 0) 10].

Definition snap_list_threads : list Thread :=
  [AddExt (Loc 0) 7; AddExt (Loc 0) 8; AddExt (Loc 0) 9; ExtGet (Loc 0); AddExt (Loc 0) 10].

Definition snap_xrun : XConfig :=
  xrun nextslicecap [0; 1; 2; 3; 4] (mkXConfig xs0 snap_threads).

Example snap_xrun_shared :
  xthreads snap_xrun !! 3 = Some (XHold (Loc 0) (mkSlice (Some 2%N) 3 4) None) /\
  xfield (xstate snap_xrun) !! Loc 0 = Some (mkSlice (Some 2%N) 4 4) /\
  contents (xstore (xstate snap_xrun)) (mkSlice (Some 2%N) 4 4) = [7; 8; 9; 10]%N.
Proof. vm_compute. split_and!; reflexivity. Qed.

Lemma snap_xabs : xabs (mkConfig xw0 snap_list_threads) (mkXConfig xs0 snap_threads).
Proof. split; [exact xs0_rel|repeat constructor]. Qed.

Lemma ConcSlices_refines_witness :
  exists c', rtc (cstep example_universe) (mkConfig xw0 snap_list_threads) c' /\ xabs c' snap_xrun.
Proof.
  apply (ConcSlices_refines nextslicecap example_universe nextslicecap_ge _
    (mkXConfig xs0 snap_threads)); [exact snap_xabs|apply xrun_rtc].
Defined.

Lemma slice_snapshot_witness :
  exists f, xfield (xstate snap_xrun) !! Loc 0 = Some f /\
    contents (xstore (xstate snap_xrun)) (mkSlice (Some 2%N) 3 4) `prefix_of`
      contents (xstore (xstate snap_xrun)) f.
Proof.
  apply (slice_snapshot nextslicecap example_universe nextslicecap_ge
    (mkConfig xw0 snap_list_threads) (mkXConfig xs0 snap_threads) _ 3).
  - apply xw0_inv. repeat constructor.
  - exact snap_xabs.
  - apply xrun_rtc.
  - vm_compute. reflexivity.
Defined.

(** The lost update on the example: after three extensions the field has
    length 3 and capacity 4; the caller's 100 replaces the 10 of the
    returned [AddExtension(10)]. *)
Example caller_append_lost_run :
  let xc := xrun nextslicecap [0; 1; 0] (mkXConfig x3 [XGet (Loc 0) (Some 100%N); XAdd (Loc 0) 10]) in
  xthreads xc = [XHold (Loc 0) (mkSlice (Some 2%N) 4 4) None; XAddDone] /\
  ExtensionsS xc.(xstate) (Loc 0) = Ok (mkSlice (Some 2%N) 4 4) /\
  contents (xstore (xstate xc)) (mkSlice (Some 2%N) 4 4) = [7; 8; 9; 100]%N.
Proof. vm_compute. split_and!; reflexivity. Qed.

Lemma caller_append_lost_witness :
  let xc := xrun nextslicecap [0; 1; 0] (mkXConfig x3 [XGet (Loc 0) (Some 100%N); XAdd (Loc 0) 10]) in
  (exists s, xthreads xc = [XHold (Loc 0) s None; XAddDone]) /\
  exists f', xfield (xstate xc) !! Loc 0 = Some f' /\
    contents (xstore (xstate xc)) f' = contents (xstore x3) (mkSlice (Some 2%N) 3 4) ++ [100%N].
Proof.
  apply (caller_append_lost nextslicecap x3 (Loc 0) (mkSlice (Some 2%N) 3 4)).
  - exact (proj1 x3_rel).
  - vm_compute. reflexivity.
  - split; [simpl; lia|]. vm_compute. eexists. split; reflexivity.
  - simpl. lia.
Defined.

Lemma slice_no_lost_extension_witness :
  exists f d, xfield (xstate snap_xrun) !! Loc 0 = Some f /\
    contents (xstore (xstate snap_xrun)) f = extensions (newTypeInfo example_universe 11) ++ d /\
    d ++ xpending (Loc 0) snap_xrun ≡ₚ xpending (Loc 0) (mkXConfig xs0 snap_threads).
Proof.
  apply (slice_no_lost_extension nextslicecap nextslicecap_ge (mkConfig xw0 snap_list_threads)).
  - exact (proj1 (xw0_inv snap_list_threads ltac:(repeat constructor))).
  - change (objs xw0 !! Loc 0 = Some (newTypeInfo example_universe 11)).
    rewrite xw0_objs. apply lookup_singleton_eq.
  - exact snap_xabs.
  - apply xrun_rtc.
Defined.

