(* ===== verification/SliceRaces.v ===== *)
(** * [SliceRaces]: the memory accesses of the slice model, and data races

    The goroutines of [ConcSlices], with what the Go memory model needs:
    each goroutine's vector clock, what each [TypeInfo.mutex] has
    released ([MClock], [HappensBefore]), and the log of the memory
    accesses performed so far, each with the goroutine's clock at the
    time.  The accessed memory is the [extensions] field of an object
    and the cells of backing arrays ([mloc]).  [AddExtension] (lines
    66-68) takes the mutex, reads the field, performs [append]'s accesses
    (in place, the cell at the old length; growing, the copy's reads of
    the old cells and the writes of the new array), writes the field and
    unlocks; [Extensions] (lines 72-74) reads the field under the read
    lock; a caller appending to the slice it got performs [append]'s
    accesses with no lock at all.

    Two accesses race when they touch the same memory, one writes, and
    the earlier's clock is not below the later's (Go's definition of a
    data race, as its race detector checks it).  Theorems: the methods
    alone never race, under any interleaving; a caller's append races
    with a concurrent [AddExtension]. *)

From S2P Require Import Prelude HappensBefore GoReflect FieldEnum TypeInfo GoSlice ExtSlices Registry Concurrent ConcSlices.
From stdpp Require Import gmap relations.

(** The memory the methods touch: the [extensions] field of an object,
    a cell of a backing array. *)
Inductive mloc :=
| MField (p : loc)
| MCell (a : N) (k : nat).

#[global] Instance mloc_eq_dec : EqDecision mloc.
Proof. solve_decision. Defined.

Record access := mkAccess {
  acc_loc : mloc;
  acc_write : bool;
  acc_thread : nat;
  acc_clock : VClock.t
}.

Section append_accesses.
Context {A : Type}.

(** [append(s, x)] without spare capacity: [growslice] reads the old
    elements and writes them and [x] into the new array. *)
Definition grow_locs (st : store A) (s : slice) : list (mloc * bool) :=
  (match sarr s with
   | Some a => (fun k => (MCell a k, false)) <$> seq 0 (slen s)
   | None => []
   end) ++ ((fun k => (MCell (next_arr st) k, true)) <$> seq 0 (S (slen s))).

(** The accesses of [append(s, x)], in the order of [GoSlice.append]. *)
Definition append_locs (st : store A) (s : slice) : list (mloc * bool) :=
  match sarr s with
  | Some a => if decide (slen s < scap s) then [(MCell a (slen s), true)] else grow_locs st s
  | None => grow_locs st s
  end.
End append_accesses.

(** The goroutines, their clocks, the mutexes' clocks, the access log. *)
Record CConfig := mkCConfig {
  cxc : XConfig;
  cclocks : list VClock.t;
  cmutex : gmap loc MClock;
  clog : list access
}.

Definition mutex_of (ms : gmap loc MClock) (p : loc) : MClock := default MClock_zero (ms !! p).

Definition stamp (i : nat) (C : VClock.t) (locs : list (mloc * bool)) : list access :=
  (fun '(l, w) => mkAccess l w i C) <$> locs.

(** The accesses and synchronisation of goroutine [i]'s step, from clock
    [C]: its accesses, its clock after the step, the mutexes after it.  A
    call on a nil [*TypeInfo] panics at [mutex.Lock()] (line 66) or
    [mutex.RLock()] (line 72), before any access. *)
Definition sync_step (i : nat) (x : XState) (th : XThread) (C : VClock.t)
    (ms : gmap loc MClock) : list access * VClock.t * gmap loc MClock :=
  match th with
  | XAdd p _ =>
      match xfield x !! p with
      | Some s =>
          let C1 := lock_acq (mutex_of ms p) C in
          (stamp i C1 ((MField p, false) :: append_locs (xstore x) s ++ [(MField p, true)]),
           VClock.tick i C1, <[p := unlock_rel (mutex_of ms p) C1]> ms)
      | None => ([], C, ms)
      end
  | XGet p _ =>
      match xfield x !! p with
      | Some _ =>
          let C1 := rlock_acq (mutex_of ms p) C in
          (stamp i C1 [(MField p, false)], VClock.tick i C1, <[p := runlock_rel (mutex_of ms p) C1]> ms)
      | None => ([], C, ms)
      end
  | XHold _ s (Some _) => (stamp i C (append_locs (xstore x) s), C, ms)
  | XHold _ _ None | XAddDone | XPanicked => ([], C, ms)
  end.

Section csemantics.
Context (grow : nat -> nat -> nat).

(** Goroutine [i]'s step, with its accesses and synchronisation. *)
Definition cstep_at (i : nat) (cc : CConfig) : option CConfig :=
  th ← xthreads (cxc cc) !! i;
  C ← cclocks cc !! i;
  '(x', th') ← xtstep grow (xstate (cxc cc)) th;
  let '(accs, C', ms') := sync_step i (xstate (cxc cc)) th C (cmutex cc) in
  Some (mkCConfig (mkXConfig x' (<[i := th']> (xthreads (cxc cc))))
    (<[i := C']> (cclocks cc)) ms' (clog cc ++ accs)).

Definition ccstep (cc cc' : CConfig) : Prop := exists i, cstep_at i cc = Some cc'.

Definition crun (sched : list nat) (cc : CConfig) : CConfig :=
  foldl (fun cc i => default cc (cstep_at i cc)) cc sched.
End csemantics.

(** The start: each goroutine at its first clock, no access yet. *)
Definition cinit (xc : XConfig) : CConfig :=
  mkCConfig xc (VClock.init <$> seq 0 (length (xthreads xc))) ∅ [].

(** ** Data races *)

Definition conflicting (e1 e2 : access) : Prop :=
  acc_loc e1 = acc_loc e2 /\ (acc_write e1 || acc_write e2) = true.

(** No two conflicting accesses of the log are unordered. *)
Definition race_free (log : list access) : Prop :=
  forall i j e1 e2, i < j -> log !! i = Some e1 -> log !! j = Some e2 ->
    conflicting e1 e2 -> VClock.le (acc_clock e1) (acc_clock e2).

(** Whether the accesses at positions [ij] of the log race. *)
Definition racyb (log : list access) (ij : nat * nat) : bool :=
  match log !! ij.1, log !! ij.2 with
  | Some e1, Some e2 =>
      bool_decide (ij.1 < ij.2) && bool_decide (acc_loc e1 = acc_loc e2) &&
      (acc_write e1 || acc_write e2) && negb (VClock.leb (acc_clock e1) (acc_clock e2))
  | _, _ => false
  end.

(** The racing pairs of the log, by position. *)
Definition racy_pairs (log : list access) : list (nat * nat) :=
  filter (fun ij => racyb log ij = true) (list_prod (seq 0 (length log)) (seq 0 (length log))).

(** ** The methods never race *)

(** [l] is memory of object [p]: its field, or a cell of its array. *)
Definition owns (x : XState) (p : loc) (l : mloc) : Prop :=
  l = MField p \/ exists f a k, xfield x !! p = Some f /\ sarr f = Some a /\ l = MCell a k.

(** Every logged access to [p]'s memory is below what [p.mutex] has
    released, and every write below its last [Unlock]. *)
Definition guarded (x : XState) (ms : gmap loc MClock) (log : list access) : Prop :=
  forall e p, e ∈ log -> owns x p (acc_loc e) ->
    VClock.le (acc_clock e) (released (mutex_of ms p)) /\
    (acc_write e = true -> VClock.le (acc_clock e) (mw (mutex_of ms p))).

(** Logged cells are of allocated arrays. *)
Definition allocated (x : XState) (log : list access) : Prop :=
  forall e a k, e ∈ log -> acc_loc e = MCell a k -> (a < next_arr (xstore x))%N.

(** A goroutine that will not append to a slice it got. *)
Definition no_append (th : XThread) : Prop :=
  match th with XGet _ (Some _) | XHold _ _ (Some _) => False | _ => True end.

Section accesses_theory.
Context (grow : nat -> nat -> nat).

Lemma elem_of_stamp e i C locs :
  e ∈ stamp i C locs <-> exists l w, (l, w) ∈ locs /\ e = mkAccess l w i C.
Proof.
  unfold stamp. rewrite list_elem_of_fmap. split.
  - intros ([l w] & -> & Hin). eauto.
  - intros (l & w & Hin & ->). by exists (l, w).
Qed.

(** The cells [append] touches: [s]'s own, or the new array's, which
    only a growing append allocates. *)
Lemma append_locs_cases st s x l w :
  (l, w) ∈ append_locs st s ->
  (exists a k, sarr s = Some a /\ l = MCell a k) \/
  (exists k, l = MCell (next_arr st) k /\ (next_arr st < next_arr (append nil_ext grow st s x).1)%N).
Proof.
  assert ((l, w) ∈ grow_locs st s ->
    (exists a k, sarr s = Some a /\ l = MCell a k) \/ exists k, l = MCell (next_arr st) k) as Hg.
  { unfold grow_locs. rewrite elem_of_app, !list_elem_of_fmap. intros [Hin|(k & Heq & _)].
    - left. destruct (sarr s) as [a|]; [|set_solver].
      apply list_elem_of_fmap in Hin as (k & Heq & _). simplify_eq. eauto.
    - right. simplify_eq. eauto. }
  unfold append_locs, append. destruct (sarr s) as [a|]; [case_decide|].
  - rewrite list_elem_of_singleton. intros [= -> ->]. left. eauto.
  - intros [?|[k ->]]%Hg; [by left|right]. exists k. split; [done|]. simpl. lia.
  - intros [?|[k ->]]%Hg; [by left|right]. exists k. split; [done|]. simpl. lia.
Qed.

(** The header [append] returns: over [s]'s array, or a new one. *)
Lemma append_arr st s x :
  sarr (append nil_ext grow st s x).2 = sarr s \/
  (sarr (append nil_ext grow st s x).2 = Some (next_arr st) /\
   (next_arr st < next_arr (append nil_ext grow st s x).1)%N).
Proof.
  unfold append, append_grow. destruct (sarr s) as [a|] eqn:Ha; [case_decide|]; simpl.
  - by left.
  - right. split; [done|lia].
  - right. split; [done|lia].
Qed.

Lemma append_next_le st s x : (next_arr st <= next_arr (append nil_ext grow st s x).1)%N.
Proof. unfold append, append_grow. destruct (sarr s); [case_decide|]; simpl; lia. Qed.
End accesses_theory.

(** A log extended by accesses of one clock [C], each ordered after
    every old access it conflicts with, stays race free. *)
Lemma race_free_app log new C :
  race_free log -> (forall e, e ∈ new -> acc_clock e = C) ->
  (forall e1 e2, e1 ∈ log -> e2 ∈ new -> conflicting e1 e2 -> VClock.le (acc_clock e1) (acc_clock e2)) ->
  race_free (log ++ new).
Proof.
  intros Hold Hc Hnew i j e1 e2 Hij H1 H2 Hconf.
  apply lookup_app_Some in H1 as [H1|[Hl1 H1]]; apply lookup_app_Some in H2 as [H2|[Hl2 H2]].
  - exact (Hold i j e1 e2 Hij H1 H2 Hconf).
  - apply Hnew; [by eapply list_elem_of_lookup_2|by eapply list_elem_of_lookup_2|done].
  - apply lookup_lt_Some in H2. lia.
  - rewrite (Hc e1), (Hc e2); [reflexivity| |]; by eapply list_elem_of_lookup_2.
Qed.

Lemma mutex_of_insert ms p m q :
  mutex_of (<[p := m]> ms) q = if decide (p = q) then m else mutex_of ms q.
Proof. unfold mutex_of. rewrite lookup_insert. by case_decide. Qed.

Lemma unlock_rel_self m C : VClock.le C (released (unlock_rel m C)).
Proof. apply VClock.join_l. Qed.

Lemma xrel_field_wf h x q f : xrel h x -> xfield x !! q = Some f -> slice_wf (xstore x) f.
Proof.
  intros (_ & Hdom & Hobj & _) Hf. destruct (proj2 (Hdom q) (mk_is_Some _ _ Hf)) as [ti Hti].
  exact (proj1 (Hobj q ti f Hti Hf)).
Qed.

Section drf.
Context (grow : nat -> nat -> nat).

(** What [AddExtension] on [p] touches, from its field [s]. *)
Lemma add_locs_cases st s x p l w :
  (l, w) ∈ (MField p, false) :: append_locs st s ++ [(MField p, true)] ->
  l = MField p \/ (exists a k, sarr s = Some a /\ l = MCell a k) \/
  (exists k, l = MCell (next_arr st) k /\ (next_arr st < next_arr (append nil_ext grow st s x).1)%N).
Proof.
  rewrite elem_of_cons, elem_of_app, list_elem_of_singleton.
  intros [[= -> _]|[Hin|[= -> _]]]; [by left| |by left].
  right. exact (append_locs_cases grow st s x l w Hin).
Qed.

(** [AddExtension] on [p]: under [p.mutex], after every access to [p]'s
    memory; its own accesses are [p]'s or a fresh array's. *)
Lemma drf_add h x ms log i C p s e :
  xrel h x -> xfield x !! p = Some s ->
  allocated x log -> guarded x ms log -> race_free log ->
  let C1 := lock_acq (mutex_of ms p) C in
  let new := stamp i C1 ((MField p, false) :: append_locs (xstore x) s ++ [(MField p, true)]) in
  let r := append nil_ext grow (xstore x) s e in
  let x' := mkXState r.1 (<[p := r.2]> (xfield x)) in
  allocated x' (log ++ new) /\ guarded x' (<[p := unlock_rel (mutex_of ms p) C1]> ms) (log ++ new) /\
  race_free (log ++ new).
Proof.
  intros Hx Hs Hal Hg Hrf C1 new r x'. pose proof Hx as (Hst & _ & _ & Hdis).
  pose proof (xrel_field_wf h x p s Hx Hs) as Hwf.
  assert (forall e', e' ∈ new -> acc_clock e' = C1 /\ (acc_loc e' = MField p \/
    (exists a k, sarr s = Some a /\ acc_loc e' = MCell a k) \/
    (exists k, acc_loc e' = MCell (next_arr (xstore x)) k /\ (next_arr (xstore x) < next_arr r.1)%N)))
    as Hnew.
  { intros e' (l & w & Hin & ->)%elem_of_stamp. split; [done|]. simpl.
    exact (add_locs_cases _ s e p l w Hin). }
  assert (forall e', e' ∈ log -> owns x p (acc_loc e') -> VClock.le (acc_clock e') C1) as Hold.
  { intros e' Hin Hown. etrans; [apply (proj1 (Hg e' p Hin Hown))|apply lock_acq_released]. }
  assert (forall a, sarr s = Some a -> (a < next_arr (xstore x))%N) as Hsa.
  { intros a Ha. exact (Hst a (slice_wf_dom _ s a Hwf Ha)). }
  pose proof (append_next_le grow (xstore x) s e) as Hle.
  split_and!.
  - intros e' a k [Hin|Hin]%elem_of_app Hl; simpl; fold r in Hle.
    + pose proof (Hal e' a k Hin Hl). lia.
    + destruct (Hnew e' Hin) as (_ & [Hl'|[(a' & k' & Ha & Hl')|(k' & Hl' & Hlt)]]);
        rewrite Hl in Hl'; simplify_eq; [pose proof (Hsa a' Ha); lia|lia].
  - intros e' q Hin Hown. rewrite mutex_of_insert. destruct (decide (p = q)) as [<-|Hne].
    + assert (VClock.le (acc_clock e') C1) as HC.
      { apply elem_of_app in Hin as [Hin|Hin]; [|by rewrite (proj1 (Hnew e' Hin))].
        apply (Hold e' Hin). destruct Hown as [Hl|(f & a & k & Hf & Ha & Hl)]; [by left|].
        simpl in Hf. rewrite lookup_insert_eq in Hf. injection Hf as <-.
        destruct (append_arr grow (xstore x) s e) as [Harr|[Harr _]]; fold r in Harr.
        - right. exists s, a, k. split_and!; [done|congruence|done].
        - rewrite Harr in Ha. injection Ha as <-. pose proof (Hal e' _ k Hin Hl). lia. }
      split; [by etrans; [exact HC|apply unlock_rel_self]|done].
    + assert (owns x q (acc_loc e')) as Hown'.
      { destruct Hown as [Hl|(f & a & k & Hf & Ha & Hl)]; [by left|right].
        simpl in Hf. rewrite lookup_insert_ne in Hf by done. exists f, a, k. done. }
      apply elem_of_app in Hin as [Hin|Hin]; [exact (Hg e' q Hin Hown')|].
      exfalso. destruct Hown' as [Hl|(f & a & k & Hf & Ha & Hl)];
        destruct (Hnew e' Hin) as (_ & [Hl'|[(a' & k' & Ha' & Hl')|(k' & Hl' & _)]]);
        rewrite Hl in Hl'; simplify_eq.
      * eapply (Hdis p q s f); eauto.
      * eapply slice_wf_fresh; [eapply xrel_field_wf; eauto|exact Hst|eassumption].
  - apply (race_free_app log new C1 Hrf); [intros e' Hin; apply (Hnew e' Hin)|].
    intros e1 e2 H1 H2 [Hl _]. rewrite (proj1 (Hnew e2 H2)). apply (Hold e1 H1).
    destruct (Hnew e2 H2) as (_ & [Hl'|[(a & k & Ha & Hl')|(k & Hl' & _)]]); rewrite Hl' in Hl.
    + by left.
    + right. exists s, a, k. done.
    + pose proof (Hal e1 _ k H1 Hl). lia.
Qed.

(** [Extensions] on [p]: a read of the field under [p]'s read lock,
    after every write to it. *)
Lemma drf_get x ms log i C p s :
  xfield x !! p = Some s -> allocated x log -> guarded x ms log -> race_free log ->
  let C1 := rlock_acq (mutex_of ms p) C in
  let new := stamp i C1 [(MField p, false)] in
  allocated x (log ++ new) /\ guarded x (<[p := runlock_rel (mutex_of ms p) C1]> ms) (log ++ new) /\
  race_free (log ++ new).
Proof.
  intros Hs Hal Hg Hrf C1 new.
  assert (forall e', e' ∈ new -> e' = mkAccess (MField p) false i C1) as Hnew.
  { intros e' (l & w & Hin & ->)%elem_of_stamp. by apply list_elem_of_singleton in Hin as [= -> ->]. }
  split_and!.
  - intros e' a k [Hin|Hin]%elem_of_app Hl; [exact (Hal e' a k Hin Hl)|].
    by rewrite (Hnew e' Hin) in Hl.
  - intros e' q Hin Hown. rewrite mutex_of_insert. destruct (decide (p = q)) as [<-|Hne].
    + destruct (runlock_rel_released (mutex_of ms p) C1) as [Hrel Hself].
      apply elem_of_app in Hin as [Hin|Hin].
      * destruct (Hg e' p Hin Hown) as [H1 H2]. split; [by etrans|exact H2].
      * rewrite (Hnew e' Hin). by split.
    + apply elem_of_app in Hin as [Hin|Hin]; [by apply Hg|].
      rewrite (Hnew e' Hin) in Hown. destruct Hown as [[= ->]|(f & a & k & _ & _ & ?)]; done.
  - apply (race_free_app log new C1 Hrf); [intros e' Hin; by rewrite (Hnew e' Hin)|].
    intros e1 e2 H1 H2 [Hl Hw]. rewrite (Hnew e2 H2) in Hl, Hw |- *. simpl in *.
    rewrite orb_false_r in Hw.
    etrans; [apply (proj2 (Hg e1 p H1 (or_introl Hl)) Hw)|apply rlock_acq_mw].
Qed.
End drf.

(** The invariant of the clocked executions without caller appends. *)
Definition drf_inv (cc : CConfig) : Prop :=
  (exists h, xrel h (xstate (cxc cc))) /\ Forall no_append (xthreads (cxc cc)) /\
  allocated (xstate (cxc cc)) (clog cc) /\ guarded (xstate (cxc cc)) (cmutex cc) (clog cc) /\
  race_free (clog cc).

Section drf_proof.
Context (grow : nat -> nat -> nat).
Hypothesis grow_ge : forall n c, c < n -> n <= grow n c.

Lemma drf_inv_step cc cc' : drf_inv cc -> ccstep grow cc cc' -> drf_inv cc'.
Proof using grow_ge.
  intros ([h Hx] & Hna & Hal & Hg & Hrf) [i Hi]. unfold cstep_at in Hi.
  destruct (xthreads (cxc cc) !! i) as [th|] eqn:Hth; simpl in Hi; [|done].
  destruct (cclocks cc !! i) as [C|] eqn:HC; simpl in Hi; [|done].
  destruct (xtstep grow (xstate (cxc cc)) th) as [[x' th']|] eqn:Hs; simpl in Hi; [|done].
  destruct (sync_step i (xstate (cxc cc)) th C (cmutex cc)) as [[accs C'] ms'] eqn:Hsync.
  injection Hi as <-. unfold drf_inv; cbn [cxc xstate xthreads clog cmutex].
  pose proof (Forall_lookup_1 _ _ _ _ Hna Hth) as Hnath.
  set (x := xstate (cxc cc)) in *.
  destruct th as [p e| |p [c|]|p s [c|]|]; simpl in Hnath; try done; simpl in Hs, Hsync.
  - unfold AddExtensionS in Hs. destruct (xfield x !! p) as [s|] eqn:Hf.
    + destruct (proj2 (proj1 (proj2 Hx) p) (mk_is_Some _ _ Hf)) as [ti Hp].
      destruct (AddExtensionS_Ok grow grow_ge h x p e ti Hx Hp) as (x'' & Hadd & Hx'' & _).
      pose proof (drf_add grow h x (cmutex cc) (clog cc) i C p s e Hx Hf Hal Hg Hrf) as Hstep.
      unfold AddExtensionS in Hadd. rewrite Hf in Hadd.
      destruct (append nil_ext grow (xstore x) s e) as [st' s'].
      injection Hs as <- <-. injection Hadd as <-. injection Hsync as <- <- <-.
      split_and!; [by eexists|by apply Forall_insert|apply Hstep..].
    + injection Hs as <- <-. injection Hsync as <- <- <-. rewrite app_nil_r.
      split_and!; [by eexists|by apply Forall_insert|done..].
  - unfold ExtensionsS in Hs. destruct (xfield x !! p) as [s|] eqn:Hf.
    + injection Hs as <- <-. injection Hsync as <- <- <-.
      pose proof (drf_get x (cmutex cc) (clog cc) i C p s Hf Hal Hg Hrf) as Hstep.
      split_and!; [by eexists|by apply Forall_insert|apply Hstep..].
    + injection Hs as <- <-. injection Hsync as <- <- <-. rewrite app_nil_r.
      split_and!; [by eexists|by apply Forall_insert|done..].
Qed.

(** C29: the methods never race.  Whatever the interleaving of
    [AddExtension] and [Extensions] calls from a well-formed state, with
    no caller appending to a slice it got, every two accesses to the same
    memory (a field or an array cell), one of them a write, are ordered
    by happens-before through the objects' mutexes: the earlier's vector
    clock is below the later's.  Growing appends included: the copy's
    reads of the old array are ordered after every write to it. *)
Theorem methods_race_free h xc cc :
  xrel h (xstate xc) -> Forall no_append (xthreads xc) -> rtc (ccstep grow) (cinit xc) cc ->
  race_free (clog cc).
Proof using grow_ge.
  intros Hx Hna Hr. enough (drf_inv cc) by apply H.
  assert (drf_inv (cinit xc)) as Hinit.
  { split_and!; [by eexists|done| | |]; cbn [clog].
    - intros e a k He. by apply elem_of_nil in He.
    - intros e p He. by apply elem_of_nil in He.
    - intros i j e1 e2 _ H1. by destruct i. }
  clear Hx Hna. induction Hr; eauto using drf_inv_step.
Qed.
End drf_proof.

(** ** A caller's append races with [AddExtension] *)

Lemma get_bot i : VClock.get i VClock.bot = 0.
Proof. done. Qed.

Section caller_race.
Context (grow : nat -> nat -> nat).

Lemma crun_step i sched cc th C x' th' accs C' ms' :
  xthreads (cxc cc) !! i = Some th -> cclocks cc !! i = Some C ->
  xtstep grow (xstate (cxc cc)) th = Some (x', th') ->
  sync_step i (xstate (cxc cc)) th C (cmutex cc) = (accs, C', ms') ->
  crun grow (i :: sched) cc =
    crun grow sched (mkCConfig (mkXConfig x' (<[i := th']> (xthreads (cxc cc))))
      (<[i := C']> (cclocks cc)) ms' (clog cc ++ accs)).
Proof.
  intros H1 H2 H3 H4. unfold crun; simpl. unfold cstep_at. rewrite H1, H2; simpl.
  rewrite H3; simpl. by rewrite H4.
Qed.

(** One goroutine step of a run, once its lookups are rewritten by [Hs]. *)
Local Ltac step_by Hs := simpl; unfold ExtensionsS, AddExtensionS, mutex_of;
  rewrite ?lookup_insert_eq, ?lookup_singleton_eq; simpl; rewrite ?Hs.

(** C30: a caller's append is a data race.  Goroutine 0 gets [p]'s
    slice from [p.Extensions()] (line 74), goroutine 1 runs
    [p.AddExtension(e)], which writes the cell after the old length in
    place (line 68), and goroutine 0 appends to its slice, writing the
    same cell.  The two writes are unordered by happens-before, in both
    directions: the caller's write synchronises with no mutex, and the
    read lock it had taken only orders [AddExtension] after the read. *)
Theorem caller_append_races x p f c e :
  store_wf (xstore x) -> xfield x !! p = Some f -> slice_wf (xstore x) f -> slen f < scap f ->
  let log := clog (crun grow [0; 1; 0] (cinit (mkXConfig x [XGet p (Some c); XAdd p e]))) in
  exists a e1 e2, sarr f = Some a /\ log !! 2 = Some e1 /\ log !! 4 = Some e2 /\
    acc_loc e1 = MCell a (slen f) /\ acc_loc e2 = MCell a (slen f) /\
    acc_write e1 = true /\ acc_write e2 = true /\ acc_thread e1 = 1 /\ acc_thread e2 = 0 /\
    ~ VClock.le (acc_clock e1) (acc_clock e2) /\ ~ VClock.le (acc_clock e2) (acc_clock e1).
Proof.
  intros Hst Hf Hwf Hlt. destruct (sarr f) as [a|] eqn:Ha;
    [|destruct Hwf as [_ Hb]; rewrite Ha in Hb; lia].
  destruct (append nil_ext grow (xstore x) f e) as [st1 f1] eqn:Happ.
  assert (append_locs (xstore x) f = [(MCell a (slen f), true)]) as Hl0
    by (unfold append_locs; by rewrite Ha, decide_True).
  assert (append_locs st1 f = [(MCell a (slen f), true)]) as Hl1
    by (unfold append_locs; by rewrite Ha, decide_True).
  set (C0 := rlock_acq MClock_zero (VClock.init 0)).
  set (C1 := lock_acq (runlock_rel MClock_zero C0) (VClock.init 1)).
  rewrite (crun_step 0 _ _ (XGet p (Some c)) (VClock.init 0) x (XHold p f (Some c))
    [mkAccess (MField p) false 0 C0] (VClock.tick 0 C0) {[p := runlock_rel MClock_zero C0]})
    by (step_by Hf; reflexivity).
  rewrite (crun_step 1 _ _ (XAdd p e) (VClock.init 1) (mkXState st1 (<[p := f1]> (xfield x))) XAddDone
    [mkAccess (MField p) false 1 C1; mkAccess (MCell a (slen f)) true 1 C1;
     mkAccess (MField p) true 1 C1] (VClock.tick 1 C1)
    (<[p := unlock_rel (runlock_rel MClock_zero C0) C1]> {[p := runlock_rel MClock_zero C0]}))
    by (step_by Hf; rewrite ?Happ, ?Hl0; reflexivity).
  destruct (append nil_ext grow st1 f c) as [st2 f2] eqn:Happ2.
  rewrite (crun_step 0 _ _ (XHold p f (Some c)) (VClock.tick 0 C0)
    (mkXState st2 (<[p := f1]> (xfield x))) (XHold p f2 None)
    [mkAccess (MCell a (slen f)) true 0 (VClock.tick 0 C0)] (VClock.tick 0 C0)
    (<[p := unlock_rel (runlock_rel MClock_zero C0) C1]> {[p := runlock_rel MClock_zero C0]}))
    by (step_by Happ2; rewrite ?Hl1; reflexivity).
  simpl. eexists a, _, _. split_and!; try reflexivity.
  - intros Hle. specialize (Hle 1). revert Hle. subst C0 C1. unfold lock_acq, rlock_acq.
    simpl. rewrite !VClock.get_tick, !VClock.get_join, !VClock.get_init. simpl. rewrite ?get_bot. lia.
  - intros Hle. specialize (Hle 0). revert Hle. subst C0 C1. unfold lock_acq, rlock_acq.
    simpl. rewrite !VClock.get_tick, !VClock.get_join, !VClock.get_init. simpl. rewrite ?get_bot. lia.
Qed.
End caller_race.

Lemma crun_rtc grow sched cc : rtc (ccstep grow) cc (crun grow sched cc).
Proof.
  revert cc; induction sched as [|i sched IH]; intros cc; simpl; [done|].
  destruct (cstep_at grow i cc) as [cc1|] eqn:Hs; simpl; [|apply IH].
  eapply rtc_l; [by exists i|apply IH].
Qed.

(** ** Examples *)

(** The schedule of [ConcSlices.snap_xrun] with its accesses: nineteen,
    no race, although the reader's header shares the array a later
    [AddExtension] writes in place. *)
Definition snap_crun : CConfig := crun nextslicecap [0; 1; 2; 3; 4] (cinit (mkXConfig xs0 snap_threads)).

Example snap_crun_accesses : length (clog snap_crun) = 19 /\ racy_pairs (clog snap_crun) = [].
Proof. vm_compute. split; reflexivity. Qed.

Lemma methods_race_free_witness : race_free (clog snap_crun).
Proof.
  apply (methods_race_free nextslicecap nextslicecap_ge (objs xw0) (mkXConfig xs0 snap_threads)).
  - exact xs0_rel.
  - repeat constructor.
  - apply crun_rtc.
Defined.

(** The lost update of [ConcSlices.caller_append_lost_run], with its
    accesses: the only race is the pair of writes to cell 3 of array 2. *)
Definition race_crun : CConfig :=
  crun nextslicecap [0; 1; 0] (cinit (mkXConfig x3 [XGet (Loc 0) (Some 100%N); XAdd (Loc 0) 10])).

Example race_crun_pairs :
  racy_pairs (clog race_crun) = [(2, 4)] /\
  (acc_loc <$> clog race_crun !! 2) = Some (MCell 2 3).
Proof. vm_compute. split; reflexivity. Qed.

Lemma caller_append_races_witness :
  exists a e1 e2, sarr (mkSlice (Some 2%N) 3 4) = Some a /\
    clog race_crun !! 2 = Some e1 /\ clog race_crun !! 4 = Some e2 /\
    acc_loc e1 = MCell a 3 /\ acc_loc e2 = MCell a 3 /\
    acc_write e1 = true /\ acc_write e2 = true /\ acc_thread e1 = 1 /\ acc_thread e2 = 0 /\
    ~ VClock.le (acc_clock e1) (acc_clock e2) /\ ~ VClock.le (acc_clock e2) (acc_clock e1).
Proof.
  apply (caller_append_races nextslicecap x3 (Loc 0) (mkSlice (Some 2%N) 3 4) 100%N 10%N).
  - exact (proj1 x3_rel).
  - vm_compute. reflexivity.
  - split; [simpl; lia|]. vm_compute. eexists. split; reflexivity.
  - simpl. lia.
Defined.
