(* ===== verification/RWMutex.v ===== *)
(** * [RWMutex]: Go's [sync.RWMutex] as type_info.go uses it

    The registry is guarded by [typeInfosMutex] (line 11) and every
    [TypeInfo] carries its own [mutex] (line 16); the zero value of both is
    an unlocked mutex.  The state is the writer flag and the number of
    readers holding the lock, the representation of a reader-writer lock
    as an exclusive flag and a reader counter.  Acquisitions return [None]
    while the call would block; releases of a mutex not held in that mode
    are the runtime's fatal errors, modelled as [Panic].

    Writer priority (a pending [Lock] makes later [RLock] calls wait) only
    decides which blocked goroutine proceeds first; it changes neither
    mutual exclusion nor the absence of deadlock, and is not modelled.

    [held m nr nw] states that [m] is the state of a mutex held by [nr]
    readers and [nw] writers; the lemmas below show that each operation
    moves it by one holder, from which mutual exclusion follows. *)

From S2P Require Import Prelude.

Record RWMutex := mkRWMutex {
  writer : bool;
  readers : nat
}.

#[global] Instance RWMutex_eq_dec : EqDecision RWMutex.
Proof. solve_decision. Defined.

(** The zero value: unlocked. *)
Definition RWMutex_zero : RWMutex := mkRWMutex false 0.

(** [RLock]: blocks while a writer holds the mutex. *)
Definition RLock (m : RWMutex) : option RWMutex :=
  if writer m then None else Some (mkRWMutex false (S (readers m))).

(** [RUnlock]: fatal on a mutex no reader holds. *)
Definition RUnlock (m : RWMutex) : outcome RWMutex :=
  match readers m with
  | O => Panic "sync: RUnlock of unlocked RWMutex"
  | S n => Ok (mkRWMutex (writer m) n)
  end.

(** [Lock]: blocks while a writer or any reader holds the mutex. *)
Definition Lock (m : RWMutex) : option RWMutex :=
  if writer m then None
  else match readers m with O => Some (mkRWMutex true 0) | S _ => None end.

(** [Unlock]: fatal on a mutex no writer holds. *)
Definition Unlock (m : RWMutex) : outcome RWMutex :=
  if writer m then Ok (mkRWMutex false (readers m)) else Panic "sync: Unlock of unlocked RWMutex".

(** [m] is held by [nr] readers and [nw] writers. *)
Definition held (m : RWMutex) (nr nw : nat) : Prop :=
  readers m = nr /\ if writer m then nw = 1 /\ nr = 0 else nw = 0.

Section held_facts.
Implicit Types (m : RWMutex) (nr nw : nat).

Lemma held_zero : held RWMutex_zero 0 0.
Proof. done. Qed.

(** Mutual exclusion: at most one writer, and never a writer with a reader. *)
Lemma held_exclusive m nr nw : held m nr nw -> nw <= 1 /\ (nw = 1 -> nr = 0).
Proof. intros [_ Hw]. destruct (writer m); lia. Qed.

Lemma held_RLock m m' nr nw : held m nr nw -> RLock m = Some m' -> held m' (S nr) nw.
Proof.
  unfold RLock, held. destruct m as [[] r]; simpl; intros [<- Hw]; [done|].
  by intros [= <-].
Qed.

(** A release by a holder succeeds. *)
Lemma held_RUnlock m nr nw :
  held m (S nr) nw -> exists m', RUnlock m = Ok m' /\ held m' nr nw.
Proof.
  unfold RUnlock, held. destruct m as [w r]; simpl. intros [-> Hw].
  eexists. split; [done|]. simpl. destruct w; [lia|done].
Qed.

Lemma held_Lock m m' nr nw :
  held m nr nw -> Lock m = Some m' -> nr = 0 /\ nw = 0 /\ held m' 0 1.
Proof.
  unfold Lock, held. destruct m as [[] [|r]]; simpl; intros [<- Hw]; try done.
  intros [= <-]. done.
Qed.

Lemma held_Unlock m nr nw :
  held m nr (S nw) -> exists m', Unlock m = Ok m' /\ held m' nr nw.
Proof.
  unfold Unlock, held. destruct m as [[] r]; simpl; intros [<- Hw]; [|lia].
  eexists. split; [done|]. simpl. lia.
Qed.

(** The same facts in the form of the step's equations. *)
Lemma held_RUnlock_Ok m m' nr nw : held m (S nr) nw -> RUnlock m = Ok m' -> held m' nr nw.
Proof. intros (m'' & E & ?)%held_RUnlock. rewrite E. by intros [= <-]. Qed.

Lemma held_RUnlock_Panic m nr nw s : held m (S nr) nw -> RUnlock m <> Panic s.
Proof. intros (m'' & E & ?)%held_RUnlock. by rewrite E. Qed.

Lemma held_Unlock_Ok m m' nr nw : held m nr (S nw) -> Unlock m = Ok m' -> held m' nr nw.
Proof. intros (m'' & E & ?)%held_Unlock. rewrite E. by intros [= <-]. Qed.

Lemma held_Unlock_Panic m nr nw s : held m nr (S nw) -> Unlock m <> Panic s.
Proof. intros (m'' & E & ?)%held_Unlock. by rewrite E. Qed.

Lemma held_Lock_Some m m' nr nw : held m nr nw -> Lock m = Some m' -> held m' nr (S nw).
Proof. intros Hh HL. destruct (held_Lock m m' nr nw Hh HL) as (-> & -> & ?). done. Qed.

Lemma RUnlock_OutOfFuel m : RUnlock m <> OutOfFuel.
Proof. unfold RUnlock. by destruct (readers m). Qed.

Lemma Unlock_OutOfFuel m : Unlock m <> OutOfFuel.
Proof. unfold Unlock. by destruct (writer m). Qed.

(** A held mutex shows its holders. *)
Lemma held_readers_pos m nr nw : held m nr nw -> 1 <= nr -> readers m <> 0.
Proof. intros [-> _]. lia. Qed.

Lemma held_writer_pos m nr nw : held m nr nw -> 1 <= nw -> writer m = true.
Proof. intros [_ Hw]. destruct (writer m); [done|lia]. Qed.

(** A blocked acquisition has a holder to wait for. *)
Lemma held_RLock_blocked m nr nw : held m nr nw -> RLock m = None -> nw = 1.
Proof. unfold RLock, held. destruct (writer m); [naive_solver|done]. Qed.

Lemma held_Lock_blocked m nr nw : held m nr nw -> Lock m = None -> nr + nw <> 0.
Proof.
  unfold Lock, held. destruct m as [[] [|r]]; simpl; intros [<- Hw]; try lia. done.
Qed.
End held_facts.

#[export] Hint Resolve held_zero held_RLock held_RUnlock_Ok held_Unlock_Ok held_Lock_Some : jsoninfo.
