(* ===== verification/Locked.v ===== *)
(** * [Locked]: the goroutines at the granularity of the lock calls

    [Concurrent] takes each critical section of type_info.go as one atomic
    step.  This file refines that abstraction: the mutexes are explicit
    ([RWMutex]), and every [RLock], [RUnlock], [Lock] and [Unlock] of the
    source is a step of its own, blocking while the mutex is taken.

    - [LWorld]: the [World] with [typeInfosMutex] (line 11) and the
      [mutex] of each [TypeInfo] (line 16, the zero value until first used).
    - [LThread]: a program counter at each line of [GetTypeInfo] (30-63),
      [AddExtension] (65-69, the deferred [Unlock] after the append) and
      [Extensions] (71-75).
    - [ltstep]: one step of a goroutine; [lstep] interleaves them.

    The theorems: the holders of each mutex are counted by its state
    ([lock_inv], preserved by every step), hence mutual exclusion; every
    step maps to a step of [Concurrent] or to no change of its state
    ([abs_config], a stuttering simulation), so every lock-level execution
    is an execution of [Concurrent] and the theorems proved there hold of
    the lock-level program; a configuration in which some goroutine has
    not returned can always step (no deadlock); and every execution ends,
    within a bound computed from the configuration, when no type has a
    pointer cycle. *)

From S2P Require Import Prelude GoReflect FieldInfo FieldEnum TypeInfo Registry Concurrent RWMutex.
From stdpp Require Import gmap relations.

Record LWorld := mkLWorld {
  lworld : World;
  typeInfosMutex : RWMutex;
  mutexes : gmap loc RWMutex
}.

(** [typeInfo.mutex]: the zero value until first locked. *)
Definition obj_mutex (p : loc) (lw : LWorld) : RWMutex :=
  default RWMutex_zero (mutexes lw !! p).

Definition set_world (w : World) (lw : LWorld) : LWorld :=
  mkLWorld w (typeInfosMutex lw) (mutexes lw).
Definition set_reg (m : RWMutex) (lw : LWorld) : LWorld :=
  mkLWorld (lworld lw) m (mutexes lw).
Definition set_mutex (p : loc) (m : RWMutex) (lw : LWorld) : LWorld :=
  mkLWorld (lworld lw) (typeInfosMutex lw) (<[p := m]> (mutexes lw)).

(** Where a goroutine is, one constructor per lock call of the source. *)
Inductive LThread :=
| LGetStart (rt : option type_id)          (* the loop of lines 31-33 *)
| LRLock (t : type_id)                     (* line 34 *)
| LRead (t : type_id)                      (* line 35, read lock held *)
| LRUnlock (t : type_id) (r : option loc)  (* line 36, [r] read at line 35 *)
| LCompute (t : type_id)                   (* lines 40-56 *)
| LLock (t : type_id) (p : loc)            (* line 59 *)
| LWrite (t : type_id) (p : loc)           (* line 60, write lock held *)
| LUnlock (p : loc)                        (* line 61 *)
| LGetDone (p : loc)                       (* returned at line 38 or 62 *)
| LAddLock (p : loc) (e : ExtensionInfo)   (* line 66 *)
| LAddWrite (p : loc) (e : ExtensionInfo)  (* line 68, lock held *)
| LAddUnlock (p : loc)                     (* the [Unlock] deferred at line 67 *)
| LAddDone
| LExtLock (p : loc)                       (* line 72 *)
| LExtRead (p : loc)                       (* line 74, read lock held *)
| LExtUnlock (p : loc) (xs : list ExtensionInfo) (* the [RUnlock] deferred at line 73 *)
| LExtDone (p : loc) (xs : list ExtensionInfo)
| LPanicked.

#[global] Instance LThread_eq_dec : EqDecision LThread.
Proof. solve_decision. Defined.

Record LConfig := mkLConfig {
  lcw : LWorld;
  lthreads : list LThread
}.

Section semantics.
Context (u : universe) `{!FieldEnumerator u}.

(** One step of a goroutine; [None] once it has returned or while it is
    blocked on a mutex. *)
Definition ltstep (lw : LWorld) (th : LThread) : option (LWorld * LThread) :=
  let w := lworld lw in
  match th with
  | LGetStart None => Some (lw, LPanicked)
  | LGetStart (Some t) =>
      if decide (KindOf u t = Reflect.Ptr) then Some (lw, LGetStart (Some (Elem u t)))
      else Some (lw, LRLock t)
  | LRLock t =>
      match RLock (typeInfosMutex lw) with Some m => Some (set_reg m lw, LRead t) | None => None end
  | LRead t => Some (lw, LRUnlock t (lookup_typeInfo t w))
  | LRUnlock t r =>
      match RUnlock (typeInfosMutex lw) with
      | Ok m => Some (set_reg m lw, match r with Some p => LGetDone p | None => LCompute t end)
      | _ => Some (lw, LPanicked)
      end
  | LCompute t => let '(p, w') := alloc (newTypeInfo u t) w in Some (set_world w' lw, LLock t p)
  | LLock t p =>
      match Lock (typeInfosMutex lw) with Some m => Some (set_reg m lw, LWrite t p) | None => None end
  | LWrite t p => Some (set_world (publish t p w) lw, LUnlock p)
  | LUnlock p =>
      match Unlock (typeInfosMutex lw) with
      | Ok m => Some (set_reg m lw, LGetDone p)
      | _ => Some (lw, LPanicked)
      end
  | LAddLock p e =>
      match objs w !! p with
      | None => Some (lw, LPanicked)
      | Some _ =>
          match Lock (obj_mutex p lw) with
          | Some m => Some (set_mutex p m lw, LAddWrite p e)
          | None => None
          end
      end
  | LAddWrite p e =>
      match AddExtension (objs w) p e with
      | Ok h' => Some (set_world (set_objs h' w) lw, LAddUnlock p)
      | _ => Some (lw, LPanicked)
      end
  | LAddUnlock p =>
      match Unlock (obj_mutex p lw) with
      | Ok m => Some (set_mutex p m lw, LAddDone)
      | _ => Some (lw, LPanicked)
      end
  | LExtLock p =>
      match objs w !! p with
      | None => Some (lw, LPanicked)
      | Some _ =>
          match RLock (obj_mutex p lw) with
          | Some m => Some (set_mutex p m lw, LExtRead p)
          | None => None
          end
      end
  | LExtRead p =>
      match Extensions (objs w) p with
      | Ok xs => Some (lw, LExtUnlock p xs)
      | _ => Some (lw, LPanicked)
      end
  | LExtUnlock p xs =>
      match RUnlock (obj_mutex p lw) with
      | Ok m => Some (set_mutex p m lw, LExtDone p xs)
      | _ => Some (lw, LPanicked)
      end
  | LGetDone _ | LAddDone | LExtDone _ _ | LPanicked => None
  end.

Definition lstep_at (i : nat) (c : LConfig) : option LConfig :=
  th ← lthreads c !! i;
  '(lw', th') ← ltstep (lcw c) th;
  Some (mkLConfig lw' (<[i := th']> (lthreads c))).

Definition lstep (c c' : LConfig) : Prop := exists i, lstep_at i c = Some c'.

Definition lrun (sched : list nat) (c : LConfig) : LConfig :=
  foldl (fun c i => default c (lstep_at i c)) c sched.
End semantics.

(** A goroutine that has returned or panicked. *)
Definition lfinal (th : LThread) : bool :=
  match th with LGetDone _ | LAddDone | LExtDone _ _ | LPanicked => true | _ => false end.

(** ** The abstraction to [Concurrent]

    Each lock-level program counter stands for the atomic-step program
    counter of the critical section it is in: acquiring and releasing a
    mutex are invisible, the access under the mutex is the atomic step. *)
Definition abs_thread (th : LThread) : Thread :=
  match th with
  | LGetStart rt => GetStart rt
  | LRLock t | LRead t => GetLookup t
  | LRUnlock t (Some p) => GetDone p
  | LRUnlock t None => GetCompute t
  | LCompute t => GetCompute t
  | LLock t p | LWrite t p => GetPublish t p
  | LUnlock p | LGetDone p => GetDone p
  | LAddLock p e | LAddWrite p e => AddExt p e
  | LAddUnlock _ | LAddDone => AddDone
  | LExtLock p | LExtRead p => ExtGet p
  | LExtUnlock p xs | LExtDone p xs => ExtDone p xs
  | LPanicked => Panicked
  end.

Definition abs_config (c : LConfig) : Config :=
  mkConfig (lworld (lcw c)) (abs_thread <$> lthreads c).

(** ** Holders of the mutexes *)

Definition reg_reader (th : LThread) : bool :=
  match th with LRead _ | LRUnlock _ _ => true | _ => false end.
Definition reg_writer (th : LThread) : bool :=
  match th with LWrite _ _ | LUnlock _ => true | _ => false end.
Definition obj_reader (p : loc) (th : LThread) : bool :=
  match th with LExtRead q | LExtUnlock q _ => bool_decide (q = p) | _ => false end.
Definition obj_writer (p : loc) (th : LThread) : bool :=
  match th with LAddWrite q _ | LAddUnlock q => bool_decide (q = p) | _ => false end.

(** A goroutine about to access [p] under its mutex holds a live object. *)
Definition lthread_ok (w : World) (th : LThread) : Prop :=
  match th with
  | LAddWrite p _ | LExtRead p => p ∈ dom (objs w)
  | _ => True
  end.

(** The state of every mutex counts the goroutines holding it. *)
Definition lock_inv (c : LConfig) : Prop :=
  held (typeInfosMutex (lcw c)) (countb reg_reader (lthreads c)) (countb reg_writer (lthreads c)) /\
  (forall p, held (obj_mutex p (lcw c)) (countb (obj_reader p) (lthreads c))
                (countb (obj_writer p) (lthreads c))) /\
  Forall (lthread_ok (lworld (lcw c))) (lthreads c).

Lemma obj_mutex_set_eq p m lw : obj_mutex p (set_mutex p m lw) = m.
Proof. unfold obj_mutex, set_mutex; simpl. by rewrite lookup_insert_eq. Qed.

Lemma obj_mutex_set_ne p q m lw : q <> p -> obj_mutex p (set_mutex q m lw) = obj_mutex p lw.
Proof. intros Hne. unfold obj_mutex, set_mutex; simpl. by rewrite lookup_insert_ne. Qed.


Section simulation_proof.
Context (u : universe) `{!FieldEnumerator u}.

(** One goroutine step is an atomic step of the abstraction or leaves the
    abstract state unchanged, provided the goroutine's releases are of
    mutexes it holds. *)
Lemma ltstep_sim lw th lw' th' :
  (reg_reader th = true -> readers (typeInfosMutex lw) <> 0) ->
  (reg_writer th = true -> writer (typeInfosMutex lw) = true) ->
  (forall p, obj_reader p th = true -> readers (obj_mutex p lw) <> 0) ->
  (forall p, obj_writer p th = true -> writer (obj_mutex p lw) = true) ->
  ltstep u lw th = Some (lw', th') ->
  tstep u (lworld lw) (abs_thread th) = Some (lworld lw', abs_thread th') \/
  (lworld lw' = lworld lw /\ abs_thread th' = abs_thread th).
Proof.
  intros Hrr Hrw Hor How.
  destruct th as [[t|]|t|t|t r|t|t p|t p|p|p|p e|p e|p| |p|p|p xs|p xs|]; simpl in *;
    try done; try (intros [= <- <-]; by left).
  - case_decide; intros [= <- <-]; by left.
  - destruct (RLock _); simpl; [intros [= <- <-]; by right|done].
  - destruct (lookup_typeInfo t (lworld lw)); intros [= <- <-]; by left.
  - unfold RUnlock in *. destruct (readers _); [by destruct Hrr|].
    intros [= <- <-]. right. by destruct r.
  - destruct (Lock _); simpl; [intros [= <- <-]; by right|done].
  - unfold Unlock. rewrite Hrw by done. intros [= <- <-]. by right.
  - unfold AddExtension. destruct (objs (lworld lw) !! p); [|intros [= <- <-]; by left].
    destruct (Lock _); simpl; [intros [= <- <-]; by right|done].
  - destruct (AddExtension _ p e); intros [= <- <-]; by left.
  - unfold Unlock. rewrite How by (by rewrite bool_decide_eq_true). intros [= <- <-]. by right.
  - unfold Extensions. destruct (objs (lworld lw) !! p); [|intros [= <- <-]; by left].
    destruct (RLock _); simpl; [intros [= <- <-]; by right|done].
  - destruct (Extensions _ p); intros [= <- <-]; by left.
  - unfold RUnlock.
    assert (readers (obj_mutex p lw) <> 0) as Hr by (apply Hor; by rewrite bool_decide_eq_true).
    destruct (readers (obj_mutex p lw)); [done|]. intros [= <- <-]. by right.
Qed.
End simulation_proof.

(** ** The lock invariant *)

(** A release by a holder does not fault. *)
Ltac release_fault :=
  exfalso; first
  [ eapply held_RUnlock_Panic; by eauto
  | eapply held_Unlock_Panic; by eauto
  | eapply RUnlock_OutOfFuel; by eauto
  | eapply Unlock_OutOfFuel; by eauto ].

(** A method call on a live object does not fault. *)
Ltac live_fault :=
  exfalso; match goal with
  | Hd : ?p ∈ dom ?h, E : AddExtension ?h ?p ?e = _ |- _ =>
      destruct (AddExtension_live h p e Hd) as [? ?]; congruence
  | Hd : ?p ∈ dom ?h, E : Extensions ?h ?p = _ |- _ =>
      destruct (Extensions_live h p Hd) as [? ?]; congruence
  end.

Section lock_invariant.
Context (u : universe) `{!FieldEnumerator u}.

(** The registry mutex changes by the one holder the step adds or removes. *)
Lemma ltstep_reg lw th lw' th' nr nw :
  held (typeInfosMutex lw) (nr + Nat.b2n (reg_reader th)) (nw + Nat.b2n (reg_writer th)) ->
  ltstep u lw th = Some (lw', th') ->
  held (typeInfosMutex lw') (nr + Nat.b2n (reg_reader th')) (nw + Nat.b2n (reg_writer th')).
Proof.
  intros Hh Hs. destruct th; simpl in *; repeat case_match; simplify_eq/=;
    rewrite ?Nat.add_0_r, ?Nat.add_1_r in *; try done.
  all: eauto with jsoninfo; release_fault.
Qed.
(** The mutex of [p] changes by the one holder the step adds or removes. *)
Lemma ltstep_obj lw th lw' th' p nr nw :
  lthread_ok (lworld lw) th ->
  held (obj_mutex p lw) (nr + Nat.b2n (obj_reader p th)) (nw + Nat.b2n (obj_writer p th)) ->
  ltstep u lw th = Some (lw', th') ->
  held (obj_mutex p lw') (nr + Nat.b2n (obj_reader p th')) (nw + Nat.b2n (obj_writer p th')).
Proof.
  intros Hok Hh Hs. destruct th; simpl in *; repeat case_match; simplify_eq/=;
    repeat case_bool_decide; subst; rewrite ?obj_mutex_set_eq, ?obj_mutex_set_ne in * by done;
    rewrite ?Nat.add_0_r, ?Nat.add_1_r in *; try done.
  all: eauto with jsoninfo; first [release_fault | live_fault].
Qed.
(** Objects stay allocated. *)
Lemma ltstep_dom lw th lw' th' :
  ltstep u lw th = Some (lw', th') -> dom (objs (lworld lw)) ⊆ dom (objs (lworld lw')).
Proof.
  intros Hs. destruct th; simpl in *; repeat case_match; simplify_eq/=; try done.
  - rewrite dom_insert_L. set_solver.
  - match goal with H : AddExtension _ _ _ = Ok _ |- _ => apply AddExtension_heap_le in H as [_ ->] end.
    done.
Qed.

Lemma lthread_ok_mono w w' th :
  dom (objs w) ⊆ dom (objs w') -> lthread_ok w th -> lthread_ok w' th.
Proof. destruct th; simpl; set_solver. Qed.

(** The goroutine's own obligation after its step. *)
Lemma ltstep_thread_ok lw th lw' th' :
  ltstep u lw th = Some (lw', th') -> lthread_ok (lworld lw') th'.
Proof.
  intros Hs. destruct th; simpl in *; repeat case_match; simplify_eq/=; try done;
    by eapply elem_of_dom_2.
Qed.

(** The lock invariant holds after every step. *)
Lemma lock_inv_step c c' : lock_inv c -> lstep u c c' -> lock_inv c'.
Proof.
  intros (Hreg & Hobj & Hok) [i Hi]. unfold lstep_at in Hi.
  destruct (lthreads c !! i) as [th|] eqn:Hth; simpl in Hi; [|done].
  destruct (ltstep u (lcw c) th) as [[lw' th']|] eqn:Hs; simpl in Hi; [|done].
  injection Hi as <-. unfold lock_inv; simpl. split_and!.
  - destruct (countb_split reg_reader _ i th th' Hth) as (nr & E1 & E2).
    destruct (countb_split reg_writer _ i th th' Hth) as (nw & F1 & F2).
    rewrite E2, F2. rewrite E1, F1 in Hreg. by eapply ltstep_reg.
  - intros p. specialize (Hobj p).
    destruct (countb_split (obj_reader p) _ i th th' Hth) as (nr & E1 & E2).
    destruct (countb_split (obj_writer p) _ i th th' Hth) as (nw & F1 & F2).
    rewrite E2, F2. rewrite E1, F1 in Hobj.
    eapply ltstep_obj; [exact (Forall_lookup_1 _ _ _ _ Hok Hth)|done|done].
  - apply Forall_insert; [|by eapply ltstep_thread_ok].
    eapply Forall_impl; [exact Hok|]. intros th0. apply lthread_ok_mono.
    by eapply ltstep_dom.
Qed.
End lock_invariant.

(** ** Refinement of the atomic-step semantics *)

Section refinement.
Context (u : universe) `{!FieldEnumerator u}.

Lemma lock_inv_reachable c c' : lock_inv c -> rtc (lstep u) c c' -> lock_inv c'.
Proof. apply (rtc_invariant (lstep u) lock_inv (lock_inv_step u)). Qed.

(** Under the invariant a goroutine holds the mutexes it is about to
    release. *)
Lemma lock_inv_holder c i th :
  lock_inv c -> lthreads c !! i = Some th ->
  (reg_reader th = true -> readers (typeInfosMutex (lcw c)) <> 0) /\
  (reg_writer th = true -> writer (typeInfosMutex (lcw c)) = true) /\
  (forall p, obj_reader p th = true -> readers (obj_mutex p (lcw c)) <> 0) /\
  (forall p, obj_writer p th = true -> writer (obj_mutex p (lcw c)) = true).
Proof.
  intros (Hreg & Hobj & _) Hi. split_and!; [..|intros p|intros p]; intros Hf.
  - eapply held_readers_pos; [exact Hreg|]. by eapply countb_lookup.
  - eapply held_writer_pos; [exact Hreg|]. by eapply countb_lookup.
  - eapply held_readers_pos; [exact (Hobj p)|]. by eapply countb_lookup.
  - eapply held_writer_pos; [exact (Hobj p)|]. by eapply countb_lookup.
Qed.

(** Every lock-level step is an atomic step of [Concurrent] or invisible. *)
Lemma lstep_sim c c' :
  lock_inv c -> lstep u c c' -> cstep u (abs_config c) (abs_config c') \/ abs_config c' = abs_config c.
Proof.
  intros Hinv [i Hi]. unfold lstep_at in Hi.
  destruct (lthreads c !! i) as [th|] eqn:Hth; simpl in Hi; [|done].
  destruct (ltstep u (lcw c) th) as [[lw' th']|] eqn:Hs; simpl in Hi; [|done].
  injection Hi as <-. destruct (lock_inv_holder c i th Hinv Hth) as (H1 & H2 & H3 & H4).
  destruct (ltstep_sim u _ _ _ _ H1 H2 H3 H4 Hs) as [Ht | [Hw Ha]].
  - left. exists i. unfold step_at, abs_config; simpl.
    rewrite list_lookup_fmap, Hth; simpl. rewrite Ht; simpl. by rewrite list_fmap_insert.
  - right. unfold abs_config; simpl. rewrite Hw, list_fmap_insert, Ha, list_insert_id; [done|].
    by rewrite list_lookup_fmap, Hth.
Qed.

(** C16: the atomic-step abstraction is sound.  Every execution of the
    program with its mutexes explicit, each [RLock], [RUnlock], [Lock] and
    [Unlock] a step of its own, is an execution of [Concurrent], where
    each critical section is one step: the theorems of [Concurrent] hold
    of the program at the granularity of its lock calls. *)
Theorem Locked_refines c c' :
  lock_inv c -> rtc (lstep u) c c' -> rtc (cstep u) (abs_config c) (abs_config c').
Proof. exact (rtc_simulation (lstep u) (cstep u) abs_config lock_inv (lock_inv_step u) lstep_sim c c'). Qed.

(** C17: mutual exclusion.  In every reachable configuration at most one
    goroutine is inside the write-locked publication of lines 59-61, and
    while one is, none is inside the read-locked lookup of lines 34-36;
    the same holds of each [TypeInfo]'s mutex between [AddExtension]
    (lines 66-68) and [Extensions] (lines 72-74). *)
Theorem mutual_exclusion c c' :
  lock_inv c -> rtc (lstep u) c c' ->
  (countb reg_writer (lthreads c') <= 1 /\
   (countb reg_writer (lthreads c') = 1 -> countb reg_reader (lthreads c') = 0)) /\
  forall p, countb (obj_writer p) (lthreads c') <= 1 /\
    (countb (obj_writer p) (lthreads c') = 1 -> countb (obj_reader p) (lthreads c') = 0).
Proof.
  intros Hinv Hr. destruct (lock_inv_reachable c c' Hinv Hr) as (Hreg & Hobj & _).
  split; [|intros p]; by eapply held_exclusive.
Qed.

(** C18: [GetTypeInfo] returns a fully computed [TypeInfo] at the
    granularity of the lock calls too: the safety theorem of [Concurrent]
    transferred through the refinement. *)
Theorem LGetDone_valid c c' i p :
  lock_inv c -> conc_inv u (abs_config c) -> rtc (lstep u) c c' ->
  lthreads c' !! i = Some (LGetDone p) ->
  exists ti, objs (lworld (lcw c')) !! p = Some ti /\ obj_ok u ti.
Proof.
  intros Hl Hc Hr Hi.
  pose proof (rtc_simulation (lstep u) (cstep u) abs_config lock_inv (lock_inv_step u) lstep_sim c c' Hl Hr) as Hr'.
  destruct (conc_inv_reachable u _ _ Hc Hr') as (_ & Hobj & _ & Hths).
  assert (abs_thread <$> lthreads c' !! i = Some (GetDone p)) as Hi' by (rewrite Hi; done).
  rewrite <- list_lookup_fmap in Hi'.
  pose proof (Forall_lookup_1 _ _ _ _ Hths Hi') as Hdone. simpl in Hdone.
  apply elem_of_dom in Hdone as [ti Hti]. eauto.
Qed.
End refinement.

(** ** No deadlock *)

Section progress.
Context (u : universe) `{!FieldEnumerator u}.

(** A goroutine that cannot step has returned or waits on a mutex. *)
Lemma ltstep_None lw th :
  ltstep u lw th = None ->
  lfinal th = true \/
  (exists t, th = LRLock t /\ RLock (typeInfosMutex lw) = None) \/
  (exists t p, th = LLock t p /\ Lock (typeInfosMutex lw) = None) \/
  (exists p e, th = LAddLock p e /\ Lock (obj_mutex p lw) = None) \/
  (exists p, th = LExtLock p /\ RLock (obj_mutex p lw) = None).
Proof. intros Hs. destruct th; simpl in *; repeat case_match; simplify_eq; eauto 10. Qed.

(** A goroutine holding a mutex can always step. *)
Lemma ltstep_None_not_holder lw th :
  ltstep u lw th = None ->
  reg_reader th = false /\ reg_writer th = false /\
  forall p, obj_reader p th = false /\ obj_writer p th = false.
Proof. intros Hs. destruct th; simpl in *; repeat case_match; done. Qed.

(** Some goroutine counted by [f] holds a mutex: the configuration steps. *)
Lemma holder_steps c (f : LThread -> bool) :
  countb f (lthreads c) <> 0 ->
  (forall th, f th = true -> reg_reader th = true \/ reg_writer th = true \/
     exists p, obj_reader p th = true \/ obj_writer p th = true) ->
  exists c', lstep u c c'.
Proof.
  intros (i & th & Hi & Hf)%countb_witness Hholder.
  destruct (ltstep u (lcw c) th) as [[lw' th']|] eqn:Hs.
  - exists (mkLConfig lw' (<[i := th']> (lthreads c))), i. unfold lstep_at.
    rewrite Hi; simpl. by rewrite Hs.
  - destruct (ltstep_None_not_holder _ _ Hs) as (H1 & H2 & H3).
    destruct (Hholder th Hf) as [?|[?|(p & [Hp|Hp])]]; [congruence|congruence| |];
      destruct (H3 p); congruence.
Qed.

(** Progress: a goroutine that has not returned, or the holder it waits
    for, can step. *)
Lemma lock_progress c i th :
  lock_inv c -> lthreads c !! i = Some th -> lfinal th = false -> exists c', lstep u c c'.
Proof.
  intros (Hreg & Hobj & _) Hi Hf.
  destruct (ltstep u (lcw c) th) as [[lw' th']|] eqn:Hs.
  { exists (mkLConfig lw' (<[i := th']> (lthreads c))), i. unfold lstep_at.
    rewrite Hi; simpl. by rewrite Hs. }
  destruct (ltstep_None _ _ Hs)
    as [? | [(t & -> & HR) | [(t & p & -> & HL) | [(p & e & -> & HL) | (p & -> & HR)]]]];
    [congruence| | | |].
  - eapply held_RLock_blocked in HR; [|exact Hreg].
    apply (holder_steps c reg_writer); [lia|eauto].
  - eapply held_Lock_blocked in HL; [|exact Hreg].
    destruct (decide (countb reg_reader (lthreads c) = 0)).
    + apply (holder_steps c reg_writer); [lia|eauto].
    + apply (holder_steps c reg_reader); [lia|eauto].
  - eapply held_Lock_blocked in HL; [|exact (Hobj p)].
    destruct (decide (countb (obj_reader p) (lthreads c) = 0)).
    + apply (holder_steps c (obj_writer p)); [lia|eauto].
    + apply (holder_steps c (obj_reader p)); [lia|eauto].
  - eapply held_RLock_blocked in HR; [|exact (Hobj p)].
    apply (holder_steps c (obj_writer p)); [lia|eauto].
Qed.

(** C19: no deadlock.  Along every interleaving, a configuration in which
    no goroutine can step is one in which every goroutine has returned
    (or panicked): the lock calls of type_info.go never block forever. *)
Theorem deadlock_free c c' :
  lock_inv c -> rtc (lstep u) c c' -> (forall c'', ~ lstep u c' c'') ->
  Forall (fun th => lfinal th = true) (lthreads c').
Proof.
  intros Hinv Hr Hstuck. apply Forall_lookup_2. intros i th Hi.
  destruct (lfinal th) eqn:Hf; [done|].
  destruct (lock_progress c' i th (lock_inv_reachable u c c' Hinv Hr) Hi Hf) as [c'' Hs].
  by destruct (Hstuck c'').
Qed.
End progress.

(** ** Termination

    The steps a goroutine has left: the remaining iterations of the loop
    of lines 31-33 (within [fuel]) and the lock calls and accesses of the
    rest of its call. *)

Section termination.
Context (u : universe) `{!FieldEnumerator u} (fuel : nat).

Definition lmeasure_thread (th : LThread) : nat :=
  match th with
  | LGetStart (Some t) => 10 + ptr_steps u fuel t
  | LGetStart None => 1
  | LRLock _ => 9 | LRead _ => 8 | LRUnlock _ _ => 7 | LCompute _ => 6
  | LLock _ _ => 5 | LWrite _ _ => 4 | LUnlock _ => 3
  | LAddLock _ _ | LExtLock _ => 3
  | LAddWrite _ _ | LExtRead _ => 2
  | LAddUnlock _ | LExtUnlock _ _ => 1
  | LGetDone _ | LAddDone | LExtDone _ _ | LPanicked => 0
  end.

Definition lmeasure (c : LConfig) : nat := sum_list (lmeasure_thread <$> lthreads c).

(** The loop of a goroutine still in it stops within [fuel]. *)
Definition acyclic_thread (th : LThread) : Prop :=
  match th with LGetStart (Some t) => is_Some (deref u fuel t) | _ => True end.

Definition lacyclic (c : LConfig) : Prop := Forall acyclic_thread (lthreads c).

Lemma ltstep_measure lw th lw' th' :
  acyclic_thread th -> ltstep u lw th = Some (lw', th') ->
  lmeasure_thread th' < lmeasure_thread th /\ acyclic_thread th'.
Proof.
  intros Hacy Hs. destruct th; simpl in *; repeat case_match; simplify_eq/=; try lia.
  destruct Hacy as [r Hr]. split.
  - match goal with H : KindOf u ?t = Reflect.Ptr |- _ =>
      pose proof (ptr_steps_Elem u fuel t r Hr H) end. lia.
  - destruct fuel as [|f]; [done|]. rewrite deref_Elem in Hr by done.
    exists r. eapply deref_mono; [exact Hr|lia].
Qed.

Lemma lstep_measure c c' :
  lacyclic c -> lstep u c c' -> lmeasure c' < lmeasure c /\ lacyclic c'.
Proof.
  intros Hacy [i Hi]. unfold lstep_at in Hi.
  destruct (lthreads c !! i) as [th|] eqn:Hth; simpl in Hi; [|done].
  destruct (ltstep u (lcw c) th) as [[lw' th']|] eqn:Hs; simpl in Hi; [|done].
  injection Hi as <-. unfold lmeasure, lacyclic in *; simpl.
  destruct (ltstep_measure _ _ _ _ (Forall_lookup_1 _ _ _ _ Hacy Hth) Hs) as [Hlt Hacy'].
  pose proof (sum_list_fmap_insert lmeasure_thread _ i th th' Hth). split; [lia|].
  by apply Forall_insert.
Qed.

(** C20: every goroutine returns.  From a configuration satisfying the lock
    invariant whose pointer chains end, some interleaving brings every
    goroutine to its return (or panic); the proof runs the goroutine
    [lock_progress] finds, each step lowering [lmeasure]. *)
Theorem all_return c :
  lock_inv c -> lacyclic c ->
  exists c', rtc (lstep u) c c' /\ Forall (fun th => lfinal th = true) (lthreads c').
Proof.
  remember (lmeasure c) as k eqn:Hk. revert c Hk.
  induction (lt_wf k) as [k _ IH]. intros c -> Hinv Hacy.
  destruct (decide (Forall (fun th => lfinal th = true) (lthreads c))) as [Hall|Hnot].
  { exists c. split; [done|exact Hall]. }
  apply not_Forall_Exists in Hnot; [|apply _].
  apply Exists_exists in Hnot as (th & Hin & Hf). apply list_elem_of_lookup in Hin as [i Hi].
  destruct (lock_progress u c i th Hinv Hi) as [c1 Hs]; [by apply not_true_is_false|].
  destruct (lstep_measure c c1 Hacy Hs) as [Hlt Hacy1].
  destruct (IH (lmeasure c1) Hlt c1 eq_refl (lock_inv_step u c c1 Hinv Hs) Hacy1)
    as (c' & Hr & Hall).
  exists c'. split; [by eapply rtc_l|done].
Qed.
End termination.

(** ** Schedules and the race with explicit mutexes *)

Section lschedules.
Context (u : universe) `{!FieldEnumerator u}.

Lemma lrun_nsteps sched c : exists n, nsteps (lstep u) n c (lrun u sched c).
Proof.
  revert c; induction sched as [|i sched IH]; intros c; simpl; [exists 0; constructor|].
  destruct (lstep_at u i c) as [c1|] eqn:Hs; simpl; [|apply IH].
  destruct (IH c1) as [n Hn]. exists (S n). econstructor; [by exists i|exact Hn].
Qed.

Lemma lrun_rtc sched c : rtc (lstep u) c (lrun u sched c).
Proof. destruct (lrun_nsteps sched c) as [n Hn]. by eapply rtc_nsteps_2. Qed.
End lschedules.

(** Goroutines at their calls, no mutex held: the start of a program. *)
Definition lstart (th : LThread) : bool :=
  match th with LGetStart _ | LAddLock _ _ | LExtLock _ => true | _ => false end.

Lemma lock_inv_init w ths :
  Forall (fun th => lstart th = true) ths -> lock_inv (mkLConfig (mkLWorld w RWMutex_zero ∅) ths).
Proof.
  intros Hs. assert (forall f : LThread -> bool,
    (forall th, lstart th = true -> f th = false) -> countb f ths = 0) as Hz.
  { intros f Hf. apply countb_zero. eapply Forall_impl; [exact Hs|]. apply Hf. }
  split_and!; simpl.
  - rewrite !Hz; [done| |]; by intros [] ?.
  - intros p. rewrite !Hz; [done| |]; by intros [] ?.
  - eapply Forall_impl; [exact Hs|]. by intros [] ?.
Qed.

(** Two goroutines call [GetTypeInfo(Outer)] on an empty registry. *)
Definition lrace_config : LConfig :=
  mkLConfig (mkLWorld (mkWorld ∅ ∅ 0) RWMutex_zero ∅) [LGetStart (Some 11%N); LGetStart (Some 11%N)].

(** Both read under [RLock] and miss, then publish in turn under [Lock]. *)
Definition lrace_schedule : list nat := [0; 0; 0; 0; 1; 1; 1; 1; 0; 0; 0; 0; 1; 1; 1; 1].

(** The mutexes serialise the accesses, yet both callers get their own
    object: the race of lines 34-61 is not a data race but a missing
    re-check under [Lock]. *)
Example GetTypeInfo_race_locked :
  lthreads (lrun example_universe lrace_schedule lrace_config) = [LGetDone (Loc 0); LGetDone (Loc 1)] /\
  typeInfos (lworld (lcw (lrun example_universe lrace_schedule lrace_config))) !! 11%N = Some (Loc 1).
Proof. vm_compute. split; reflexivity. Qed.

Lemma lrace_config_inv : lock_inv lrace_config.
Proof. apply lock_inv_init. repeat constructor. Qed.

Lemma Locked_refines_witness :
  rtc (cstep example_universe) (abs_config lrace_config)
    (abs_config (lrun example_universe lrace_schedule lrace_config)).
Proof. apply (Locked_refines example_universe); [exact lrace_config_inv|apply lrun_rtc]. Defined.

(** Mid-race: the first goroutine holds the write lock to publish. *)
Definition lrace_mid : LConfig :=
  lrun example_universe [0; 0; 0; 0; 1; 1; 1; 1; 0; 0; 0] lrace_config.

Example lrace_mid_holds :
  lthreads lrace_mid = [LUnlock (Loc 0); LCompute 11%N] /\
  typeInfosMutex (lcw lrace_mid) = mkRWMutex true 0.
Proof. vm_compute. split; reflexivity. Qed.

Lemma mutual_exclusion_witness :
  (countb reg_writer (lthreads lrace_mid) <= 1 /\
   (countb reg_writer (lthreads lrace_mid) = 1 -> countb reg_reader (lthreads lrace_mid) = 0)) /\
  forall p, countb (obj_writer p) (lthreads lrace_mid) <= 1 /\
    (countb (obj_writer p) (lthreads lrace_mid) = 1 -> countb (obj_reader p) (lthreads lrace_mid) = 0).
Proof. apply (mutual_exclusion example_universe lrace_config); [exact lrace_config_inv|apply lrun_rtc]. Defined.

Lemma LGetDone_valid_witness :
  exists ti, objs (lworld (lcw (lrun example_universe lrace_schedule lrace_config))) !! Loc 0 = Some ti /\
    obj_ok example_universe ti.
Proof.
  apply (LGetDone_valid example_universe lrace_config _ 0).
  - exact lrace_config_inv.
  - apply conc_inv_init. repeat constructor.
  - apply lrun_rtc.
  - vm_compute. reflexivity.
Defined.

Lemma deadlock_free_witness :
  Forall (fun th => lfinal th = true) (lthreads (lrun example_universe lrace_schedule lrace_config)).
Proof.
  apply (deadlock_free example_universe lrace_config); [exact lrace_config_inv|apply lrun_rtc|].
  intros c'' [i Hi]. destruct i as [|[|i]]; vm_compute in Hi; discriminate.
Defined.

Lemma lrace_config_acyclic : lacyclic example_universe 3 lrace_config.
Proof. repeat constructor; vm_compute; eauto. Qed.

Lemma all_return_witness :
  exists c', rtc (lstep example_universe) lrace_config c' /\
    Forall (fun th => lfinal th = true) (lthreads c').
Proof.
  apply (all_return example_universe 3); [exact lrace_config_inv|exact lrace_config_acyclic].
Defined.
